(** * BGK: rules engine and sampled minimax of [bkg.py]

    A shallow embedding of the backgammon engine of [src/bkg.py]: the
    board state of class [BackgammonGame], its single-move generator, the
    forced-die resolver, move application ([make_move] and
    [make_move_base_logic]), the turn-sequence enumerator
    [generate_possible_next_states_with_sequences], the sampled minimax
    [get_minimax_score_sampled] and the move selection
    [select_ai_move_minimax].

    Python integers are [Z]; Python floats are the binary64 numbers of
    [PrimFloat]; the mutable game object is a record passed explicitly,
    each operation returning the object as it leaves it; an exception
    raised inside a [try] block is a result [Raised] carrying the object
    as mutated so far; the random source is a sequence of values read
    through a counter. *)

From Stdlib Require Import ZArith List Bool Lia Floats Sorted Permutation.
Import ListNotations.

Open Scope Z_scope.

(** ** Data model *)

(** The two colours, ['w'] and ['b'] in the source. *)
Inductive player : Type := W | B.

(** A move endpoint: the string ['bar'], the string ['off'] or a point. *)
Inductive endpoint : Type :=
| Bar
| Off
| Pt (n : Z).

Definition move : Type := (endpoint * endpoint)%type.

(** [self.winner]: [None], ['w'], ['b'] or the string ["ERROR"]. *)
Inductive winner_t : Type :=
| NoWinner
| Won (p : player)
| ErrorState.

Inductive phase : Type := OPENING | MIDGAME | ENDGAME.

(** The fields of [BackgammonGame] that the rules and the search read or
    write.  [human_player], [ai_player] and the two
    [*_last_turn_sequence] lists are display data, carried along by
    [copy] and touched by none of the functions below. *)
Record BackgammonGame : Type := mkGame {
  board : list Z;
  white_bar : Z;
  black_bar : Z;
  white_off : Z;
  black_off : Z;
  winner : winner_t;
  current_player : player;
  dice : list Z;
  available_moves : list move;
  current_phase : phase
}.

Definition player_eqb (a b : player) : bool :=
  match a, b with
  | W, W | B, B => true
  | _, _ => false
  end.

Definition endpoint_eqb (a b : endpoint) : bool :=
  match a, b with
  | Bar, Bar | Off, Off => true
  | Pt x, Pt y => x =? y
  | _, _ => false
  end.

Definition move_eqb (a b : move) : bool :=
  endpoint_eqb (fst a) (fst b) && endpoint_eqb (snd a) (snd b).

(** [p_sign = 1 if player == 'w' else -1] *)
Definition p_sign (pl : player) : Z :=
  match pl with W => 1 | B => -1 end.

Definition opponent (pl : player) : player :=
  match pl with W => B | B => W end.

Definition bar_of (pl : player) (gs : BackgammonGame) : Z :=
  match pl with W => white_bar gs | B => black_bar gs end.

Definition off_of (pl : player) (gs : BackgammonGame) : Z :=
  match pl with W => white_off gs | B => black_off gs end.

(** Python's [range(lo, hi)]. *)
Definition range (lo hi : Z) : list Z :=
  map (fun k => lo + Z.of_nat k) (seq 0 (Z.to_nat (hi - lo))).

(** [board[pos - 1]] for a point [pos] that the caller has checked to be
    in [1..24]. *)
Definition point (b : list Z) (pos : Z) : Z :=
  nth (Z.to_nat (pos - 1)) b 0.

(** In-place store [board[pos - 1] = v], again for a checked [pos]. *)
Fixpoint set_nth (n : nat) (v : Z) (l : list Z) : list Z :=
  match l, n with
  | [], _ => []
  | _ :: t, O => v :: t
  | x :: t, S k => x :: set_nth k v t
  end.

Definition set_point (b : list Z) (pos : Z) (v : Z) : list Z :=
  set_nth (Z.to_nat (pos - 1)) v b.

(** The standard starting layout of [__init__]. *)
Definition initial_board : list Z :=
  [ 2; 0; 0; 0; 0; -5; 0; -3; 0; 0; 0; 5;
    -5; 0; 0; 0; 3; 0; 5; 0; 0; 0; 0; -2 ].

(** ** Rule functions *)

Definition _check_all_pieces_home (pl : player) (game_state : BackgammonGame)
  : bool :=
  let sg := p_sign pl in
  let bar_count := bar_of pl game_state in
  if bar_count >? 0 then false
  else
    let outside_range :=
      match pl with W => range 1 19 | B => range 7 25 end in
    forallb (fun pos => negb (point (board game_state) pos * sg >? 0))
            outside_range.

Definition _can_bear_off (pl : player) (checker_pos die_value : Z)
           (game_state : BackgammonGame) : bool :=
  let sg := p_sign pl in
  let b := board game_state in
  let '(home_start, home_end) :=
    match pl with W => (19, 24) | B => (1, 6) end in
  if negb ((home_start <=? checker_pos) && (checker_pos <=? home_end))
  then false
  else
    let target_point_for_exact_off := match pl with W => 25 | B => 0 end in
    let required_dist := Z.abs (target_point_for_exact_off - checker_pos) in
    if die_value =? required_dist then true
    else
      let is_overshoot :=
        match pl with
        | W => checker_pos + die_value >? 24
        | B => checker_pos - die_value <? 1
        end in
      if is_overshoot && (die_value >? required_dist) then
        let check_behind_range :=
          match pl with
          | W => range home_start checker_pos
          | B => range (checker_pos + 1) (home_end + 1)
          end in
        forallb (fun p => negb (point b p * sg >? 0)) check_behind_range
      else false.

(** [_get_die_for_move]: the nominal die of a move, [None] when there is
    none. *)
Definition _get_die_for_move (src dst : endpoint) (pl : player) : option Z :=
  match src, dst with
  | Pt s, Pt d =>
      let diff := match pl with W => d - s | B => s - d end in
      if (1 <=? diff) && (diff <=? 6) then Some diff else None
  | Bar, Pt entry_point =>
      let die := match pl with W => entry_point | B => 25 - entry_point end in
      if (1 <=? die) && (die <=? 6) then Some die else None
  | Pt s, Off =>
      let in_home :=
        match pl with
        | W => (19 <=? s) && (s <=? 24)
        | B => (1 <=? s) && (s <=? 6)
        end in
      if negb in_home then None
      else
        let needed := match pl with W => 25 - s | B => s end in
        if (1 <=? needed) && (needed <=? 6) then Some needed else None
  | _, _ => None
  end.

(** The block rule shared by entry and ordinary moves:
    [(dest_count * p_sign >= 0) or (abs(dest_count) == 1)]. *)
Definition is_allowed (dest_count sg : Z) : bool :=
  (dest_count * sg >=? 0) || (Z.abs dest_count =? 1).

Definition _get_single_moves_for_die (pl : player) (die_value : Z)
           (current_state : BackgammonGame) : list move :=
  let sg := p_sign pl in
  let p_bar := bar_of pl current_state in
  let b := board current_state in
  if p_bar >? 0 then
    let entry_point := match pl with W => die_value | B => 25 - die_value end in
    if (1 <=? entry_point) && (entry_point <=? 24) then
      if is_allowed (point b entry_point) sg
      then [(Bar, Pt entry_point)] else []
    else []
  else
    let all_checkers_home := _check_all_pieces_home pl current_state in
    flat_map
      (fun pos =>
         let checker_count := point b pos in
         if checker_count * sg >? 0 then
           let dest_point :=
             match pl with W => pos + die_value | B => pos - die_value end in
           if (1 <=? dest_point) && (dest_point <=? 24) then
             if is_allowed (point b dest_point) sg
             then [(Pt pos, Pt dest_point)] else []
           else if all_checkers_home then
             if _can_bear_off pl pos die_value current_state
             then [(Pt pos, Off)] else []
           else []
         else [])
      (range 1 25).

(** ** Field updates of the mutable game object *)

Definition set_board (gs : BackgammonGame) (b : list Z) : BackgammonGame :=
  mkGame b (white_bar gs) (black_bar gs) (white_off gs) (black_off gs)
         (winner gs) (current_player gs) (dice gs) (available_moves gs)
         (current_phase gs).

Definition set_bar (pl : player) (gs : BackgammonGame) (v : Z)
  : BackgammonGame :=
  match pl with
  | W => mkGame (board gs) v (black_bar gs) (white_off gs) (black_off gs)
                (winner gs) (current_player gs) (dice gs) (available_moves gs)
                (current_phase gs)
  | B => mkGame (board gs) (white_bar gs) v (white_off gs) (black_off gs)
                (winner gs) (current_player gs) (dice gs) (available_moves gs)
                (current_phase gs)
  end.

Definition set_off (pl : player) (gs : BackgammonGame) (v : Z)
  : BackgammonGame :=
  match pl with
  | W => mkGame (board gs) (white_bar gs) (black_bar gs) v (black_off gs)
                (winner gs) (current_player gs) (dice gs) (available_moves gs)
                (current_phase gs)
  | B => mkGame (board gs) (white_bar gs) (black_bar gs) (white_off gs) v
                (winner gs) (current_player gs) (dice gs) (available_moves gs)
                (current_phase gs)
  end.

Definition set_winner (gs : BackgammonGame) (w : winner_t) : BackgammonGame :=
  mkGame (board gs) (white_bar gs) (black_bar gs) (white_off gs) (black_off gs)
         w (current_player gs) (dice gs) (available_moves gs)
         (current_phase gs).

Definition set_current_player (gs : BackgammonGame) (p : player)
  : BackgammonGame :=
  mkGame (board gs) (white_bar gs) (black_bar gs) (white_off gs) (black_off gs)
         (winner gs) p (dice gs) (available_moves gs) (current_phase gs).

Definition set_dice (gs : BackgammonGame) (d : list Z) : BackgammonGame :=
  mkGame (board gs) (white_bar gs) (black_bar gs) (white_off gs) (black_off gs)
         (winner gs) (current_player gs) d (available_moves gs)
         (current_phase gs).

Definition set_available_moves (gs : BackgammonGame) (m : list move)
  : BackgammonGame :=
  mkGame (board gs) (white_bar gs) (black_bar gs) (white_off gs) (black_off gs)
         (winner gs) (current_player gs) (dice gs) m (current_phase gs).

Definition set_current_phase (gs : BackgammonGame) (p : phase)
  : BackgammonGame :=
  mkGame (board gs) (white_bar gs) (black_bar gs) (white_off gs) (black_off gs)
         (winner gs) (current_player gs) (dice gs) (available_moves gs) p.

(** [__init__]: the game at its start. *)
Definition initial_game : BackgammonGame :=
  mkGame initial_board 0 0 0 0 NoWinner W [] [] OPENING.

(** [copy]: every field is copied by value; lists are values here, so the
    copy is the record itself. *)
Definition copy (gs : BackgammonGame) : BackgammonGame := gs.

(** [board_tuple]: the hashable identity of a position. *)
Definition board_key : Type := (list Z * Z * Z * Z * Z * player)%type.

Definition board_tuple (gs : BackgammonGame) : board_key :=
  (board gs, white_bar gs, black_bar gs, white_off gs, black_off gs,
   current_player gs).

Definition list_Z_eqb (a b : list Z) : bool :=
  (length a =? length b)%nat && forallb (fun p => fst p =? snd p) (combine a b).

Definition board_key_eqb (a b : board_key) : bool :=
  let '(b1, wb1, bb1, wo1, bo1, p1) := a in
  let '(b2, wb2, bb2, wo2, bo2, p2) := b in
  list_Z_eqb b1 b2 && (wb1 =? wb2) && (bb1 =? bb2) && (wo1 =? wo2)
  && (bo1 =? bo2) && player_eqb p1 p2.

(** [is_game_over]: the answer and the object with [winner] set. *)
Definition is_game_over (gs : BackgammonGame) : bool * BackgammonGame :=
  if white_off gs >=? 15 then (true, set_winner gs (Won W))
  else if black_off gs >=? 15 then (true, set_winner gs (Won B))
  else (false, gs).

(** [sum(...)] over the board. *)
Definition sum_Z (l : list Z) : Z := fold_right Z.add 0 l.

Definition get_total_checker_count (gs : BackgammonGame) : Z * Z :=
  let w_board := sum_Z (filter (fun c => c >? 0) (board gs)) in
  let b_board := sum_Z (map Z.abs (filter (fun c => c <? 0) (board gs))) in
  (w_board + white_bar gs + white_off gs,
   b_board + black_bar gs + black_off gs).

Definition calculate_pip (gs : BackgammonGame) (pl : player) : Z :=
  let sg := p_sign pl in
  let pip :=
    fold_left
      (fun pip pos =>
         let count := point (board gs) pos in
         if count * sg >? 0 then
           let distance := match pl with W => 25 - pos | B => pos end in
           pip + distance * Z.abs count
         else pip)
      (range 1 25) 0 in
  pip + bar_of pl gs * 25.

Definition OPENING_EXIT_TOTAL_PIP_THRESHOLD : Z := 280.

(** [determine_game_phase]: the phase and the object with
    [current_phase] set. *)
Definition determine_game_phase (gs : BackgammonGame)
  : phase * BackgammonGame :=
  let w_home := _check_all_pieces_home W gs in
  let b_home := _check_all_pieces_home B gs in
  let ph :=
    if (white_off gs >? 0) || (black_off gs >? 0) || (w_home && b_home)
    then ENDGAME
    else
      let total_pip := calculate_pip gs W + calculate_pip gs B in
      if total_pip >? OPENING_EXIT_TOTAL_PIP_THRESHOLD then OPENING
      else MIDGAME in
  (ph, set_current_phase gs ph).

(** ** Move application without dice: [make_move_base_logic] *)

(** Landing on a checked point [d]: a hit on a single opposing checker, or
    one more checker of the mover.  The caller has already ruled out two
    or more opposing checkers. *)
Definition land (pl : player) (gs : BackgammonGame) (d : Z)
  : BackgammonGame :=
  let sg := p_sign pl in
  let dest_count := point (board gs) d in
  if (dest_count * sg <? 0) && (Z.abs dest_count =? 1) then
    let gs1 := set_bar (opponent pl) gs (bar_of (opponent pl) gs + 1) in
    set_board gs1 (set_point (board gs1) d sg)
  else
    set_board gs (set_point (board gs) d (dest_count + sg)).

(** The result is the returned boolean and the object as the call leaves
    it.  With a 24-point board no statement of the [try] block can raise,
    so the [except] branch has no counterpart. *)
Definition make_move_base_logic (gs : BackgammonGame) (player_base : player)
           (src_base dst_base : endpoint) : bool * BackgammonGame :=
  let sg := p_sign player_base in
  (* source: [Some (gs1, from_point)] once a checker has been lifted *)
  let lifted : option (BackgammonGame * option Z) :=
    match src_base with
    | Bar =>
        if bar_of player_base gs >? 0
        then Some (set_bar player_base gs (bar_of player_base gs - 1), None)
        else None
    | Pt s =>
        if (1 <=? s) && (s <=? 24) then
          let original_board_val_src := point (board gs) s in
          if original_board_val_src * sg <=? 0 then None
          else Some (set_board gs (set_point (board gs) s
                                             (original_board_val_src - sg)),
                     Some s)
        else None
    | Off => None
    end in
  match lifted with
  | None => (false, gs)
  | Some (gs1, from_point) =>
      let restore_source (g : BackgammonGame) : BackgammonGame :=
        match from_point with
        | Some s => set_board g (set_point (board g) s (point (board g) s + sg))
        | None => g
        end in
      match dst_base with
      | Off => (true, set_off player_base gs1 (off_of player_base gs1 + 1))
      | Pt d =>
          if (1 <=? d) && (d <=? 24) then
            let dest_count := point (board gs1) d in
            if (dest_count * sg <? 0) && (Z.abs dest_count >=? 2)
            then (false, restore_source gs1)
            else (true, land player_base gs1 d)
          else
            let gs2 := restore_source gs1 in
            (false,
             match src_base with
             | Bar => set_bar player_base gs2 (bar_of player_base gs2 + 1)
             | _ => gs2
             end)
      | Bar =>
          let gs2 := restore_source gs1 in
          (false,
           match src_base with
           | Bar => set_bar player_base gs2 (bar_of player_base gs2 + 1)
           | _ => gs2
           end)
      end
  end.

(** ** Forced-die resolver *)

(** [sorted(l)] *)
Fixpoint insert_asc (x : Z) (l : list Z) : list Z :=
  match l with
  | [] => [x]
  | y :: t => if x <=? y then x :: l else y :: insert_asc x t
  end.

Definition sorted (l : list Z) : list Z := fold_right insert_asc [] l.

(** [sorted(list(set(l)), reverse=True)] *)
Fixpoint insert_desc_unique (x : Z) (l : list Z) : list Z :=
  match l with
  | [] => [x]
  | y :: t =>
      if x =? y then l
      else if x >? y then x :: l
      else y :: insert_desc_unique x t
  end.

Definition sorted_set_desc (l : list Z) : list Z :=
  fold_right insert_desc_unique [] l.

Definition mem_Z (x : Z) (l : list Z) : bool := existsb (Z.eqb x) l.

Definition nonempty {A : Type} (l : list A) : bool :=
  match l with [] => false | _ => true end.

(** One half of the both-dice test: some move of [first], once applied to
    a copy, leaves a move for [second]. *)
Definition plays_then (gs : BackgammonGame) (pl : player) (first second : Z)
  : bool :=
  existsb
    (fun mv =>
       let '(ok, temp_game) :=
         make_move_base_logic (copy gs) pl (fst mv) (snd mv) in
       ok && nonempty (_get_single_moves_for_die pl second temp_game))
    (_get_single_moves_for_die pl first gs).

Definition _get_strictly_playable_dice (current_state_obj : BackgammonGame)
           (dice_list : list Z) (pl : player) : list Z :=
  match dice_list with
  | [] => []
  | _ =>
      let unique_dice := sorted_set_desc dice_list in
      let individually_playable_dice :=
        filter (fun die =>
                  nonempty (_get_single_moves_for_die pl die current_state_obj))
               unique_dice in
      match individually_playable_dice with
      | [] => []
      | _ =>
          match dice_list with
          | [d0; d1] =>
              if negb (d0 =? d1) then
                let smaller_die := Z.min d0 d1 in
                let larger_die := Z.max d0 d1 in
                let can_play_larger :=
                  mem_Z larger_die individually_playable_dice in
                let can_play_smaller :=
                  mem_Z smaller_die individually_playable_dice in
                if can_play_larger && negb can_play_smaller
                then [larger_die]
                else if negb can_play_larger && can_play_smaller
                then [smaller_die]
                else if can_play_larger && can_play_smaller then
                  let can_play_both_sequence :=
                    plays_then current_state_obj pl larger_die smaller_die
                    || plays_then current_state_obj pl smaller_die larger_die in
                  if negb can_play_both_sequence && can_play_larger
                  then [larger_die]
                  else individually_playable_dice
                else []
              else individually_playable_dice
          | _ => individually_playable_dice
          end
      end
  end.

(** [list(set(...))]: the distinct moves; Python leaves their order
    unspecified, here it is the order of first appearance. *)
Fixpoint dedup_moves (l : list move) : list move :=
  match l with
  | [] => []
  | m :: t =>
      let r := dedup_moves t in
      if existsb (move_eqb m) r then r else m :: r
  end.

Definition get_legal_actions (gs : BackgammonGame) : list move :=
  let pl := current_player gs in
  match dice gs with
  | [] => []
  | _ =>
      let playable_dice_values :=
        _get_strictly_playable_dice gs (dice gs) pl in
      dedup_moves
        (flat_map (fun die_val => _get_single_moves_for_die pl die_val gs)
                  playable_dice_values)
  end.

(** ** Move application on the live game: [make_move] *)

(** Python list indexing: [l[i]] accepts [-len(l) <= i < len(l)], a
    negative index counting from the end; anything else raises
    [IndexError]. *)
Definition py_index (l : list Z) (i : Z) : option nat :=
  let n := Z.of_nat (length l) in
  if (0 <=? i) && (i <? n) then Some (Z.to_nat i)
  else if (- n <=? i) && (i <? 0) then Some (Z.to_nat (n + i))
  else None.

(** [l.remove(x)]: drops the first occurrence, [ValueError] when there is
    none. *)
Fixpoint py_remove (x : Z) (l : list Z) : option (list Z) :=
  match l with
  | [] => None
  | y :: t =>
      if x =? y then Some t
      else match py_remove x t with
           | Some t' => Some (y :: t')
           | None => None
           end
  end.

(** How a [try] block ends: normally, or by an exception raised on the
    object as mutated so far. *)
Inductive try_result : Type :=
| Done (gs : BackgammonGame)
| Raised (gs_at_raise : BackgammonGame).

(** The die that [make_move] decides to consume, [None] when it finds
    none. *)
Definition die_to_remove (gs : BackgammonGame) (src dst : endpoint)
  : option Z :=
  let pl := current_player gs in
  let nominal_die := _get_die_for_move src dst pl in
  let nominal_in_dice :=
    match nominal_die with
    | Some n => mem_Z n (dice gs)
    | None => false
    end in
  if nominal_in_dice then nominal_die
  else
    match src, dst with
    | Pt s, Off =>
        let needed_dist := match pl with W => 25 - s | B => s end in
        let possible_overshoot_dice :=
          sorted (filter (fun d => d >=? needed_dist) (dice gs)) in
        find (fun potential_die =>
                _check_all_pieces_home pl gs
                && _can_bear_off pl s potential_die gs)
             possible_overshoot_dice
    | _, _ => None
    end.

(** The statements of the [try] block up to and including
    [self.dice.remove(die_to_remove)]. *)
Definition make_move_try (gs : BackgammonGame) (src dst : endpoint)
           (die : Z) : try_result :=
  let pl := current_player gs in
  let sg := p_sign pl in
  let after_source : try_result :=
    match src with
    | Bar => Done (set_bar pl gs (bar_of pl gs - 1))
    | Pt s =>
        match py_index (board gs) (s - 1) with
        | Some i =>
            Done (set_board gs (set_nth i (nth i (board gs) 0 - sg) (board gs)))
        | None => Raised gs               (* IndexError *)
        end
    | Off => Raised gs                    (* TypeError: 'off' - 1 *)
    end in
  match after_source with
  | Raised g => Raised g
  | Done gs1 =>
      let after_dest : try_result :=
        match dst with
        | Off => Done (set_off pl gs1 (off_of pl gs1 + 1))
        | Pt d =>
            match py_index (board gs1) (d - 1) with
            | Some i =>
                let dest_count := nth i (board gs1) 0 in
                if dest_count * sg <? 0 then
                  if Z.abs dest_count =? 1 then
                    let gs2 := set_board gs1 (set_nth i 0 (board gs1)) in
                    let gs3 :=
                      set_bar (opponent pl) gs2 (bar_of (opponent pl) gs2 + 1) in
                    Done (set_board gs3 (set_nth i sg (board gs3)))
                  else Raised gs1         (* ValueError("Illegal move target") *)
                else
                  Done (set_board gs1 (set_nth i (dest_count + sg) (board gs1)))
            | None => Raised gs1          (* IndexError *)
            end
        | Bar => Raised gs1               (* TypeError: 'bar' - 1 *)
        end in
      match after_dest with
      | Raised g => Raised g
      | Done gs2 =>
          match py_remove die (dice gs2) with
          | Some d' => Done (set_dice gs2 d')
          | None => Raised gs2            (* ValueError *)
          end
      end
  end.

(** [make_move]: the returned boolean and the object as the call leaves
    it. *)
Definition make_move (gs : BackgammonGame) (src dst : endpoint)
  : bool * BackgammonGame :=
  match die_to_remove gs src dst with
  | None => (false, gs)
  | Some die =>
      let board_before := board gs in
      let bars_before := (white_bar gs, black_bar gs) in
      let off_before := (white_off gs, black_off gs) in
      let dice_before := dice gs in
      match make_move_try gs src dst die with
      | Done gs1 =>
          let gs2 := set_available_moves gs1 (get_legal_actions gs1) in
          let '(_, gs3) := is_game_over gs2 in
          let '(w_final, b_final) := get_total_checker_count gs3 in
          if negb (w_final =? 15) || negb (b_final =? 15)
          then (false, set_winner gs3 ErrorState)
          else (true, gs3)
      | Raised g =>
          let g1 := set_board g board_before in
          let g2 := set_bar B (set_bar W g1 (fst bars_before))
                            (snd bars_before) in
          let g3 := set_off B (set_off W g2 (fst off_before))
                            (snd off_before) in
          let g4 := set_dice g3 dice_before in
          let g5 := set_available_moves g4 (get_legal_actions g4) in
          (false, set_winner g5 ErrorState)
      end
  end.

(** [roll_dice], with the two values drawn from the random source made
    arguments. *)
Definition roll_dice (gs : BackgammonGame) (d1 d2 : Z) : BackgammonGame :=
  let gs1 := set_dice gs (if d1 =? d2 then [d1; d1; d1; d1] else [d1; d2]) in
  set_available_moves gs1 (get_legal_actions gs1).

Definition switch_player (gs : BackgammonGame) : BackgammonGame :=
  let gs1 := set_current_player gs (opponent (current_player gs)) in
  set_available_moves (set_dice gs1 []) [].

(** ** Turn-sequence enumerator *)

(** [possible_final_outcomes]: a Python dict, which keeps its keys in
    insertion order and leaves a key in place when its value is
    replaced. *)
Definition outcome : Type := (BackgammonGame * list move)%type.
Definition outcomes_dict : Type := list (board_key * outcome).

(** [memo]: the set of (position, remaining dice) pairs already entered. *)
Definition memo_key : Type := (board_key * list Z)%type.

Definition memo_key_eqb (a b : memo_key) : bool :=
  board_key_eqb (fst a) (fst b) && list_Z_eqb (snd a) (snd b).

Definition memo_mem (k : memo_key) (memo : list memo_key) : bool :=
  existsb (memo_key_eqb k) memo.

Fixpoint dict_get (k : board_key) (d : outcomes_dict) : option outcome :=
  match d with
  | [] => None
  | (k', v) :: t => if board_key_eqb k k' then Some v else dict_get k t
  end.

Fixpoint dict_set (k : board_key) (v : outcome) (d : outcomes_dict)
  : outcomes_dict :=
  match d with
  | [] => [(k, v)]
  | (k', v') :: t =>
      if board_key_eqb k k' then (k', v) :: t else (k', v') :: dict_set k v t
  end.

Definition dict_values (d : outcomes_dict) : list outcome := map snd d.

(** The three identical "record this terminal state" blocks of
    [find_sequences_recursive]. *)
Definition record_outcome (state_now : BackgammonGame)
           (sequence_so_far : list move) (d : outcomes_dict) : outcomes_dict :=
  let current_board_key := board_tuple state_now in
  match dict_get current_board_key d with
  | None => dict_set current_board_key (copy state_now, sequence_so_far) d
  | Some (_, old_seq) =>
      if (length sequence_so_far <? length old_seq)%nat
      then dict_set current_board_key (copy state_now, sequence_so_far) d
      else d
  end.

(** Which die a candidate move consumes when it is tried for [die_val]. *)
Definition consumed_die (state_now : BackgammonGame) (pl : player)
           (dice_rem_tuple : list Z) (die_val : Z) (mv : move) : option Z :=
  let '(src, dst) := mv in
  let temp_dice_list := dice_rem_tuple in
  let nominal_die := _get_die_for_move src dst pl in
  let case1 :=
    match nominal_die with
    | Some n => (n =? die_val) && mem_Z die_val temp_dice_list
    | None => false
    end in
  if case1 then Some die_val
  else
    match src, dst with
    | Pt s, Off =>
        let needed_dist := match pl with W => 25 - s | B => s end in
        if (die_val >=? needed_dist)
           && _can_bear_off pl s die_val state_now
           && mem_Z die_val temp_dice_list
        then
          let valid_overshoot_dice :=
            sorted (filter (fun d => (d >=? needed_dist)
                                     && _can_bear_off pl s d state_now)
                           temp_dice_list) in
          match valid_overshoot_dice with
          | smallest_valid :: _ =>
              if die_val =? smallest_valid then Some die_val else None
          | [] => None
          end
        else None
    | _, _ => None
    end.

(** The search state shared by all calls: [memo] and
    [possible_final_outcomes]. *)
Definition search_state : Type := (list memo_key * outcomes_dict)%type.

(** [find_sequences_recursive].  Every recursive call removes one die, so
    the recursion is by a counter that starts above the number of dice;
    the counter never runs out (see [find_sequences_fuel]). *)
Fixpoint find_sequences_recursive (fuel : nat) (pl : player)
         (state_now : BackgammonGame) (dice_rem_tuple : list Z)
         (sequence_so_far : list move) (st : search_state) : search_state :=
  match fuel with
  | O => st
  | S fuel' =>
      let '(memo, outs) := st in
      let state_key_memo := (board_tuple state_now, dice_rem_tuple) in
      if memo_mem state_key_memo memo then st
      else
        let memo := state_key_memo :: memo in
        match dice_rem_tuple with
        | [] => (memo, record_outcome state_now sequence_so_far outs)
        | _ =>
            let allowed_next_dice :=
              _get_strictly_playable_dice state_now dice_rem_tuple pl in
            match allowed_next_dice with
            | [] => (memo, record_outcome state_now sequence_so_far outs)
            | _ =>
                let '(found_at_least_one_move_this_level, st') :=
                  fold_left
                    (fun (acc : bool * search_state) die_val =>
                       let possible_single_moves :=
                         _get_single_moves_for_die pl die_val state_now in
                       match possible_single_moves with
                       | [] => acc
                       | _ =>
                           (true,
                            fold_left
                              (fun (s : search_state) mv =>
                                 match consumed_die state_now pl dice_rem_tuple
                                                    die_val mv with
                                 | None => s
                                 | Some c =>
                                     let '(move_ok, next_state) :=
                                       make_move_base_logic
                                         (copy state_now) pl (fst mv) (snd mv) in
                                     if move_ok then
                                       match py_remove c dice_rem_tuple with
                                       | None => s
                                       | Some next_dice_list =>
                                           find_sequences_recursive
                                             fuel' pl next_state
                                             (sorted next_dice_list)
                                             (sequence_so_far ++ [mv]) s
                                       end
                                     else s
                                 end)
                              possible_single_moves (snd acc))
                       end)
                    allowed_next_dice (false, (memo, outs)) in
                if found_at_least_one_move_this_level then st'
                else (fst st', record_outcome state_now sequence_so_far (snd st'))
            end
        end
  end.

(** [initial_dice_perms] *)
Definition initial_dice_perms (dice_tuple : list Z) : list (list Z) :=
  match dice_tuple with
  | [_; _; _; _] => [dice_tuple]
  | [d1; d2] => if negb (d1 =? d2) then [[d1; d2]; [d2; d1]] else [[d1; d1]]
  | _ => [dice_tuple]
  end.

(** The dict [possible_final_outcomes] once every seeded search has
    run. *)
Definition collect_final_outcomes (current_game_state : BackgammonGame)
           (dice_tuple : list Z) (pl : player) : outcomes_dict :=
  snd (fold_left
         (fun st initial_dice =>
            let search_start_state :=
              set_dice (copy current_game_state) initial_dice in
            find_sequences_recursive (S (length initial_dice)) pl
                                     search_start_state (sorted initial_dice)
                                     [] st)
         (initial_dice_perms dice_tuple) ([], [])).

(** [max(len(seq) for _, seq in d.values())], [0] on the empty dict. *)
Definition max_len (vals : list outcome) : nat :=
  fold_right (fun o m => Nat.max (length (snd o)) m) O vals.

Definition generate_possible_next_states_with_sequences
           (current_game_state : BackgammonGame) (dice_tuple : list Z)
           (pl : player) : list outcome :=
  match dice_tuple with
  | [] => [(copy current_game_state, [])]
  | _ =>
      let possible_final_outcomes :=
        collect_final_outcomes current_game_state dice_tuple pl in
      match possible_final_outcomes with
      | [] => [(copy current_game_state, [])]
      | _ =>
          let vals := dict_values possible_final_outcomes in
          let m := max_len vals in
          let final_results :=
            if (m =? 0)%nat && (1 <=? length possible_final_outcomes)%nat
            then firstn 1 vals
            else filter (fun o => (length (snd o) =? m)%nat) vals in
          match final_results with
          | [] => vals
          | _ => final_results
          end
      end
  end.

(** ** Sampled minimax *)

Definition MAX_DEPTH : nat := 3.
Definition NUM_DICE_SAMPLES : nat := 14.

(** Python's [max(a, b)] and [min(a, b)] on floats: the second argument
    replaces the first only when it compares strictly beyond it. *)
Definition py_max (a b : float) : float := if PrimFloat.ltb a b then b else a.
Definition py_min (a b : float) : float := if PrimFloat.ltb b a then b else a.

(** [float(n)] for a small count. *)
Definition float_of_nat (n : nat) : float :=
  PrimFloat.of_uint63 (Uint63.of_Z (Z.of_nat n)).

(** [(d1, d2) * 2 if d1 == d2 else (d1, d2)] *)
Definition dice_for_turn (d1 d2 : Z) : list Z :=
  if d1 =? d2 then [d1; d2; d1; d2] else [d1; d2].

(** [not possible_outcomes or (len(possible_outcomes) == 1 and not
    possible_outcomes[0][1])] *)
Definition no_move_outcome (possible_outcomes : list outcome) : bool :=
  match possible_outcomes with
  | [] => true
  | [(_, [])] => true
  | _ => false
  end.

(** The loop state of a chance node: the object searched, the two bounds
    (local variables of the call, assigned inside the loops), the running
    sum, the number of samples done and the number of values drawn from
    the random source so far. *)
Record chance_loop : Type := mkLoop {
  cl_state : BackgammonGame;
  cl_alpha : float;
  cl_beta : float;
  cl_accumulated : float;
  cl_num : nat;
  cl_drawn : nat
}.

(** What a recursive call gives back: the score, the object it was called
    on as the call leaves it, and the draw counter. *)
Definition search_result : Type := (float * BackgammonGame * nat)%type.

Section Search.

(** [evaluate_position_heuristic(game_state, player, weights)], the
    weight profile being named by the phase that selects it in
    [PHASE_WEIGHTS].  It reads the object and writes nothing. *)
Variable evaluate_position_heuristic :
  BackgammonGame -> player -> phase -> float.

(** The process-wide random source: [randint n] is the value of the
    [n]-th call of [random.randint(1, 6)]. *)
Variable randint : nat -> Z.

Definition _get_random_dice_sample (drawn : nat)
  : list (Z * Z) * nat :=
  (map (fun i => (randint (drawn + 2 * i), randint (drawn + 2 * i + 1)))
       (seq 0 NUM_DICE_SAMPLES),
   drawn + 2 * NUM_DICE_SAMPLES)%nat.

Section Node.

(** The recursive call one ply down, on a given object with given
    bounds. *)
Variable recurse : BackgammonGame -> float -> float -> nat -> search_result.

(** [for next_state, _ in possible_outcomes: ...] of a maximizing
    node; the result is [best_eval_for_this_roll], [alpha] and the
    draw counter when the loop is left. *)
Fixpoint branches_max (outs : list outcome) (best alpha beta : float)
         (drawn : nat) : float * float * nat :=
  match outs with
  | [] => (best, alpha, drawn)
  | (next_state, _) :: rest =>
      let '(evaluation, _, drawn1) := recurse next_state alpha beta drawn in
      let best := py_max best evaluation in
      let alpha := py_max alpha best in
      if PrimFloat.leb beta alpha then (best, alpha, drawn1)
      else branches_max rest best alpha beta drawn1
  end.

(** The same loop of a minimizing node; the result is
    [worst_eval_for_this_roll], [beta] and the draw counter. *)
Fixpoint branches_min (outs : list outcome) (worst alpha beta : float)
         (drawn : nat) : float * float * nat :=
  match outs with
  | [] => (worst, beta, drawn)
  | (next_state, _) :: rest =>
      let '(evaluation, _, drawn1) := recurse next_state alpha beta drawn in
      let worst := py_min worst evaluation in
      let beta := py_min beta worst in
      if PrimFloat.leb beta alpha then (worst, beta, drawn1)
      else branches_min rest worst alpha beta drawn1
  end.

(** One iteration of [for d1, d2 in sampled_dice_rolls] at a
    maximizing node. *)
Definition max_sample_step (current_turn_player : player)
           (st : chance_loop) (sample : Z * Z) : chance_loop :=
  let '(d1, d2) := sample in
  let possible_outcomes :=
    generate_possible_next_states_with_sequences
      (cl_state st) (dice_for_turn d1 d2) current_turn_player in
  if no_move_outcome possible_outcomes then
    let '(best_eval_for_this_roll, gs, drawn) :=
      recurse (cl_state st) (cl_alpha st) (cl_beta st) (cl_drawn st) in
    mkLoop gs (cl_alpha st) (cl_beta st)
           (cl_accumulated st + best_eval_for_this_roll)%float
           (S (cl_num st)) drawn
  else
    let '(best_eval_for_this_roll, alpha, drawn) :=
      branches_max possible_outcomes neg_infinity
                   (cl_alpha st) (cl_beta st) (cl_drawn st) in
    mkLoop (cl_state st) alpha (cl_beta st)
           (cl_accumulated st + best_eval_for_this_roll)%float
           (S (cl_num st)) drawn.

(** One iteration at a minimizing node. *)
Definition min_sample_step (current_turn_player : player)
           (st : chance_loop) (sample : Z * Z) : chance_loop :=
  let '(d1, d2) := sample in
  let possible_outcomes :=
    generate_possible_next_states_with_sequences
      (cl_state st) (dice_for_turn d1 d2) current_turn_player in
  if no_move_outcome possible_outcomes then
    let '(worst_eval_for_this_roll, gs, drawn) :=
      recurse (cl_state st) (cl_alpha st) (cl_beta st) (cl_drawn st) in
    mkLoop gs (cl_alpha st) (cl_beta st)
           (cl_accumulated st + worst_eval_for_this_roll)%float
           (S (cl_num st)) drawn
  else
    let '(worst_eval_for_this_roll, beta, drawn) :=
      branches_min possible_outcomes infinity
                   (cl_alpha st) (cl_beta st) (cl_drawn st) in
    mkLoop (cl_state st) (cl_alpha st) beta
           (cl_accumulated st + worst_eval_for_this_roll)%float
           (S (cl_num st)) drawn.

Definition sample_step (is_maximizing_node : bool)
           (current_turn_player : player)
  : chance_loop -> Z * Z -> chance_loop :=
  if is_maximizing_node then max_sample_step current_turn_player
  else min_sample_step current_turn_player.

(** The loop over the sampled rolls, started with the bounds the call
    received. *)
Definition chance_node_loop (is_maximizing_node : bool)
           (current_turn_player : player) (game_state : BackgammonGame)
           (alpha beta : float) (drawn : nat) (samples : list (Z * Z))
  : chance_loop :=
  fold_left (sample_step is_maximizing_node current_turn_player) samples
            (mkLoop game_state alpha beta 0%float O drawn).

Definition avg_score (st : chance_loop) : float :=
  if (0 <? cl_num st)%nat
  then (cl_accumulated st / float_of_nat (cl_num st))%float
  else 0%float.

End Node.

(** [get_minimax_score_sampled]; [depth] is a natural number, the
    callers passing [MAX_DEPTH - 1] and [depth - 1] above [0]. *)
Fixpoint get_minimax_score_sampled (depth : nat)
         (game_state : BackgammonGame)
         (current_turn_player maximizing_player : player)
         (alpha beta : float) (drawn : nat) : search_result :=
  let '(game_over, gs) := is_game_over game_state in
  if game_over then
    match winner gs with
    | Won p =>
        if player_eqb p maximizing_player then (infinity, gs, drawn)
        else (neg_infinity, gs, drawn)
    | ErrorState => (neg_infinity, gs, drawn)
    | NoWinner => (0%float, gs, drawn)
    end
  else
    match depth with
    | O =>
        let '(ph, gs1) := determine_game_phase gs in
        (evaluate_position_heuristic gs1 maximizing_player ph, gs1, drawn)
    | S depth' =>
        let is_maximizing_node :=
          player_eqb current_turn_player maximizing_player in
        let opponent_player := opponent current_turn_player in
        let '(sampled_dice_rolls, drawn1) := _get_random_dice_sample drawn in
        let st :=
          chance_node_loop
            (fun g a b n =>
               get_minimax_score_sampled depth' g opponent_player
                                         maximizing_player a b n)
            is_maximizing_node current_turn_player gs alpha beta drawn1
            sampled_dice_rolls in
        (avg_score st, cl_state st, cl_drawn st)
    end.

(** ** Move selection *)

(** The calls of [get_minimax_score_sampled] made by the loop of
    [select_ai_move_minimax], in order: each outcome's object as its
    call leaves it, its sequence and its score.  The calls do not
    depend on the running best score, so they are listed first and
    compared afterwards. *)
Fixpoint score_outcomes (ai_player : player) (outs : list outcome)
         (drawn : nat) : list (BackgammonGame * list move * float) * nat :=
  match outs with
  | [] => ([], drawn)
  | (next_state, sequence) :: rest =>
      let '(score_for_state, gs, drawn1) :=
        get_minimax_score_sampled (MAX_DEPTH - 1) next_state
                                  (opponent ai_player) ai_player
                                  neg_infinity infinity drawn in
      let '(scored, drawn2) := score_outcomes ai_player rest drawn1 in
      ((gs, sequence, score_for_state) :: scored, drawn2)
  end.

(** The comparisons of the loop: [best_score] and the optimal pair. *)
Definition pick_best (scored : list (BackgammonGame * list move * float))
  : float * option (BackgammonGame * list move) :=
  fold_left
    (fun (acc : float * option (BackgammonGame * list move)) o =>
       let '(gs, sequence, score_for_state) := o in
       if PrimFloat.ltb (fst acc) score_for_state
       then (score_for_state, Some (gs, sequence))
       else acc)
    scored (neg_infinity, None).

Definition select_ai_move_minimax (current_game_state : BackgammonGame)
           (dice_tuple : list Z) (ai_player : player) (drawn : nat)
  : list move * BackgammonGame * nat :=
  let possible_outcomes :=
    generate_possible_next_states_with_sequences
      current_game_state dice_tuple ai_player in
  if no_move_outcome possible_outcomes
  then ([], current_game_state, drawn)
  else
    let '(scored, drawn1) := score_outcomes ai_player possible_outcomes drawn in
    let '(optimal_resulting_state, optimal_sequence) :=
      match snd (pick_best scored) with
      | Some best => best
      | None =>
          match scored with
          | (gs, sequence, _) :: _ => (gs, sequence)
          | [] => (current_game_state, [])
          end
      end in
    (optimal_sequence,
     set_available_moves (set_dice optimal_resulting_state []) [],
     drawn1).

End Search.

(** The loop state of a chance node of [get_minimax_score_sampled] (a
    call at depth [S depth'] on a game that is not over) once the first
    [i] sampled rolls have been processed: its [cl_alpha] and [cl_beta]
    are the bounds with which the next sampled roll is searched. *)
Definition chance_node_after
           (evaluate_position_heuristic :
              BackgammonGame -> player -> phase -> float)
           (randint : nat -> Z) (i : nat) (depth' : nat)
           (game_state : BackgammonGame)
           (current_turn_player maximizing_player : player)
           (alpha beta : float) (drawn : nat) : chance_loop :=
  let '(sampled_dice_rolls, drawn1) :=
    _get_random_dice_sample randint drawn in
  chance_node_loop
    (fun g a b n =>
       get_minimax_score_sampled evaluate_position_heuristic randint depth' g
                                 (opponent current_turn_player)
                                 maximizing_player a b n)
    (player_eqb current_turn_player maximizing_player)
    current_turn_player game_state alpha beta drawn1
    (firstn i sampled_dice_rolls).

(** The [i]-th sampled roll of that node. *)
Definition sampled_roll (randint : nat -> Z) (drawn i : nat) : Z * Z :=
  nth i (fst (_get_random_dice_sample randint drawn)) (0, 0).

(** ** Vocabulary of the specification *)

(** The state invariants of the data model: 24 points, counts on the bar
    and borne off that are not negative. *)
Definition well_formed (gs : BackgammonGame) : Prop :=
  length (board gs) = 24%nat /\
  0 <= white_bar gs /\ 0 <= black_bar gs /\
  0 <= white_off gs /\ 0 <= black_off gs.

(** The player has at least one checker on the point. *)
Definition owns (pl : player) (gs : BackgammonGame) (pos : Z) : Prop :=
  point (board gs) pos * p_sign pl > 0.

(** The home quadrant: 19..24 for the player moving up, 1..6 for the
    other. *)
Definition in_home (pl : player) (pos : Z) : Prop :=
  match pl with
  | W => 19 <= pos <= 24
  | B => 1 <= pos <= 6
  end.

Definition all_in_home (pl : player) (gs : BackgammonGame) : Prop :=
  forall pos, 1 <= pos <= 24 -> owns pl gs pos -> in_home pl pos.

(** The exact distance from a point to "off". *)
Definition dist_to_off (pl : player) (pos : Z) : Z :=
  match pl with W => 25 - pos | B => pos end.

(** No checker of the player on a home point strictly farther from off
    than [pos]. *)
Definition no_checker_behind (pl : player) (gs : BackgammonGame) (pos : Z)
  : Prop :=
  forall q, in_home pl q -> dist_to_off pl q > dist_to_off pl pos ->
            ~ owns pl gs q.

(** The entry point of a die for a checker on the bar. *)
Definition entry_point_of (pl : player) (die : Z) : Z :=
  match pl with W => die | B => 25 - die end.

(** The number of opposing checkers on a point. *)
Definition opposing_checkers (pl : player) (gs : BackgammonGame) (pos : Z)
  : Z :=
  Z.max 0 (- (point (board gs) pos * p_sign pl)).

(** A die has a legal single move from the state. *)
Definition individually_playable (pl : player) (gs : BackgammonGame)
           (die : Z) : Prop :=
  _get_single_moves_for_die pl die gs <> [].

(** Playing [first] and then [second] is possible: some move of [first]
    applies and leaves a move for [second]. *)
Definition can_play_in_order (pl : player) (gs : BackgammonGame)
           (first second : Z) : Prop :=
  exists mv gs',
    In mv (_get_single_moves_for_die pl first gs) /\
    make_move_base_logic gs pl (fst mv) (snd mv) = (true, gs') /\
    individually_playable pl gs' second.

Definition some_order_plays_both (pl : player) (gs : BackgammonGame)
           (a b : Z) : Prop :=
  can_play_in_order pl gs a b \/ can_play_in_order pl gs b a.

(** The states the game's state-changing operations reach from the
    standard starting position. *)
Inductive reachable : BackgammonGame -> Prop :=
| reach_start : reachable initial_game
| reach_make_move (gs : BackgammonGame) (src dst : endpoint) :
    reachable gs ->
    In (src, dst) (get_legal_actions gs) ->
    reachable (snd (make_move gs src dst))
| reach_base_logic (gs : BackgammonGame) (pl : player) (die : Z)
                   (src dst : endpoint) :
    reachable gs ->
    In (src, dst) (_get_single_moves_for_die pl die gs) ->
    reachable (snd (make_move_base_logic gs pl src dst))
| reach_roll_dice (gs : BackgammonGame) (d1 d2 : Z) :
    reachable gs ->
    1 <= d1 <= 6 -> 1 <= d2 <= 6 ->
    reachable (roll_dice gs d1 d2)
| reach_switch_player (gs : BackgammonGame) :
    reachable gs ->
    reachable (switch_player gs).

(** The score part and the object part of a search result. *)
Definition score_of (r : search_result) : float := fst (fst r).
Definition state_of (r : search_result) : BackgammonGame := snd (fst r).

(** What the generator yields from one point when no checker is on the
    bar. *)
Definition moves_from_point (pl : player) (die_value : Z)
           (gs : BackgammonGame) (pos : Z) : list move :=
  if point (board gs) pos * p_sign pl >? 0 then
    let dest_point :=
      match pl with W => pos + die_value | B => pos - die_value end in
    if (1 <=? dest_point) && (dest_point <=? 24) then
      if is_allowed (point (board gs) dest_point) (p_sign pl)
      then [(Pt pos, Pt dest_point)] else []
    else if _check_all_pieces_home pl gs then
      if _can_bear_off pl pos die_value gs then [(Pt pos, Off)] else []
    else []
  else [].

(** A position in which everything is home and a six overshoots:
    fifteen checkers of the player moving up on point 24, the fifteen
    opposing checkers on point 1. *)
Definition overshoot_position : BackgammonGame :=
  mkGame [-15;0;0;0;0;0; 0;0;0;0;0;0; 0;0;0;0;0;0; 0;0;0;0;0;15]
         0 0 0 0 NoWinner W [] [] ENDGAME.

(** The two sums of [get_total_checker_count], and what one point
    contributes to each. *)
Definition w_board (b : list Z) : Z := sum_Z (filter (fun c => c >? 0) b).
Definition b_board (b : list Z) : Z :=
  sum_Z (map Z.abs (filter (fun c => c <? 0) b)).
Definition pos_part (c : Z) : Z := if c >? 0 then c else 0.
Definition neg_part (c : Z) : Z := if c <? 0 then Z.abs c else 0.

(** One colour's total: board, bar and off. *)
Definition total_of (pl : player) (gs : BackgammonGame) : Z :=
  match pl with
  | W => fst (get_total_checker_count gs)
  | B => snd (get_total_checker_count gs)
  end.

(** Checker conservation on a 24-point board. *)
Definition conserved (gs : BackgammonGame) : Prop :=
  length (board gs) = 24%nat /\ get_total_checker_count gs = (15, 15).

(** Two objects that hold the same checkers. *)
Definition same_checkers (g1 g2 : BackgammonGame) : Prop :=
  board g1 = board g2 /\
  white_bar g1 = white_bar g2 /\ black_bar g1 = black_bar g2 /\
  white_off g1 = white_off g2 /\ black_off g1 = black_off g2.

(** Every recorded outcome with an empty sequence holds the input state
    with the dice [dc]. *)
Definition noop_is_input (current_game_state : BackgammonGame)
           (dc : list Z) (d : outcomes_dict) : Prop :=
  forall k s sq, In (k, (s, sq)) d -> sq = [] ->
                 s = set_dice current_game_state dc.

(** A position one move from the end: the player moving up has borne off
    fourteen checkers and holds the last one on point 24; the fifteen
    opposing checkers stand on point 6. *)
Definition last_checker_position : BackgammonGame :=
  mkGame [0;0;0;0;0;-15; 0;0;0;0;0;0; 0;0;0;0;0;0; 0;0;0;0;0;1]
         0 0 14 0 NoWinner W [] [] ENDGAME.

(** The entry of the scored list that a call of
    [get_minimax_score_sampled] on an enumerated outcome produces: the
    call has the outcome's state as its object, the opponent of
    [ai_player] to move, [ai_player] maximizing, depth [MAX_DEPTH - 1] and
    the widest bounds. *)
Definition scored_from
           (evaluate_position_heuristic :
              BackgammonGame -> player -> phase -> float)
           (randint : nat -> Z) (ai_player : player) (o : outcome)
           (t : BackgammonGame * list move * float) : Prop :=
  exists drawn,
    let r := get_minimax_score_sampled evaluate_position_heuristic randint
                                       (MAX_DEPTH - 1) (fst o)
                                       (opponent ai_player) ai_player
                                       neg_infinity infinity drawn in
    t = (state_of r, snd o, score_of r).

(** The dice pool and the legal-move cache cleared, as
    [select_ai_move_minimax] does on the state it returns. *)
Definition turn_done (gs : BackgammonGame) : BackgammonGame :=
  set_available_moves (set_dice gs []) [].

(** Every recorded sequence is empty. *)
Definition all_seq_empty (d : outcomes_dict) : Prop :=
  forall k s sq, In (k, (s, sq)) d -> sq = [].


(** ** Vocabulary for the further properties *)

(** A checker of [pl] lifted from point [s]. *)
Definition lift (pl : player) (gs : BackgammonGame) (s : Z) : BackgammonGame :=
  set_board gs (set_point (board gs) s (point (board gs) s - p_sign pl)).

(** What playing a generated move amounts to: a checker leaves the bar or
    its point and lands, or is borne off. *)
Definition played (pl : player) (gs : BackgammonGame) (src dst : endpoint)
  : BackgammonGame :=
  match src, dst with
  | Bar, Pt e => land pl (set_bar pl gs (bar_of pl gs - 1)) e
  | Pt s, Off => set_off pl (lift pl gs s) (off_of pl gs + 1)
  | Pt s, Pt d => land pl (lift pl gs s) d
  | _, _ => gs
  end.

(** The fields that no move application writes, except as stated for
    each. *)
Definition same_turn_fields (a b : BackgammonGame) : Prop :=
  current_player a = current_player b /\ dice a = dice b /\
  winner a = winner b /\ available_moves a = available_moves b /\
  current_phase a = current_phase b.

(** A sequence of single moves played with the dice as the enumerator
    plays them: each move is one the generator gives, from the state it
    is played in, for a die that the forced-die resolver allows among the
    remaining dice; the simulation primitive accepts it, and the die
    leaves the (re-sorted) remaining dice.  [plays pl gs dr sq final dr']
    starts from [gs] with the dice [dr] and ends in [final] with the dice
    [dr'] left. *)
Inductive plays (pl : player)
  : BackgammonGame -> list Z -> list move -> BackgammonGame -> list Z -> Prop :=
| plays_nil (gs : BackgammonGame) (dr : list Z) : plays pl gs dr [] gs dr
| plays_cons (gs : BackgammonGame) (dr : list Z) (die : Z)
             (src dst : endpoint) (rest : list Z) (ns : BackgammonGame)
             (sq : list move) (final : BackgammonGame) (dr' : list Z) :
    In die (_get_strictly_playable_dice gs dr pl) ->
    In (src, dst) (_get_single_moves_for_die pl die gs) ->
    py_remove die dr = Some rest ->
    make_move_base_logic gs pl src dst = (true, ns) ->
    plays pl ns (sorted rest) sq final dr' ->
    plays pl gs dr ((src, dst) :: sq) final dr'.

(** The dict of outcomes is keyed by the position of the state it holds,
    each key once. *)
Definition keyed_by_position (d : outcomes_dict) : Prop :=
  NoDup (map fst d) /\
  forall k o, In (k, o) d -> k = board_tuple (fst o).

(** The winner field as [is_game_over] leaves it. *)
Definition winner_after_check (gs : BackgammonGame) : winner_t :=
  if white_off gs >=? 15 then Won W
  else if black_off gs >=? 15 then Won B
  else winner gs.

(** What a search call may have written on its object: [winner], by
    [is_game_over], and [current_phase]. *)
Definition searched (g gs : BackgammonGame) : Prop :=
  same_checkers g gs /\ current_player g = current_player gs /\
  dice g = dice gs /\ available_moves g = available_moves gs /\
  winner g = winner_after_check gs.

(** What the checkers on one point add to a player's pip count. *)
Definition pip_share (pl : player) (pos c : Z) : Z :=
  if c * p_sign pl >? 0 then dist_to_off pl pos * Z.abs c else 0.

(** A single opposing checker stands on the point: landing there hits
    it. *)
Definition hits (pl : player) (gs : BackgammonGame) (d : Z) : bool :=
  (point (board gs) d * p_sign pl <? 0) && (Z.abs (point (board gs) d) =? 1).

(** The states the main loop can hold: it starts from the standard
    position, rolls the dice, has the phase determined, applies a move the
    human player picked from the cache of legal moves, replaces the game
    by the state the move selection returns for the pool and the player
    to move, and switches the player.  The heuristic, the random source
    and its draw counter are arbitrary. *)
Inductive live : BackgammonGame -> Prop :=
| live_start : live initial_game
| live_roll (gs : BackgammonGame) (d1 d2 : Z) :
    live gs -> 1 <= d1 <= 6 -> 1 <= d2 <= 6 -> live (roll_dice gs d1 d2)
| live_phase (gs : BackgammonGame) :
    live gs -> live (snd (determine_game_phase gs))
| live_move (gs : BackgammonGame) (src dst : endpoint) :
    live gs -> In (src, dst) (available_moves gs) ->
    live (snd (make_move gs src dst))
| live_ai (gs : BackgammonGame)
          (heuristic : BackgammonGame -> player -> phase -> float)
          (randint : nat -> Z) (drawn : nat) :
    live gs ->
    live (snd (fst (select_ai_move_minimax heuristic randint gs (dice gs)
                                           (current_player gs) drawn)))
| live_switch (gs : BackgammonGame) :
    live gs -> live (switch_player gs).

(** A sequence played on the live game the way the main loop lets the
    human play: each move belongs to the legal moves of the state it is
    played in, and [make_move] applies it and returns [True]. *)
Inductive legal_line : BackgammonGame -> list move -> BackgammonGame -> Prop :=
| line_nil (gs : BackgammonGame) : legal_line gs [] gs
| line_cons (gs : BackgammonGame) (src dst : endpoint) (g1 : BackgammonGame)
            (sq : list move) (g : BackgammonGame) :
    In (src, dst) (get_legal_actions gs) ->
    make_move gs src dst = (true, g1) ->
    legal_line g1 sq g ->
    legal_line gs ((src, dst) :: sq) g.
(** * Properties *)

(** ** Lists, ranges and the board *)

Lemma in_range (x lo hi : Z) : In x (range lo hi) <-> lo <= x < hi.
Proof.
  unfold range. rewrite in_map_iff. split.
  - intros [k [Hk Hin]]. apply in_seq in Hin. lia.
  - intros H. exists (Z.to_nat (x - lo)). split; [lia|].
    apply in_seq. lia.
Qed.

Lemma forallb_range (f : Z -> bool) (lo hi : Z) :
  forallb f (range lo hi) = true <-> (forall x, lo <= x < hi -> f x = true).
Proof.
  rewrite forallb_forall. split; intros H x Hx; apply H; apply in_range; auto.
Qed.

Lemma set_nth_length (n : nat) (v : Z) (l : list Z) :
  length (set_nth n v l) = length l.
Proof.
  revert n; induction l as [|x t IH]; intros [|n]; simpl; auto.
Qed.

Lemma nth_set_nth (l : list Z) (n k : nat) (v : Z) :
  (n < length l)%nat ->
  nth k (set_nth n v l) 0 = if (k =? n)%nat then v else nth k l 0.
Proof.
  revert n k; induction l as [|x t IH]; intros n k Hn; simpl in Hn; [lia|].
  destruct n as [|n]; destruct k as [|k]; simpl; auto.
  apply IH; lia.
Qed.

Lemma point_set_point (b : list Z) (p q v : Z) :
  length b = 24%nat -> 1 <= p <= 24 -> 1 <= q <= 24 ->
  point (set_point b p v) q = if q =? p then v else point b q.
Proof.
  intros Hl Hp Hq. unfold point, set_point.
  rewrite nth_set_nth by lia.
  destruct (Z.eqb_spec q p) as [->|Hne].
  - now rewrite Nat.eqb_refl.
  - destruct (Nat.eqb_spec (Z.to_nat (q - 1)) (Z.to_nat (p - 1))); [lia|auto].
Qed.

(** ** Single-move generator *)

Lemma negb_gtb_true (a b : Z) : negb (a >? b) = true <-> a <= b.
Proof. destruct (Z.gtb_spec a b); simpl; split; try lia; discriminate. Qed.

Lemma check_all_pieces_home_spec (pl : player) (gs : BackgammonGame) :
  _check_all_pieces_home pl gs = true <->
  bar_of pl gs <= 0 /\ all_in_home pl gs.
Proof.
  unfold _check_all_pieces_home, all_in_home, owns, in_home.
  destruct (Z.gtb_spec (bar_of pl gs) 0) as [Hb|Hb].
  - split; [discriminate | lia].
  - destruct pl; rewrite forallb_range; split.
    + intros H; split; [lia|]. intros pos Hpos Hown.
      destruct (Z_lt_ge_dec pos 19) as [Hlt|]; [|lia].
      specialize (H pos ltac:(lia)).
      apply negb_gtb_true in H. lia.
    + intros [_ H] x Hx. apply negb_gtb_true.
      destruct (Z_le_gt_dec (point (board gs) x * p_sign W) 0) as [|Hg]; auto.
      specialize (H x ltac:(lia) Hg). lia.
    + intros H; split; [lia|]. intros pos Hpos Hown.
      destruct (Z_lt_ge_dec pos 7) as [Hlt|Hge]; [lia|].
      specialize (H pos ltac:(lia)).
      apply negb_gtb_true in H. lia.
    + intros [_ H] x Hx. apply negb_gtb_true.
      destruct (Z_le_gt_dec (point (board gs) x * p_sign B) 0) as [|Hg]; auto.
      specialize (H x ltac:(lia) Hg). lia.
Qed.

Lemma can_bear_off_spec (pl : player) (pos die : Z) (gs : BackgammonGame) :
  _can_bear_off pl pos die gs = true <->
  in_home pl pos /\
  (die = dist_to_off pl pos \/
   (die > dist_to_off pl pos /\ no_checker_behind pl gs pos)).
Proof.
  unfold no_checker_behind, _can_bear_off, in_home, dist_to_off, owns, p_sign.
  destruct pl; cbv beta iota zeta.
  - destruct (Z.leb_spec 19 pos); destruct (Z.leb_spec pos 24); cbn [andb negb];
      try (split; [discriminate | lia]).
    replace (Z.abs (25 - pos)) with (25 - pos) by lia.
    destruct (Z.eqb_spec die (25 - pos)) as [He|Hne].
    + split; [intros _; split; [lia | left; auto] | auto].
    + destruct (Z.gtb_spec (pos + die) 24); destruct (Z.gtb_spec die (25 - pos));
        cbn [andb negb]; try (split; [discriminate | lia]).
      rewrite forallb_range. split.
      * intros Hf. split; [lia|]. right. split; [lia|].
        intros q Hq Hd Hown. specialize (Hf q ltac:(lia)).
        apply negb_gtb_true in Hf. lia.
      * intros [_ [Hd|[_ Hb]]]; [lia|]. intros x Hx. apply negb_gtb_true.
        destruct (Z_le_gt_dec (point (board gs) x * 1) 0) as [|Hg]; auto.
        exfalso. apply (Hb x); lia.
  - destruct (Z.leb_spec 1 pos); destruct (Z.leb_spec pos 6); cbn [andb negb];
      try (split; [discriminate | lia]).
    replace (Z.abs (0 - pos)) with pos by lia.
    destruct (Z.eqb_spec die pos) as [He|Hne].
    + split; [intros _; split; [lia | left; auto] | auto].
    + destruct (Z.ltb_spec (pos - die) 1); destruct (Z.gtb_spec die pos);
        cbn [andb negb]; try (split; [discriminate | lia]).
      rewrite forallb_range. split.
      * intros Hf. split; [lia|]. right. split; [lia|].
        intros q Hq Hd Hown. specialize (Hf q ltac:(lia)).
        apply negb_gtb_true in Hf. lia.
      * intros [_ [Hd|[_ Hb]]]; [lia|]. intros x Hx. apply negb_gtb_true.
        destruct (Z_le_gt_dec (point (board gs) x * -1) 0) as [|Hg]; auto.
        exfalso. apply (Hb x); lia.
Qed.

Lemma single_moves_no_bar (pl : player) (die : Z) (gs : BackgammonGame) :
  bar_of pl gs <= 0 ->
  _get_single_moves_for_die pl die gs =
  flat_map (moves_from_point pl die gs) (range 1 25).
Proof.
  intros Hb. unfold _get_single_moves_for_die.
  destruct (Z.gtb_spec (bar_of pl gs) 0); [lia|]. reflexivity.
Qed.

Lemma in_moves_from_point (pl : player) (die : Z) (gs : BackgammonGame)
      (pos : Z) (m : move) :
  In m (moves_from_point pl die gs pos) ->
  fst m = Pt pos /\ owns pl gs pos.
Proof.
  unfold moves_from_point, owns.
  destruct (Z.gtb_spec (point (board gs) pos * p_sign pl) 0); [|intros []].
  repeat match goal with
         | |- In _ (if ?c then _ else _) -> _ => destruct c
         end; cbn [In]; intros Hin; try contradiction;
    destruct Hin as [<-|[]]; cbn [fst]; split; auto; lia.
Qed.

(** C5: a bear-off move from a point is generated exactly when the player
    has a checker there, all the player's checkers are in the home
    quadrant with an empty bar, and the die either equals the distance to
    off or exceeds it with no checker of the player on a home point
    farther from off. *)
Theorem bear_off_generated_iff (gs : BackgammonGame) (pl : player)
        (die pos : Z) :
  well_formed gs ->
  (In (Pt pos, Off) (_get_single_moves_for_die pl die gs) <->
   (1 <= pos <= 24 /\ owns pl gs pos /\
    all_in_home pl gs /\ bar_of pl gs = 0 /\
    (die = dist_to_off pl pos \/
     (die > dist_to_off pl pos /\ no_checker_behind pl gs pos)))).
Proof.
  intros Hwf.
  assert (Hbar : 0 <= bar_of pl gs)
    by (destruct Hwf as (_ & ? & ? & _); destruct pl; simpl; lia).
  destruct (Z_le_gt_dec (bar_of pl gs) 0) as [Hle|Hgt].
  - rewrite single_moves_no_bar by auto. rewrite in_flat_map. split.
    + intros [p [Hp Hin]]. apply in_range in Hp.
      pose proof (in_moves_from_point _ _ _ _ _ Hin) as [Hsrc Hown].
      cbn [fst] in Hsrc. injection Hsrc as ->.
      unfold moves_from_point in Hin.
      destruct (Z.gtb_spec (point (board gs) p * p_sign pl) 0); [|destruct Hin].
      destruct ((1 <=? _) && (_ <=? 24)) eqn:Hdest.
      * destruct (is_allowed _ _); [|destruct Hin].
        destruct Hin as [Heq|[]]; discriminate.
      * destruct (_check_all_pieces_home pl gs) eqn:Hhome; [|destruct Hin].
        destruct (_can_bear_off pl p die gs) eqn:Hcbo; [|destruct Hin].
        apply check_all_pieces_home_spec in Hhome.
        apply can_bear_off_spec in Hcbo.
        repeat split; try tauto; lia.
    + intros (Hpos & Hown & Hhome & Hb0 & Hdie).
      exists pos. split; [apply in_range; lia|].
      assert (Hin : in_home pl pos) by (apply Hhome; auto).
      unfold moves_from_point. unfold owns in Hown.
      destruct (Z.gtb_spec (point (board gs) pos * p_sign pl) 0); [|lia].
      assert (Hdest : (1 <=? match pl with W => pos + die | B => pos - die end)
                      && (match pl with W => pos + die | B => pos - die end
                          <=? 24) = false).
      { apply andb_false_iff. unfold in_home, dist_to_off in *.
        destruct pl; destruct Hdie as [->|[Hd _]];
          try (left; apply Z.leb_gt; lia); right; apply Z.leb_gt; lia. }
      rewrite Hdest.
      replace (_check_all_pieces_home pl gs) with true
        by (symmetry; apply check_all_pieces_home_spec; split; [lia|auto]).
      replace (_can_bear_off pl pos die gs) with true
        by (symmetry; apply can_bear_off_spec; split; auto).
      left; reflexivity.
  - split.
    + unfold _get_single_moves_for_die.
      destruct (Z.gtb_spec (bar_of pl gs) 0); [|lia].
      repeat match goal with
             | |- In _ (if ?c then _ else _) -> _ => destruct c
             end; cbn [In]; intros Hin; try contradiction.
      destruct Hin as [Heq|[]]; discriminate.
    + intros (_ & _ & _ & Hb0 & _). lia.
Qed.

Lemma bear_off_generated_iff_witness :
  In (Pt 24, Off) (_get_single_moves_for_die W 6 overshoot_position) <->
  (1 <= 24 <= 24 /\ owns W overshoot_position 24 /\
   all_in_home W overshoot_position /\ bar_of W overshoot_position = 0 /\
   (6 = dist_to_off W 24 \/
    (6 > dist_to_off W 24 /\ no_checker_behind W overshoot_position 24))).
Proof.
  apply bear_off_generated_iff.
  unfold well_formed; simpl; repeat split; lia.
Defined.

Lemma is_allowed_opposing (pl : player) (gs : BackgammonGame) (pos : Z) :
  is_allowed (point (board gs) pos) (p_sign pl) = true <->
  opposing_checkers pl gs pos <= 1.
Proof.
  unfold is_allowed, opposing_checkers.
  rewrite orb_true_iff, Z.geb_le, Z.eqb_eq.
  destruct pl; unfold p_sign; lia.
Qed.

(** C6: with a checker on the bar the generator yields nothing but the
    entry move of the die, and that one exactly when at most one opposing
    checker holds the entry point. *)
Theorem bar_entry_only (gs : BackgammonGame) (pl : player) (die : Z) :
  well_formed gs ->
  0 < bar_of pl gs ->
  1 <= die <= 6 ->
  let moves := _get_single_moves_for_die pl die gs in
  let e := entry_point_of pl die in
  (forall m, In m moves -> m = (Bar, Pt e)) /\
  (In (Bar, Pt e) moves <-> opposing_checkers pl gs e <= 1) /\
  (length moves <= 1)%nat /\
  (forall src, ~ In (Pt src, Off) moves) /\
  (forall src dst, ~ In (Pt src, dst) moves).
Proof.
  intros Hwf Hbar Hdie; cbv zeta.
  unfold _get_single_moves_for_die.
  destruct (Z.gtb_spec (bar_of pl gs) 0); [|lia].
  fold (entry_point_of pl die).
  assert (He : (1 <=? entry_point_of pl die) && (entry_point_of pl die <=? 24)
               = true).
  { apply andb_true_iff. rewrite !Z.leb_le.
    unfold entry_point_of; destruct pl; lia. }
  rewrite He.
  pose proof (is_allowed_opposing pl gs (entry_point_of pl die)) as Hal.
  destruct (is_allowed _ _); cbn [In length];
    (split; [|split; [|split; [|split]]]).
  - intros m [Hm|[]]; symmetry; exact Hm.
  - split; [intros _; apply Hal; reflexivity | intros _; left; reflexivity].
  - lia.
  - intros src [Heq|[]]; discriminate.
  - intros src dst [Heq|[]]; discriminate.
  - intros m [].
  - split; [intros [] | intros Hle; apply Hal in Hle; discriminate].
  - lia.
  - intros src [].
  - intros src dst [].
Qed.

(** A position with a checker of the player moving up on the bar. *)
Lemma bar_entry_only_witness :
  let gs := mkGame [ 2; 0; 0; 0; 0; -5; 0; -3; 0; 0; 0; 4;
                     -5; 0; 0; 0; 3; 0; 5; 0; 0; 0; 0; -2 ]
                   1 0 0 0 NoWinner W [] [] OPENING in
  let moves := _get_single_moves_for_die W 6 gs in
  (forall m, In m moves -> m = (Bar, Pt (entry_point_of W 6))) /\
  (In (Bar, Pt (entry_point_of W 6)) moves <->
   opposing_checkers W gs (entry_point_of W 6) <= 1) /\
  (length moves <= 1)%nat /\
  (forall src, ~ In (Pt src, Off) moves) /\
  (forall src dst, ~ In (Pt src, dst) moves).
Proof.
  apply bar_entry_only.
  - unfold well_formed; simpl; repeat split; lia.
  - simpl; lia.
  - lia.
Defined.

(** ** Forced-die resolver *)

Lemma nonempty_true {A : Type} (l : list A) : nonempty l = true <-> l <> [].
Proof. destruct l; simpl; split; congruence. Qed.

Lemma plays_then_spec (gs : BackgammonGame) (pl : player) (x y : Z) :
  plays_then gs pl x y = true <-> can_play_in_order pl gs x y.
Proof.
  unfold plays_then, can_play_in_order, individually_playable, copy.
  rewrite existsb_exists. split.
  - intros [mv [Hin H]].
    destruct (make_move_base_logic gs pl (fst mv) (snd mv)) as [ok g'] eqn:E.
    apply andb_true_iff in H as [-> Hne].
    exists mv, g'. repeat split; auto. now apply nonempty_true.
  - intros (mv & g' & Hin & E & Hne).
    exists mv. split; auto. rewrite E. simpl. now apply nonempty_true.
Qed.

Lemma sorted_set_desc_pair (a b : Z) :
  a <> b -> sorted_set_desc [a; b] = [Z.max a b; Z.min a b].
Proof.
  intros Hne. unfold sorted_set_desc. cbn [fold_right insert_desc_unique].
  destruct (Z.eqb_spec a b); [contradiction|].
  destruct (Z.gtb_spec a b); f_equal; try f_equal; lia.
Qed.

(** C2: the forced-die resolver on a non-double roll. *)
Theorem strictly_playable_non_double (gs : BackgammonGame) (pl : player)
        (a b : Z) :
  a <> b ->
  let r := _get_strictly_playable_dice gs [a; b] pl in
  (individually_playable pl gs a -> ~ individually_playable pl gs b ->
   r = [a]) /\
  (~ individually_playable pl gs a -> individually_playable pl gs b ->
   r = [b]) /\
  (~ individually_playable pl gs a -> ~ individually_playable pl gs b ->
   r = []) /\
  (individually_playable pl gs a -> individually_playable pl gs b ->
   some_order_plays_both pl gs a b -> r = [Z.max a b; Z.min a b]) /\
  (individually_playable pl gs a -> individually_playable pl gs b ->
   ~ some_order_plays_both pl gs a b -> r = [Z.max a b]).
Proof.
  intros Hne r. subst r. unfold _get_strictly_playable_dice.
  rewrite sorted_set_desc_pair by auto.
  destruct (Z.eqb_spec a b) as [|_]; [contradiction|]. cbn [negb].
  assert (Hmm : Z.max a b <> Z.min a b) by lia.
  assert (Hpa : forall d, nonempty (_get_single_moves_for_die pl d gs) = true
                          <-> individually_playable pl gs d)
    by (intros d; apply nonempty_true).
  assert (Hord : plays_then gs pl (Z.max a b) (Z.min a b)
                 || plays_then gs pl (Z.min a b) (Z.max a b) = true
                 <-> some_order_plays_both pl gs a b).
  { rewrite orb_true_iff, !plays_then_spec. unfold some_order_plays_both.
    destruct (Z.max_spec a b) as [[? ->]|[? ->]];
      destruct (Z.min_spec a b) as [[? ->]|[? ->]]; try lia; tauto. }
  assert (Hdec : (plays_then gs pl (Z.max a b) (Z.min a b)
                  || plays_then gs pl (Z.min a b) (Z.max a b) = true
                  /\ some_order_plays_both pl gs a b)
                 \/ (plays_then gs pl (Z.max a b) (Z.min a b)
                     || plays_then gs pl (Z.min a b) (Z.max a b) = false
                     /\ ~ some_order_plays_both pl gs a b)).
  { destruct (plays_then gs pl (Z.max a b) (Z.min a b)
              || plays_then gs pl (Z.min a b) (Z.max a b)).
    - left; split; auto; apply Hord; auto.
    - right; split; auto; intros H; apply Hord in H; discriminate. }
  clear Hord.
  assert (Hga : Z.max a b = a /\ Z.min a b = b \/ Z.max a b = b /\ Z.min a b = a)
    by lia.
  assert (Hpg : (nonempty (_get_single_moves_for_die pl (Z.max a b) gs) = true
                 /\ individually_playable pl gs (Z.max a b))
                \/ (nonempty (_get_single_moves_for_die pl (Z.max a b) gs) = false
                    /\ ~ individually_playable pl gs (Z.max a b))).
  { destruct (nonempty (_get_single_moves_for_die pl (Z.max a b) gs)) eqn:E; [left|right]; split; auto.
    - apply Hpa; exact E.
    - intros H; apply Hpa in H; congruence. }
  assert (Hps : (nonempty (_get_single_moves_for_die pl (Z.min a b) gs) = true
                 /\ individually_playable pl gs (Z.min a b))
                \/ (nonempty (_get_single_moves_for_die pl (Z.min a b) gs) = false
                    /\ ~ individually_playable pl gs (Z.min a b))).
  { destruct (nonempty (_get_single_moves_for_die pl (Z.min a b) gs)) eqn:E; [left|right]; split; auto.
    - apply Hpa; exact E.
    - intros H; apply Hpa in H; congruence. }
  clear Hpa. cbn [filter].
  destruct Hpg as [[-> Hg]|[-> Hg]]; destruct Hps as [[-> Hs]|[-> Hs]];
    cbn [mem_Z existsb andb orb negb]; rewrite ?Z.eqb_refl;
    cbn [andb orb negb];
    repeat match goal with
           | |- context [Z.max a b =? Z.min a b] =>
               destruct (Z.eqb_spec (Z.max a b) (Z.min a b)); [lia|]
           | |- context [Z.min a b =? Z.max a b] =>
               destruct (Z.eqb_spec (Z.min a b) (Z.max a b)); [lia|]
           end; cbn [andb orb negb].
  1: destruct Hdec as [[-> Ho]|[-> Ho]]; cbn [andb orb negb].
  all: destruct Hga as [[Emax Emin]|[Emax Emin]];
    rewrite Emax, Emin in *; repeat split; intros; try reflexivity; tauto.
Qed.

Lemma strictly_playable_non_double_witness :
  let r := _get_strictly_playable_dice initial_game [6; 5] W in
  (individually_playable W initial_game 6 ->
   ~ individually_playable W initial_game 5 -> r = [6]) /\
  (~ individually_playable W initial_game 6 ->
   individually_playable W initial_game 5 -> r = [5]) /\
  (~ individually_playable W initial_game 6 ->
   ~ individually_playable W initial_game 5 -> r = []) /\
  (individually_playable W initial_game 6 ->
   individually_playable W initial_game 5 ->
   some_order_plays_both W initial_game 6 5 -> r = [Z.max 6 5; Z.min 6 5]) /\
  (individually_playable W initial_game 6 ->
   individually_playable W initial_game 5 ->
   ~ some_order_plays_both W initial_game 6 5 -> r = [Z.max 6 5]).
Proof.
  apply (strictly_playable_non_double initial_game W 6 5). lia.
Defined.

(** A position where the five is blocked and the two is not: fifteen
    checkers on point 1, point 6 held by two opposing checkers.  The
    resolver returns the two alone. *)
Example forced_die_five_blocked :
  let gs := mkGame [ 15; 0; 0; 0; 0; -2; 0; 0; 0; 0; 0; 0;
                     0; 0; 0; 0; 0; 0; 0; 0; 0; 0; 0; -13 ]
                   0 0 0 0 NoWinner W [5; 2] [] MIDGAME in
  _get_single_moves_for_die W 5 gs = [] /\
  _get_single_moves_for_die W 2 gs = [(Pt 1, Pt 3)] /\
  _get_strictly_playable_dice gs [5; 2] W = [2].
Proof. vm_compute. repeat split. Qed.

(** ** Checker conservation *)

Ltac proj_simpl :=
  cbn [board white_bar black_bar white_off black_off winner current_player
       dice available_moves current_phase set_board set_bar set_off
       set_winner set_dice set_available_moves set_current_phase
       set_current_player bar_of off_of opponent fst snd] in *.

Lemma sum_Z_cons (x : Z) (l : list Z) : sum_Z (x :: l) = x + sum_Z l.
Proof. reflexivity. Qed.

Lemma w_board_set_nth (l : list Z) (n : nat) (v : Z) :
  (n < length l)%nat ->
  w_board (set_nth n v l) = w_board l - pos_part (nth n l 0) + pos_part v.
Proof.
  unfold w_board, pos_part.
  revert n; induction l as [|x t IH]; intros n Hn; cbn [length] in Hn; [lia|].
  destruct n as [|n]; cbn [set_nth nth filter].
  - destruct (v >? 0); destruct (x >? 0); rewrite ?sum_Z_cons; lia.
  - specialize (IH n ltac:(lia)).
    destruct (x >? 0); rewrite ?sum_Z_cons, IH; lia.
Qed.

Lemma b_board_set_nth (l : list Z) (n : nat) (v : Z) :
  (n < length l)%nat ->
  b_board (set_nth n v l) = b_board l - neg_part (nth n l 0) + neg_part v.
Proof.
  unfold b_board, neg_part.
  revert n; induction l as [|x t IH]; intros n Hn; cbn [length] in Hn; [lia|].
  destruct n as [|n]; cbn [set_nth nth filter].
  - destruct (v <? 0); destruct (x <? 0); cbn [map]; rewrite ?sum_Z_cons; lia.
  - specialize (IH n ltac:(lia)).
    destruct (x <? 0); cbn [map]; rewrite ?sum_Z_cons, IH; lia.
Qed.

Lemma total_of_unfold (pl : player) (gs : BackgammonGame) :
  total_of pl gs =
  match pl with
  | W => w_board (board gs) + white_bar gs + white_off gs
  | B => b_board (board gs) + black_bar gs + black_off gs
  end.
Proof. destruct pl; reflexivity. Qed.

Lemma totals_eq (g1 g2 : BackgammonGame) :
  total_of W g1 = total_of W g2 -> total_of B g1 = total_of B g2 ->
  get_total_checker_count g1 = get_total_checker_count g2.
Proof.
  unfold total_of. destruct (get_total_checker_count g1),
                            (get_total_checker_count g2).
  cbn [fst snd]. congruence.
Qed.

(** Storing [v] on a point moves the two totals by what the point held
    and what it holds now. *)
Lemma total_set_point (pl : player) (gs : BackgammonGame) (p v : Z) :
  length (board gs) = 24%nat -> 1 <= p <= 24 ->
  total_of pl (set_board gs (set_point (board gs) p v)) =
  total_of pl gs
  + match pl with
    | W => pos_part v - pos_part (point (board gs) p)
    | B => neg_part v - neg_part (point (board gs) p)
    end.
Proof.
  intros Hl Hp. rewrite !total_of_unfold. unfold set_point, point.
  destruct pl; proj_simpl.
  - rewrite w_board_set_nth by lia. lia.
  - rewrite b_board_set_nth by lia. lia.
Qed.

Lemma total_set_bar (pl q : player) (gs : BackgammonGame) (v : Z) :
  total_of pl (set_bar q gs v) =
  total_of pl gs + (if player_eqb pl q then v - bar_of q gs else 0).
Proof. rewrite !total_of_unfold. destruct pl, q; proj_simpl; simpl; lia. Qed.

Lemma total_set_off (pl q : player) (gs : BackgammonGame) (v : Z) :
  total_of pl (set_off q gs v) =
  total_of pl gs + (if player_eqb pl q then v - off_of q gs else 0).
Proof. rewrite !total_of_unfold. destruct pl, q; proj_simpl; simpl; lia. Qed.

(** Lifting a checker of [pl] from its point. *)
Lemma total_lift (pl q : player) (gs : BackgammonGame) (s : Z) :
  length (board gs) = 24%nat -> 1 <= s <= 24 -> owns pl gs s ->
  total_of q (set_board gs (set_point (board gs) s
                                      (point (board gs) s - p_sign pl))) =
  total_of q gs - (if player_eqb q pl then 1 else 0).
Proof.
  intros Hl Hs Hown. rewrite total_set_point by auto.
  unfold owns in Hown. unfold pos_part, neg_part.
  destruct pl, q; unfold p_sign in *; cbn [player_eqb];
    repeat match goal with
           | |- context [?a >? ?b] => destruct (Z.gtb_spec a b)
           | |- context [?a <? ?b] => destruct (Z.ltb_spec a b)
           end; lia.
Qed.

Lemma board_set_bar (q : player) (gs : BackgammonGame) (v : Z) :
  board (set_bar q gs v) = board gs.
Proof. destruct q; reflexivity. Qed.

Lemma set_board_set_bar (q : player) (gs : BackgammonGame) (v : Z)
      (b : list Z) :
  set_board (set_bar q gs v) b = set_bar q (set_board gs b) v.
Proof. destruct q; reflexivity. Qed.

Lemma bar_of_set_board (q : player) (gs : BackgammonGame) (b : list Z) :
  bar_of q (set_board gs b) = bar_of q gs.
Proof. destruct q; reflexivity. Qed.

(** Landing a checker of [pl] on a point that is not blocked. *)
Lemma total_land (pl q : player) (gs : BackgammonGame) (d : Z) :
  length (board gs) = 24%nat -> 1 <= d <= 24 ->
  (point (board gs) d * p_sign pl <? 0) && (Z.abs (point (board gs) d) >=? 2)
  = false ->
  total_of q (land pl gs d) =
  total_of q gs + (if player_eqb q pl then 1 else 0).
Proof.
  intros Hl Hd Hnb. unfold land.
  destruct (Z.ltb_spec (point (board gs) d * p_sign pl) 0) as [Hneg|Hpos];
    cbn [andb] in *.
  - rewrite Z.geb_leb in Hnb. apply Z.leb_gt in Hnb.
    destruct (Z.eqb_spec (Z.abs (point (board gs) d)) 1) as [Habs|Habs].
    + rewrite board_set_bar, set_board_set_bar.
      rewrite total_set_bar, total_set_point, bar_of_set_board by auto.
      unfold pos_part, neg_part.
      destruct pl, q; unfold p_sign in *; proj_simpl; cbn [player_eqb];
        repeat match goal with
               | |- context [?a >? ?b] => destruct (Z.gtb_spec a b)
               | |- context [?a <? ?b] => destruct (Z.ltb_spec a b)
               end; lia.
    + destruct pl; unfold p_sign in *; lia.
  - rewrite total_set_point by auto. unfold pos_part, neg_part.
    destruct pl, q; unfold p_sign in *; cbn [player_eqb];
      repeat match goal with
             | |- context [?a >? ?b] => destruct (Z.gtb_spec a b)
             | |- context [?a <? ?b] => destruct (Z.ltb_spec a b)
             end; lia.
Qed.

Lemma land_length (pl : player) (gs : BackgammonGame) (d : Z) :
  length (board (land pl gs d)) = length (board gs).
Proof.
  unfold land.
  destruct ((point (board gs) d * p_sign pl <? 0)
            && (Z.abs (point (board gs) d) =? 1));
    rewrite ?board_set_bar; proj_simpl; rewrite ?board_set_bar;
    unfold set_point; apply set_nth_length.
Qed.

Lemma allowed_not_blocked (c sg : Z) :
  is_allowed c sg = true -> (c * sg <? 0) && (Z.abs c >=? 2) = false.
Proof.
  unfold is_allowed. rewrite orb_true_iff, Z.geb_le, Z.eqb_eq.
  intros H. apply andb_false_iff.
  destruct (Z.ltb_spec (c * sg) 0); [right|left; reflexivity].
  rewrite Z.geb_leb. apply Z.leb_gt. lia.
Qed.

(** The shapes of a generated move. *)
Lemma generated_move_cases (pl : player) (die : Z) (gs : BackgammonGame)
      (src dst : endpoint) :
  In (src, dst) (_get_single_moves_for_die pl die gs) ->
  (src = Bar /\ bar_of pl gs > 0 /\
   exists e, dst = Pt e /\ 1 <= e <= 24 /\
             is_allowed (point (board gs) e) (p_sign pl) = true) \/
  (exists s, src = Pt s /\ 1 <= s <= 24 /\ owns pl gs s /\
             (dst = Off \/
              exists d, dst = Pt d /\ 1 <= d <= 24 /\
                        is_allowed (point (board gs) d) (p_sign pl) = true)).
Proof.
  destruct (Z_le_gt_dec (bar_of pl gs) 0) as [Hle|Hgt].
  - rewrite single_moves_no_bar by auto. rewrite in_flat_map.
    intros [p [Hp Hin]]. apply in_range in Hp. right. exists p.
    pose proof (in_moves_from_point _ _ _ _ _ Hin) as [Hsrc Hown].
    cbn [fst] in Hsrc. split; [auto|]. split; [lia|]. split; [auto|].
    unfold moves_from_point in Hin.
    destruct (point (board gs) p * p_sign pl >? 0); [|destruct Hin].
    set (dest := match pl with W => p + die | B => p - die end) in *.
    destruct (Z.leb_spec 1 dest); destruct (Z.leb_spec dest 24);
      cbn [andb] in Hin.
    + destruct (is_allowed (point (board gs) dest) (p_sign pl)) eqn:Hal;
        [|destruct Hin].
      destruct Hin as [Heq|[]]. injection Heq as _ <-.
      right. exists dest. repeat split; auto; lia.
    + destruct (_check_all_pieces_home pl gs); [|destruct Hin].
      destruct (_can_bear_off pl p die gs); [|destruct Hin].
      destruct Hin as [Heq|[]]. injection Heq as _ <-. left; reflexivity.
    + destruct (_check_all_pieces_home pl gs); [|destruct Hin].
      destruct (_can_bear_off pl p die gs); [|destruct Hin].
      destruct Hin as [Heq|[]]. injection Heq as _ <-. left; reflexivity.
    + destruct (_check_all_pieces_home pl gs); [|destruct Hin].
      destruct (_can_bear_off pl p die gs); [|destruct Hin].
      destruct Hin as [Heq|[]]. injection Heq as _ <-. left; reflexivity.
  - unfold _get_single_moves_for_die.
    destruct (Z.gtb_spec (bar_of pl gs) 0); [|lia].
    set (e := match pl with W => die | B => 25 - die end).
    destruct (Z.leb_spec 1 e); destruct (Z.leb_spec e 24); cbn [andb];
      try (intros []).
    destruct (is_allowed (point (board gs) e) (p_sign pl)) eqn:Hal;
      [|intros []].
    intros [Heq|[]]. injection Heq as <- <-.
    left. split; [reflexivity|]. split; [lia|].
    exists e. repeat split; auto; lia.
Qed.

Lemma lifted_not_blocked (pl : player) (gs : BackgammonGame) (s d : Z) :
  length (board gs) = 24%nat -> 1 <= s <= 24 -> 1 <= d <= 24 ->
  owns pl gs s ->
  is_allowed (point (board gs) d) (p_sign pl) = true ->
  let b1 := set_point (board gs) s (point (board gs) s - p_sign pl) in
  (point b1 d * p_sign pl <? 0) && (Z.abs (point b1 d) >=? 2) = false.
Proof.
  intros Hl Hs Hd Hown Hal b1. subst b1.
  rewrite point_set_point by auto.
  destruct (Z.eqb_spec d s) as [->|Hne].
  - unfold owns in Hown. apply andb_false_iff. left. apply Z.ltb_ge.
    destruct pl; unfold p_sign in *; lia.
  - now apply allowed_not_blocked.
Qed.

(** A generated move is applied by [make_move_base_logic] and keeps both
    totals and the board size. *)
Lemma base_logic_generated (gs : BackgammonGame) (pl : player) (die : Z)
      (src dst : endpoint) :
  length (board gs) = 24%nat ->
  In (src, dst) (_get_single_moves_for_die pl die gs) ->
  let r := make_move_base_logic gs pl src dst in
  fst r = true /\
  length (board (snd r)) = 24%nat /\
  forall q, total_of q (snd r) = total_of q gs.
Proof.
  intros Hl Hin r. subst r.
  apply generated_move_cases in Hin.
  destruct Hin as [(-> & Hbar & e & -> & He & Hal)
                  |(s & -> & Hs & Hown & [->|(d & -> & Hd & Hal)])];
    unfold make_move_base_logic.
  - destruct (Z.gtb_spec (bar_of pl gs) 0); [|lia].
    destruct (Z.leb_spec 1 e); destruct (Z.leb_spec e 24); try lia.
    cbn [andb]. rewrite board_set_bar.
    rewrite allowed_not_blocked by auto. cbn [fst snd].
    split; [reflexivity|]. split.
    + rewrite land_length, board_set_bar. auto.
    + intros q. rewrite total_land, total_set_bar;
        rewrite ?board_set_bar; auto using allowed_not_blocked.
      destruct (player_eqb q pl) eqn:E.
      * replace (player_eqb q pl) with true in *. lia.
      * lia.
  - destruct (Z.leb_spec 1 s); destruct (Z.leb_spec s 24); try lia.
    cbn [andb]. unfold owns in Hown.
    destruct (Z.leb_spec (point (board gs) s * p_sign pl) 0); [lia|].
    cbn [fst snd]. split; [reflexivity|]. split.
    + destruct pl; proj_simpl; unfold set_point; rewrite set_nth_length; auto.
    + intros q. rewrite total_set_off.
      assert (Hoff : off_of pl (set_board gs
                (set_point (board gs) s (point (board gs) s - p_sign pl)))
                     = off_of pl gs) by (destruct pl; reflexivity).
      rewrite Hoff, total_lift by auto.
      destruct (player_eqb q pl); lia.
  - destruct (Z.leb_spec 1 s); destruct (Z.leb_spec s 24); try lia.
    cbn [andb]. pose proof Hown as Hown'. unfold owns in Hown'.
    destruct (Z.leb_spec (point (board gs) s * p_sign pl) 0); [lia|].
    destruct (Z.leb_spec 1 d); destruct (Z.leb_spec d 24); try lia.
    cbn [andb]. proj_simpl.
    rewrite (lifted_not_blocked pl gs s d) by auto.
    cbn [fst snd]. split; [reflexivity|]. split.
    + rewrite land_length. proj_simpl. unfold set_point.
      rewrite set_nth_length; auto.
    + intros q. rewrite total_land; proj_simpl;
        try (unfold set_point; rewrite set_nth_length; auto);
        try lia.
      * fold (set_point (board gs) s (point (board gs) s - p_sign pl)).
        rewrite total_lift by auto. destruct (player_eqb q pl); lia.
      * fold (set_point (board gs) s (point (board gs) s - p_sign pl)).
        apply lifted_not_blocked; auto.
Qed.

Lemma same_checkers_conserved (g1 g2 : BackgammonGame) :
  same_checkers g1 g2 -> conserved g2 -> conserved g1.
Proof.
  intros (Hb & Hwb & Hbb & Hwo & Hbo) [Hl Ht]. unfold conserved.
  unfold get_total_checker_count in *.
  rewrite Hb, Hwb, Hbb, Hwo, Hbo. auto.
Qed.

Lemma totals_conserved (g1 g2 : BackgammonGame) :
  length (board g1) = 24%nat ->
  (forall q, total_of q g1 = total_of q g2) ->
  conserved g2 -> conserved g1.
Proof.
  intros Hl Ht [_ H2]. split; auto.
  rewrite <- H2. apply totals_eq; apply Ht.
Qed.

Lemma in_dedup_moves (m : move) (l : list move) :
  In m (dedup_moves l) -> In m l.
Proof.
  induction l as [|x t IH]; cbn [dedup_moves]; auto.
  destruct (existsb (move_eqb x) (dedup_moves t)); cbn [In]; tauto.
Qed.

Lemma legal_action_generated (gs : BackgammonGame) (m : move) :
  In m (get_legal_actions gs) ->
  exists die, In m (_get_single_moves_for_die (current_player gs) die gs).
Proof.
  unfold get_legal_actions. destruct (dice gs); [intros []|].
  intros H. apply in_dedup_moves in H. apply in_flat_map in H.
  destruct H as [die [_ H]]. exists die; exact H.
Qed.

Lemma py_index_point (l : list Z) (p : Z) :
  length l = 24%nat -> 1 <= p <= 24 ->
  py_index l (p - 1) = Some (Z.to_nat (p - 1)).
Proof.
  intros Hl Hp. unfold py_index. rewrite Hl.
  destruct (Z.leb_spec 0 (p - 1)); [|lia].
  destruct (Z.ltb_spec (p - 1) (Z.of_nat 24)); [reflexivity|lia].
Qed.

Lemma set_nth_twice (l : list Z) (n : nat) (u v : Z) :
  set_nth n v (set_nth n u l) = set_nth n v l.
Proof.
  revert n; induction l as [|x t IH]; intros [|n]; cbn [set_nth]; auto.
  now rewrite IH.
Qed.

(** The [try] block of [make_move] on a generated move either raises or
    leaves an object with both totals unchanged. *)
Lemma make_move_try_generated (gs : BackgammonGame) (die die' : Z)
      (src dst : endpoint) (g : BackgammonGame) :
  length (board gs) = 24%nat ->
  In (src, dst) (_get_single_moves_for_die (current_player gs) die gs) ->
  make_move_try gs src dst die' = Done g ->
  length (board g) = 24%nat /\ forall q, total_of q g = total_of q gs.
Proof.
  intros Hl Hin. remember (current_player gs) as pl eqn:Hpl.
  apply generated_move_cases in Hin.
  assert (Hdice : forall g0 g1,
             match py_remove die' (dice g0) with
             | Some d' => Done (set_dice g0 d')
             | None => Raised g0
             end = Done g1 ->
             board g1 = board g0 /\ forall q, total_of q g1 = total_of q g0).
  { intros g0 g1. destruct (py_remove die' (dice g0)); [|discriminate].
    intros [= <-]. split; [reflexivity|]. intros []; reflexivity. }
  assert (Hland : forall g0 d,
             length (board g0) = 24%nat -> 1 <= d <= 24 ->
             (point (board g0) d * p_sign pl <? 0)
             && (Z.abs (point (board g0) d) >=? 2) = false ->
             match py_index (board g0) (d - 1) with
             | Some i =>
                 let dest_count := nth i (board g0) 0 in
                 if dest_count * p_sign pl <? 0 then
                   if Z.abs dest_count =? 1 then
                     let gs2 := set_board g0 (set_nth i 0 (board g0)) in
                     let gs3 :=
                       set_bar (opponent pl) gs2
                               (bar_of (opponent pl) gs2 + 1) in
                     Done (set_board gs3 (set_nth i (p_sign pl) (board gs3)))
                   else Raised g0
                 else
                   Done (set_board g0 (set_nth i (dest_count + p_sign pl)
                                               (board g0)))
             | None => Raised g0
             end = Done (land pl g0 d)).
  { intros g0 d Hl0 Hd Hnb. rewrite py_index_point by auto.
    cbv zeta. fold (point (board g0) d). unfold land.
    destruct (Z.ltb_spec (point (board g0) d * p_sign pl) 0); cbn [andb] in *.
    - rewrite Z.geb_leb in Hnb. apply Z.leb_gt in Hnb.
      assert (Hnz : point (board g0) d <> 0)
        by (intros E; rewrite E, Z.mul_0_l in *; lia).
      destruct (Z.eqb_spec (Z.abs (point (board g0) d)) 1); [|lia].
      f_equal. rewrite !board_set_bar. proj_simpl.
      rewrite set_nth_twice. unfold set_point.
      destruct pl; reflexivity.
    - reflexivity. }
  unfold make_move_try. rewrite <- Hpl.
  destruct Hin as [(-> & Hbar & e & -> & He & Hal)
                  |(s & -> & Hs & Hown & [->|(d & -> & Hd & Hal)])].
  - rewrite Hland;
      rewrite ?board_set_bar; auto using allowed_not_blocked.
    intros H. apply Hdice in H. destruct H as [Hb Ht].
    rewrite Hb, land_length, board_set_bar. split; auto.
    intros q. rewrite Ht, total_land, total_set_bar;
      rewrite ?board_set_bar; auto using allowed_not_blocked.
    destruct (player_eqb q pl); lia.
  - rewrite py_index_point by auto.
    fold (point (board gs) s).
    fold (set_point (board gs) s (point (board gs) s - p_sign pl)).
    intros H. apply Hdice in H. destruct H as [Hb Ht].
    split.
    + rewrite Hb. destruct pl; proj_simpl; unfold set_point;
        rewrite set_nth_length; auto.
    + intros q. rewrite Ht, total_set_off.
      assert (Hoff : off_of pl (set_board gs
                (set_point (board gs) s (point (board gs) s - p_sign pl)))
                     = off_of pl gs) by (destruct pl; reflexivity).
      rewrite Hoff, total_lift by auto.
      destruct (player_eqb q pl); lia.
  - rewrite py_index_point by auto.
    fold (point (board gs) s).
    fold (set_point (board gs) s (point (board gs) s - p_sign pl)).
    rewrite Hland; proj_simpl; auto;
      try (unfold set_point; rewrite set_nth_length; auto; fail);
      try (apply lifted_not_blocked; auto; fail).
    intros H. apply Hdice in H. destruct H as [Hb Ht].
    rewrite Hb, land_length. proj_simpl. split.
    + unfold set_point; rewrite set_nth_length; auto.
    + intros q. rewrite Ht, total_land; proj_simpl;
        try (unfold set_point; rewrite set_nth_length; auto; fail);
        try (apply lifted_not_blocked; auto; fail); auto.
      rewrite total_lift by auto. destruct (player_eqb q pl); lia.
Qed.

Lemma make_move_conserved (gs : BackgammonGame) (src dst : endpoint) :
  conserved gs ->
  In (src, dst) (get_legal_actions gs) ->
  conserved (snd (make_move gs src dst)).
Proof.
  intros Hc Hin. pose proof Hc as [Hl _].
  apply legal_action_generated in Hin. destruct Hin as [die Hin].
  unfold make_move.
  destruct (die_to_remove gs src dst) as [die'|]; [|exact Hc].
  destruct (make_move_try gs src dst die') as [g1|g] eqn:Etry.
  - apply (make_move_try_generated _ _ _ _ _ _ Hl Hin) in Etry.
    destruct Etry as [Hl1 Ht1].
    assert (Hc1 : conserved g1) by (apply (totals_conserved g1 gs); auto).
    set (g2 := set_available_moves g1 (get_legal_actions g1)).
    assert (Hc3 : conserved (snd (is_game_over g2))).
    { apply (same_checkers_conserved _ g1); auto.
      unfold is_game_over.
      destruct (white_off g2 >=? 15); [|destruct (black_off g2 >=? 15)];
        repeat split; reflexivity. }
    destruct (is_game_over g2) as [over g3]. cbn [snd] in Hc3.
    destruct (get_total_checker_count g3) as [w_final b_final] eqn:Ecount.
    destruct (negb (w_final =? 15) || negb (b_final =? 15)); cbn [snd];
      exact Hc3.
  - cbn [snd]. apply (same_checkers_conserved _ gs); auto.
    repeat split; reflexivity.
Qed.

(** C7: every state reachable from the standard starting position keeps
    fifteen checkers of each colour on board, bar and off together. *)
Theorem checker_conservation (gs : BackgammonGame) :
  reachable gs -> get_total_checker_count gs = (15, 15).
Proof.
  intros H. enough (Hc : conserved gs) by apply Hc.
  induction H as [|gs src dst _ IH Hin|gs pl die src dst _ IH Hin
                  |gs d1 d2 _ IH _ _|gs _ IH].
  - split; reflexivity.
  - now apply make_move_conserved.
  - destruct IH as [Hl Ht].
    pose proof (base_logic_generated gs pl die src dst Hl Hin) as (_ & Hl' & Ht').
    apply (totals_conserved _ gs); auto. split; auto.
  - apply (same_checkers_conserved _ gs); auto. repeat split; reflexivity.
  - apply (same_checkers_conserved _ gs); auto. repeat split; reflexivity.
Qed.

Lemma checker_conservation_witness :
  get_total_checker_count
    (snd (make_move (roll_dice initial_game 3 1) (Pt 17) (Pt 20))) = (15, 15).
Proof.
  apply checker_conservation.
  apply reach_make_move.
  - apply reach_roll_dice; [apply reach_start | lia | lia].
  - vm_compute. tauto.
Defined.

(** ** Error handling of [make_move] *)

(** The [except] branch: an exception raised while the move is applied
    puts board, bars, offs and dice back to the snapshot, marks the game
    as in error and makes the call return [False]. *)
Lemma make_move_exception_rolls_back (gs g : BackgammonGame)
      (src dst : endpoint) (die : Z) :
  die_to_remove gs src dst = Some die ->
  make_move_try gs src dst die = Raised g ->
  let r := make_move gs src dst in
  fst r = false /\ winner (snd r) = ErrorState /\
  board (snd r) = board gs /\
  white_bar (snd r) = white_bar gs /\ black_bar (snd r) = black_bar gs /\
  white_off (snd r) = white_off gs /\ black_off (snd r) = black_off gs /\
  dice (snd r) = dice gs.
Proof.
  intros Hdie Htry. unfold make_move. rewrite Hdie, Htry.
  repeat split; reflexivity.
Qed.

(** A move onto a point held by two opposing checkers raises inside the
    [try] block, after the source point has been changed. *)
Example make_move_blocked_target_raises :
  let gs := roll_dice initial_game 5 3 in
  die_to_remove gs (Pt 1) (Pt 6) = Some 5 /\
  (exists g, make_move_try gs (Pt 1) (Pt 6) 5 = Raised g /\
             board g <> board gs) /\
  board (snd (make_move gs (Pt 1) (Pt 6))) = board gs /\
  winner (snd (make_move gs (Pt 1) (Pt 6))) = ErrorState.
Proof.
  vm_compute. repeat split. eexists. split; [reflexivity|discriminate].
Qed.

(** C3, at the input [make_move(3, 5)] after a roll of 2 and 1 on the
    starting position: the count check fails (16 and 16), the call
    returns [False] with [winner = "ERROR"], and board and dice stay as
    the move left them instead of going back to the snapshot. *)
Theorem make_move_count_failure_not_rolled_back :
  let gs := roll_dice initial_game 2 1 in
  let r := make_move gs (Pt 3) (Pt 5) in
  board gs = initial_board /\ dice gs = [2; 1] /\
  get_total_checker_count gs = (15, 15) /\
  fst r = false /\ winner (snd r) = ErrorState /\
  get_total_checker_count (snd r) = (16, 16) /\
  board (snd r) =
    [ 2; 0; -1; 0; 1; -5; 0; -3; 0; 0; 0; 5;
      -5; 0; 0; 0; 3; 0; 5; 0; 0; 0; 0; -2 ] /\
  board (snd r) <> board gs /\
  dice (snd r) = [1] /\ dice (snd r) <> dice gs.
Proof.
  vm_compute. repeat split; discriminate.
Qed.

(** ** Terminal scores of the search *)

(** C8: on a game that is over the search returns plus infinity when the
    side that has borne off fifteen checkers is the maximizing player and
    minus infinity otherwise, whatever the depth, the bounds and the
    random source; it never returns the finite draw value. *)
Theorem minimax_terminal_score
        (heuristic : BackgammonGame -> player -> phase -> float)
        (randint : nat -> Z) (depth : nat) (gs : BackgammonGame)
        (turn maximizing_player p : player) (alpha beta : float) (drawn : nat) :
  15 <= off_of p gs ->
  let score :=
    score_of (get_minimax_score_sampled heuristic randint depth gs turn
                                        maximizing_player alpha beta drawn) in
  (score = infinity \/ score = neg_infinity) /\
  (off_of (opponent p) gs < 15 ->
   score = if player_eqb p maximizing_player then infinity else neg_infinity).
Proof.
  intros Hoff. cbv zeta. unfold score_of.
  destruct depth; cbn [get_minimax_score_sampled]; unfold is_game_over.
  all: destruct (Z.geb_spec (white_off gs) 15) as [Hw|Hw];
    [|destruct (Z.geb_spec (black_off gs) 15) as [Hb|Hb];
      [|destruct p; cbn [off_of] in Hoff; lia]];
    cbn [winner set_winner fst snd].
  all: destruct p, maximizing_player; cbn [player_eqb off_of opponent fst snd];
    split; auto; intros; try reflexivity; lia.
Qed.

Lemma minimax_terminal_score_witness :
  let gs := mkGame [-15;0;0;0;0;0; 0;0;0;0;0;0; 0;0;0;0;0;0; 0;0;0;0;0;0]
                   0 0 15 0 NoWinner B [] [] ENDGAME in
  let score :=
    score_of (get_minimax_score_sampled (fun _ _ _ => 0%float) (fun _ => 1)
                                        2 gs B W neg_infinity infinity 0) in
  (score = infinity \/ score = neg_infinity) /\
  (off_of (opponent W) gs < 15 ->
   score = if player_eqb W W then infinity else neg_infinity).
Proof.
  apply (minimax_terminal_score (fun _ _ _ => 0%float) (fun _ => 1) 2 _ B W W).
  simpl; lia.
Defined.

(** ** Turn-sequence enumerator *)

Lemma fold_left_invariant {A B : Type} (Q : A -> Prop) (f : A -> B -> A)
      (l : list B) (a : A) :
  (forall a x, In x l -> Q a -> Q (f a x)) -> Q a -> Q (fold_left f l a).
Proof.
  revert a; induction l as [|x t IH]; intros a Hf Ha; cbn [fold_left]; auto.
  apply IH.
  - intros a' x' Hin; apply Hf; right; exact Hin.
  - apply Hf; [left; reflexivity | exact Ha].
Qed.

Lemma fold_left_ext_in {A B : Type} (f g : A -> B -> A) (l : list B) (a : A) :
  (forall a x, In x l -> f a x = g a x) ->
  fold_left f l a = fold_left g l a.
Proof.
  revert a; induction l as [|x t IH]; intros a H; cbn [fold_left]; auto.
  rewrite H by (left; reflexivity). apply IH.
  intros a' x' Hin; apply H; right; exact Hin.
Qed.

Lemma insert_asc_length (x : Z) (l : list Z) :
  length (insert_asc x l) = S (length l).
Proof.
  induction l as [|y t IH]; cbn [insert_asc length]; auto.
  destruct (x <=? y); cbn [length]; auto.
Qed.

Lemma sorted_length (l : list Z) : length (sorted l) = length l.
Proof.
  induction l as [|x t IH]; cbn [sorted fold_right length]; auto.
  fold (sorted t). rewrite insert_asc_length. auto.
Qed.

Lemma py_remove_length (x : Z) (l l' : list Z) :
  py_remove x l = Some l' -> length l = S (length l').
Proof.
  revert l'; induction l as [|y t IH]; intros l'; cbn [py_remove];
    [discriminate|].
  destruct (x =? y).
  - intros [= <-]. reflexivity.
  - destruct (py_remove x t) as [t'|]; [|discriminate].
    intros [= <-]. cbn [length]. f_equal. apply IH. reflexivity.
Qed.

(** The counter of [find_sequences_recursive] never runs out: any two
    counters above the number of remaining dice give the same search. *)
Lemma find_sequences_fuel (n m : nat) (pl : player) (state_now : BackgammonGame)
      (dice_rem : list Z) (seq_so_far : list move) (st : search_state) :
  (length dice_rem < n)%nat -> (length dice_rem < m)%nat ->
  find_sequences_recursive n pl state_now dice_rem seq_so_far st =
  find_sequences_recursive m pl state_now dice_rem seq_so_far st.
Proof.
  revert m state_now dice_rem seq_so_far st.
  induction n as [|n IH]; intros m state_now dice_rem seq_so_far st Hn Hm;
    [lia|].
  destruct m as [|m]; [lia|].
  cbn [find_sequences_recursive].
  destruct st as [memo outs].
  destruct (memo_mem _ memo); [reflexivity|].
  destruct dice_rem as [|d0 dr]; [reflexivity|].
  destruct (_get_strictly_playable_dice state_now (d0 :: dr) pl) as [|a al];
    [reflexivity|].
  match goal with
  | |- (let '(_, _) := fold_left ?f ?l ?a in _) =
       (let '(_, _) := fold_left ?g ?l ?a in _) =>
      replace (fold_left f l a) with (fold_left g l a); [reflexivity|]
  end.
  apply fold_left_ext_in. intros acc die_val _.
  destruct (_get_single_moves_for_die pl die_val state_now) as [|mv0 mvs];
    [reflexivity|].
  f_equal. apply fold_left_ext_in. intros s mv _.
  destruct (consumed_die state_now pl (d0 :: dr) die_val mv) as [c|];
    [|reflexivity].
  destruct (make_move_base_logic (copy state_now) pl (fst mv) (snd mv))
    as [ok next_state].
  destruct ok; [|reflexivity].
  destruct (py_remove c (d0 :: dr)) as [next|] eqn:Erem; [|reflexivity].
  apply py_remove_length in Erem. cbn [length] in *.
  symmetry. apply IH; rewrite sorted_length; lia.
Qed.

Lemma max_len_le (vals : list outcome) (o : outcome) :
  In o vals -> (length (snd o) <= max_len vals)%nat.
Proof.
  induction vals as [|v t IH]; cbn [In max_len fold_right]; [intros []|].
  fold (max_len t). intros [<-|H]; [|specialize (IH H)]; lia.
Qed.

Lemma max_len_attained (vals : list outcome) :
  vals <> [] -> exists o, In o vals /\ length (snd o) = max_len vals.
Proof.
  induction vals as [|v t IH]; [congruence|]. intros _.
  cbn [max_len fold_right]. fold (max_len t).
  destruct t as [|w t'].
  - exists v. split; [left; reflexivity|]. cbn [max_len fold_right]. lia.
  - destruct IH as [o [Hin Hlen]]; [discriminate|].
    destruct (Nat.max_spec (length (snd v)) (max_len (w :: t')))
      as [[_ ->]|[_ ->]].
    + exists o. split; [right; exact Hin | exact Hlen].
    + exists v. split; [left; reflexivity | reflexivity].
Qed.

Lemma dict_set_in (k : board_key) (v : outcome) (d : outcomes_dict)
      (k' : board_key) (v' : outcome) :
  In (k', v') (dict_set k v d) -> In (k', v') d \/ v' = v.
Proof.
  induction d as [|[k0 v0] t IH]; cbn [dict_set In].
  - intros [[= _ <-]|[]]. right; reflexivity.
  - destruct (board_key_eqb k k0); cbn [In].
    + intros [[= <- <-]|H]; [right; reflexivity | left; right; exact H].
    + intros [H|H]; [left; left; exact H|].
      destruct (IH H); [left; right; assumption | right; assumption].
Qed.

Lemma record_outcome_noop (gs : BackgammonGame) (dc : list Z)
      (state_now : BackgammonGame) (sq : list move) (d : outcomes_dict) :
  noop_is_input gs dc d ->
  (sq = [] -> state_now = set_dice gs dc) ->
  noop_is_input gs dc (record_outcome state_now sq d).
Proof.
  intros Hd Hs. unfold record_outcome.
  assert (Hset : noop_is_input gs dc
                   (dict_set (board_tuple state_now) (copy state_now, sq) d)).
  { intros k s sq' Hin Hnil. apply dict_set_in in Hin.
    destruct Hin as [Hin|[= -> ->]]; [eauto | auto]. }
  destruct (dict_get (board_tuple state_now) d) as [[s0 old_seq]|]; auto.
  destruct (length sq <? length old_seq)%nat; auto.
Qed.

Lemma find_sequences_noop (gs : BackgammonGame) (dc : list Z) (fuel : nat)
      (pl : player) (state_now : BackgammonGame) (dice_rem : list Z)
      (sq : list move) (st : search_state) :
  noop_is_input gs dc (snd st) ->
  (sq = [] -> state_now = set_dice gs dc) ->
  noop_is_input gs dc
    (snd (find_sequences_recursive fuel pl state_now dice_rem sq st)).
Proof.
  revert state_now dice_rem sq st.
  induction fuel as [|fuel IH]; intros state_now dice_rem sq st Hst Hsq;
    cbn [find_sequences_recursive]; auto.
  destruct st as [memo outs]. cbn [snd] in Hst.
  destruct (memo_mem _ memo); auto.
  destruct dice_rem as [|d0 dr];
    [cbn [snd]; apply record_outcome_noop; auto|].
  destruct (_get_strictly_playable_dice state_now (d0 :: dr) pl) as [|a al];
    [cbn [snd]; apply record_outcome_noop; auto|].
  match goal with
  | |- noop_is_input gs dc (snd (let '(_, _) := fold_left ?f ?l ?a in _)) =>
      assert (Hfold : noop_is_input gs dc (snd (snd (fold_left f l a))));
      [|destruct (fold_left f l a) as [found st']]
  end.
  - apply (fold_left_invariant
             (fun acc : bool * search_state =>
                noop_is_input gs dc (snd (snd acc))));
      [|exact Hst].
    intros acc die_val _ Hacc.
    destruct (_get_single_moves_for_die pl die_val state_now) as [|mv0 mvs];
      auto.
    cbn [snd].
    apply (fold_left_invariant
             (fun s : search_state => noop_is_input gs dc (snd s)));
      [|exact Hacc].
    intros s mv _ Hs.
    destruct (consumed_die state_now pl (d0 :: dr) die_val mv); auto.
    destruct (make_move_base_logic (copy state_now) pl (fst mv) (snd mv))
      as [ok next_state].
    destruct ok; auto.
    destruct (py_remove z (d0 :: dr)); auto.
    apply IH; auto.
    intros Hnil. destruct sq; discriminate.
  - cbn [snd] in Hfold. destruct found; auto.
    cbn [snd]. apply record_outcome_noop; auto.
Qed.

Lemma list_Z_eqb_refl (l : list Z) : list_Z_eqb l l = true.
Proof.
  unfold list_Z_eqb. rewrite Nat.eqb_refl. cbn [andb].
  induction l as [|x t IH]; cbn [combine forallb fst snd]; auto.
  rewrite Z.eqb_refl. exact IH.
Qed.

Lemma memo_key_eqb_refl (k : memo_key) : memo_key_eqb k k = true.
Proof.
  destruct k as [[[[[[b wb] bb] wo] bo] p] dc].
  unfold memo_key_eqb, board_key_eqb. cbn [fst snd].
  rewrite !list_Z_eqb_refl, !Z.eqb_refl. destruct p; reflexivity.
Qed.

(** A position and dice already in [memo] are not searched again. *)
Lemma find_sequences_memo_hit (fuel : nat) (pl : player)
      (state_now : BackgammonGame) (dice_rem : list Z) (sq : list move)
      (st : search_state) :
  memo_mem (board_tuple state_now, dice_rem) (fst st) = true ->
  find_sequences_recursive fuel pl state_now dice_rem sq st = st.
Proof.
  intros Hmem. destruct fuel as [|fuel]; [reflexivity|].
  cbn [find_sequences_recursive]. destruct st as [memo outs].
  cbn [fst] in Hmem. rewrite Hmem. reflexivity.
Qed.

(** The search only adds to [memo]. *)
Lemma find_sequences_memo_grows (k : memo_key) (fuel : nat) (pl : player)
      (state_now : BackgammonGame) (dice_rem : list Z) (sq : list move)
      (st : search_state) :
  memo_mem k (fst st) = true ->
  memo_mem k (fst (find_sequences_recursive fuel pl state_now dice_rem sq st))
  = true.
Proof.
  revert state_now dice_rem sq st.
  induction fuel as [|fuel IH]; intros state_now dice_rem sq st Hst;
    cbn [find_sequences_recursive]; auto.
  destruct st as [memo outs]. cbn [fst] in Hst.
  destruct (memo_mem (board_tuple state_now, dice_rem) memo); auto.
  assert (Hcons : memo_mem k ((board_tuple state_now, dice_rem) :: memo) = true)
    by (unfold memo_mem in *; cbn [existsb]; rewrite Hst; apply orb_true_r).
  destruct dice_rem as [|d0 dr]; [exact Hcons|].
  destruct (_get_strictly_playable_dice state_now (d0 :: dr) pl) as [|a al];
    [exact Hcons|].
  match goal with
  | |- memo_mem k (fst (let '(_, _) := fold_left ?f ?l ?a in _)) = true =>
      assert (Hfold : memo_mem k (fst (snd (fold_left f l a))) = true);
      [|destruct (fold_left f l a) as [found st']]
  end.
  - apply (fold_left_invariant
             (fun acc : bool * search_state =>
                memo_mem k (fst (snd acc)) = true));
      [|exact Hcons].
    intros acc die_val _ Hacc.
    destruct (_get_single_moves_for_die pl die_val state_now) as [|mv0 mvs];
      auto.
    cbn [snd].
    apply (fold_left_invariant
             (fun s : search_state => memo_mem k (fst s) = true));
      [|exact Hacc].
    intros s mv _ Hs.
    destruct (consumed_die state_now pl (d0 :: dr) die_val mv); auto.
    destruct (make_move_base_logic (copy state_now) pl (fst mv) (snd mv))
      as [ok next_state].
    destruct ok; auto.
    destruct (py_remove z (d0 :: dr)); auto.
  - cbn [snd] in Hfold. destruct found; auto.
Qed.

(** Once searched, a position and its dice are in [memo]. *)
Lemma find_sequences_memo_has_key (fuel : nat) (pl : player)
      (state_now : BackgammonGame) (dice_rem : list Z) (sq : list move)
      (st : search_state) :
  memo_mem (board_tuple state_now, dice_rem)
           (fst (find_sequences_recursive (S fuel) pl state_now dice_rem sq st))
  = true.
Proof.
  destruct (memo_mem (board_tuple state_now, dice_rem) (fst st)) eqn:Hmem.
  - rewrite find_sequences_memo_hit by exact Hmem. exact Hmem.
  - pose proof (find_sequences_memo_grows
                  (board_tuple state_now, dice_rem) fuel pl) as Hgrow.
    cbn [find_sequences_recursive]. destruct st as [memo outs].
    cbn [fst] in Hmem. rewrite Hmem.
    assert (Hcons : memo_mem (board_tuple state_now, dice_rem)
                             ((board_tuple state_now, dice_rem) :: memo) = true)
      by (unfold memo_mem; cbn [existsb]; rewrite memo_key_eqb_refl;
          reflexivity).
    destruct dice_rem as [|d0 dr]; [exact Hcons|].
    destruct (_get_strictly_playable_dice state_now (d0 :: dr) pl) as [|a al];
      [exact Hcons|].
    match goal with
    | |- memo_mem ?k (fst (let '(_, _) := fold_left ?f ?l ?a in _)) = true =>
        assert (Hfold : memo_mem k (fst (snd (fold_left f l a))) = true);
        [|destruct (fold_left f l a) as [found st']]
    end.
    + apply (fold_left_invariant
               (fun acc : bool * search_state =>
                  memo_mem (board_tuple state_now, d0 :: dr)
                           (fst (snd acc)) = true));
        [|exact Hcons].
      intros acc die_val _ Hacc.
      destruct (_get_single_moves_for_die pl die_val state_now) as [|mv0 mvs];
        auto.
      cbn [snd].
      apply (fold_left_invariant
               (fun s : search_state =>
                  memo_mem (board_tuple state_now, d0 :: dr) (fst s) = true));
        [|exact Hacc].
      intros s mv _ Hs.
      destruct (consumed_die state_now pl (d0 :: dr) die_val mv); auto.
      destruct (make_move_base_logic (copy state_now) pl (fst mv) (snd mv))
        as [ok next_state].
      destruct ok; auto.
      destruct (py_remove z (d0 :: dr)); auto.
    + cbn [snd] in Hfold. destruct found; auto.
Qed.

Lemma sorted_pair_swap (a b : Z) : sorted [b; a] = sorted [a; b].
Proof.
  unfold sorted. cbn [fold_right insert_asc].
  destruct (Z.leb_spec a b); destruct (Z.leb_spec b a); try reflexivity.
  - assert (a = b) by lia. subst. reflexivity.
  - lia.
Qed.

(** The seeded searches: the roll itself, followed for two different
    dice by the swapped pair, whose sorted dice are the same. *)
Lemma initial_dice_perms_cases (dice_tuple : list Z) :
  initial_dice_perms dice_tuple = [dice_tuple] \/
  exists d1 d2, dice_tuple = [d1; d2] /\
                initial_dice_perms dice_tuple = [[d1; d2]; [d2; d1]].
Proof.
  unfold initial_dice_perms.
  destruct dice_tuple as [|a [|b [|c [|e [|f t]]]]]; auto.
  destruct (Z.eqb_spec a b) as [->|Hne]; cbn [negb]; [left; reflexivity|].
  right. exists a, b. split; reflexivity.
Qed.

(** Every collected outcome with an empty sequence is the input state
    with the roll as its dice. *)
Lemma collect_final_outcomes_noop (gs : BackgammonGame) (dice_tuple : list Z)
      (pl : player) :
  noop_is_input gs dice_tuple (collect_final_outcomes gs dice_tuple pl).
Proof.
  unfold collect_final_outcomes.
  assert (Hfirst : forall n,
             noop_is_input gs dice_tuple
               (snd (find_sequences_recursive
                       n pl (set_dice (copy gs) dice_tuple) (sorted dice_tuple)
                       [] ([], [])))).
  { intros n. apply find_sequences_noop; [intros k s sq [] | reflexivity]. }
  destruct (initial_dice_perms_cases dice_tuple) as [->|(d1 & d2 & -> & ->)];
    cbn [fold_left]; [apply Hfirst|].
  rewrite find_sequences_memo_hit; [apply Hfirst|].
  rewrite sorted_pair_swap. cbn [length].
  change (board_tuple (set_dice (copy gs) [d2; d1]))
    with (board_tuple (set_dice (copy gs) [d1; d2])).
  apply find_sequences_memo_has_key.
Qed.

(** When the input state already holds the roll as its dice, as it does
    when the live game calls the selection, setting the dice changes
    nothing: the no-op outcome is then the input state field for field. *)
Lemma set_dice_same (gs : BackgammonGame) : gs = set_dice gs (dice gs).
Proof. destruct gs; reflexivity. Qed.

(** C1, as the code has it: every returned pair has the maximum sequence
    length found among the collected terminal outcomes, and the result is
    never empty.  When that maximum is zero, no collected sequence playing
    a die, the result is a single no-op outcome with the empty sequence;
    its state is the input state itself when the roll is empty or nothing
    was collected, and otherwise it is not a plain copy of the input: it
    is the input state with its dice field replaced by the roll. *)
Theorem max_dice_played_filter (gs : BackgammonGame) (dice_tuple : list Z)
        (pl : player) :
  let collected := dict_values (collect_final_outcomes gs dice_tuple pl) in
  let result := generate_possible_next_states_with_sequences gs dice_tuple pl in
  result <> [] /\
  (forall o, In o result -> length (snd o) = max_len collected) /\
  (max_len collected = 0%nat ->
   (dice_tuple = [] \/ collect_final_outcomes gs dice_tuple pl = [] ->
    result = [(gs, [])]) /\
   (dice_tuple <> [] -> collect_final_outcomes gs dice_tuple pl <> [] ->
    result = [(set_dice gs dice_tuple, [])])).
Proof.
  cbv zeta. unfold generate_possible_next_states_with_sequences.
  pose proof (collect_final_outcomes_noop gs dice_tuple pl) as Hnoop.
  destruct dice_tuple as [|d0 dr].
  - split; [discriminate|]. split.
    + intros o [<-|[]]. unfold collect_final_outcomes.
      vm_compute. reflexivity.
    + intros _. split; [intros _; reflexivity | congruence].
  - destruct (collect_final_outcomes gs (d0 :: dr) pl) as [|[k0 v0] rest] eqn:Ec.
    + split; [discriminate|]. split.
      * intros o [<-|[]]. reflexivity.
      * intros _. split; [intros _; reflexivity | congruence].
    + set (vals := dict_values ((k0, v0) :: rest)) in *.
      assert (Hne : vals <> []) by discriminate.
      destruct (max_len_attained vals Hne) as [omax [Hin Hlen]].
      destruct (Nat.eqb_spec (max_len vals) 0) as [Hz|Hnz];
        cbn [andb length Nat.leb].
      * cbn [vals dict_values map firstn snd].
        assert (Hv0 : snd v0 = []).
        { assert (H0 : (length (snd v0) <= max_len vals)%nat)
            by (apply max_len_le; left; reflexivity).
          destruct (snd v0); [reflexivity | cbn [length] in H0; lia]. }
        destruct v0 as [s0 sq0]. cbn [snd] in Hv0. subst sq0.
        split; [discriminate|]. split.
        -- intros o [<-|[]]. cbn [snd length]. symmetry. exact Hz.
        -- intros _. split; [intros [H|H]; discriminate|].
           intros _ _.
           rewrite (Hnoop k0 s0 [] ltac:(left; reflexivity) eq_refl).
           reflexivity.
      * assert (Hf : In omax (filter (fun o => (length (snd o) =? max_len vals)%nat)
                                     vals))
          by (apply filter_In; split; [exact Hin | now apply Nat.eqb_eq]).
        destruct (filter (fun o => (length (snd o) =? max_len vals)%nat) vals)
          as [|f0 fr] eqn:Ef; [destruct Hf|].
        split; [discriminate|]. split; [|intros; lia].
        intros o Ho. rewrite <- Ef in Ho. apply filter_In in Ho.
        destruct Ho as [_ Ho]. now apply Nat.eqb_eq.
Qed.

(** C1 as stated fails in its exception: the no-op outcome need not be a
    copy of the input state.  The last checker of the player moving up
    stands on point 1, point 7 is held by two opposing checkers, the
    state holds no dice and a double six is rolled.  No die can be
    played, the maximum sequence length is zero, and the one outcome
    returned holds the roll as its dice where the input holds none. *)
Lemma no_op_outcome_holds_roll_counterexample :
  let gs := mkGame [ 1; 0; 0; 0; 0; 0; -2; -2; 0; 0; 0; 0;
                     0; 0; 0; 0; 0; 0; 0; 0; 0; 0; 0; -11 ]
                   0 0 14 0 NoWinner W [] [] ENDGAME in
  let result :=
    generate_possible_next_states_with_sequences gs [6; 6; 6; 6] W in
  max_len (dict_values (collect_final_outcomes gs [6; 6; 6; 6] W)) = 0%nat /\
  result = [(set_dice gs [6; 6; 6; 6], [])] /\
  result <> [(gs, [])] /\
  dice gs = [] /\ dice (fst (nth 0 result (gs, []))) = [6; 6; 6; 6].
Proof.
  cbv zeta. split; [vm_compute; reflexivity|].
  split; [vm_compute; reflexivity|].
  split; [vm_compute; discriminate|].
  split; vm_compute; reflexivity.
Qed.

(** On [last_checker_position] a roll of 1 and 2 yields the no-op outcome
    although the checker on point 24 could be borne off: the resolver
    allows the 2 alone, the die rule of the search wants the smallest die
    that bears off, the 1, and no move is taken. *)
Example last_checker_one_two_no_move :
  _get_strictly_playable_dice last_checker_position [1; 2] W = [2] /\
  consumed_die last_checker_position W [1; 2] 2 (Pt 24, Off) = None /\
  collect_final_outcomes last_checker_position [1; 2] W = [] /\
  generate_possible_next_states_with_sequences last_checker_position [1; 2] W
  = [(last_checker_position, [])].
Proof. vm_compute. repeat split. Qed.

(** The starting position is in the opening phase, as [__init__]
    computes it. *)
Example initial_phase_is_opening :
  fst (determine_game_phase initial_game) = current_phase initial_game.
Proof. vm_compute. reflexivity. Qed.

(** The roll of 6 and 5 on the starting position: every returned sequence
    plays both dice. *)
Example opening_six_five_plays_both :
  forall o,
    In o (generate_possible_next_states_with_sequences initial_game [6; 5] W) ->
    length (snd o) = 2%nat.
Proof.
  intros o Ho. vm_compute in Ho.
  repeat (destruct Ho as [<-|Ho]; [reflexivity|]). destruct Ho.
Qed.

(** ** Order facts on binary64 numbers *)

Lemma SFcompare_lt_trans (x y z : spec_float) :
  SFcompare x y = Some Lt -> SFcompare y z = Some Lt ->
  SFcompare x z = Some Lt.
Proof.
  destruct x as [sx|sx| |sx mx ex], y as [sy|sy| |sy my ey],
           z as [sz|sz| |sz mz ez];
    cbn [SFcompare]; try discriminate;
    try (destruct sx; discriminate); try (destruct sy; discriminate);
    try (destruct sx, sy; discriminate); try (destruct sy, sz; discriminate);
    try (destruct sx, sy, sz; (discriminate || reflexivity));
    try (destruct sx, sz; (discriminate || reflexivity));
    try (destruct sx, sy; (discriminate || reflexivity)).
  change (Pos.compare_cont Eq mx my) with (Pos.compare mx my).
  change (Pos.compare_cont Eq my mz) with (Pos.compare my mz).
  change (Pos.compare_cont Eq mx mz) with (Pos.compare mx mz).
  destruct sx, sy, sz; try discriminate; try reflexivity;
    destruct (Z.compare_spec ex ey); destruct (Z.compare_spec ey ez);
    destruct (Z.compare_spec ex ez); try discriminate; try reflexivity;
    try lia;
    destruct (Pos.compare_spec mx my); destruct (Pos.compare_spec my mz);
    destruct (Pos.compare_spec mx mz); cbn [CompOpp];
    try discriminate; try reflexivity; try lia.
Qed.

Lemma SFcompare_lt_eq (x y z : spec_float) :
  SFcompare x y = Some Lt -> SFcompare z y = Some Eq ->
  SFcompare x z = Some Lt.
Proof.
  destruct x as [sx|sx| |sx mx ex], y as [sy|sy| |sy my ey],
           z as [sz|sz| |sz mz ez];
    cbn [SFcompare]; try discriminate;
    try (destruct sx; discriminate); try (destruct sy; discriminate);
    try (destruct sz; discriminate);
    try (destruct sx, sy; discriminate); try (destruct sz, sy; discriminate);
    try (destruct sx, sy, sz; (discriminate || reflexivity));
    try (destruct sx, sz; (discriminate || reflexivity));
    try (destruct sx, sy; (discriminate || reflexivity)).
  change (Pos.compare_cont Eq mx my) with (Pos.compare mx my).
  change (Pos.compare_cont Eq mz my) with (Pos.compare mz my).
  change (Pos.compare_cont Eq mx mz) with (Pos.compare mx mz).
  destruct sx, sy, sz; try discriminate; try reflexivity;
    destruct (Z.compare_spec ex ey); destruct (Z.compare_spec ez ey);
    destruct (Z.compare_spec ex ez); try discriminate; try reflexivity;
    try lia;
    destruct (Pos.compare_spec mx my); destruct (Pos.compare_spec mz my);
    destruct (Pos.compare_spec mx mz); cbn [CompOpp];
    try discriminate; try reflexivity; try lia.
Qed.

Lemma SFltb_Lt (x y : spec_float) :
  SFltb x y = true <-> SFcompare x y = Some Lt.
Proof.
  unfold SFltb. destruct (SFcompare x y) as [[| |]|]; split; congruence.
Qed.

Lemma SFeqb_Eq (x y : spec_float) :
  SFeqb x y = true <-> SFcompare x y = Some Eq.
Proof.
  unfold SFeqb. destruct (SFcompare x y) as [[| |]|]; split; congruence.
Qed.

(** [<] on floats is transitive. *)
Lemma float_ltb_trans (a b c : float) :
  PrimFloat.ltb a b = true -> PrimFloat.ltb b c = true ->
  PrimFloat.ltb a c = true.
Proof.
  rewrite !ltb_spec, !SFltb_Lt. apply SFcompare_lt_trans.
Qed.

(** [a < b] and [c == b] give [a < c]. *)
Lemma float_ltb_eqb (a b c : float) :
  PrimFloat.ltb a b = true -> PrimFloat.eqb c b = true ->
  PrimFloat.ltb a c = true.
Proof.
  rewrite !ltb_spec, eqb_spec, !SFltb_Lt, SFeqb_Eq. apply SFcompare_lt_eq.
Qed.

(** Whatever is above some float is above minus infinity. *)
Lemma float_ltb_neg_infinity (a b : float) :
  PrimFloat.ltb a b = true -> PrimFloat.ltb neg_infinity b = true.
Proof.
  rewrite !ltb_spec, !SFltb_Lt.
  change (Prim2SF neg_infinity) with (S754_infinity true).
  destruct (Prim2SF a) as [sx|sx| |sx mx ex], (Prim2SF b) as [sy|sy| |sy my ey];
    cbn [SFcompare]; try discriminate; try reflexivity;
    destruct sx; try destruct sy; try discriminate; reflexivity.
Qed.

Lemma float_ltb_irrefl (a : float) : PrimFloat.ltb a a = false.
Proof.
  rewrite ltb_spec. unfold SFltb.
  destruct (Prim2SF a) as [s|s| |s m e]; cbn [SFcompare]; auto.
  - destruct s; reflexivity.
  - change (Pos.compare_cont Eq m m) with (Pos.compare m m).
    rewrite Z.compare_refl, Pos.compare_refl. destruct s; reflexivity.
Qed.

(** ** Bounds at a chance node *)

Lemma py_max_raises (a b : float) :
  py_max a b = a \/ PrimFloat.ltb a (py_max a b) = true.
Proof.
  unfold py_max. destruct (PrimFloat.ltb a b) eqn:E; [right|left]; auto.
Qed.

Lemma py_min_lowers (a b : float) :
  py_min a b = a \/ PrimFloat.ltb (py_min a b) a = true.
Proof.
  unfold py_min. destruct (PrimFloat.ltb b a) eqn:E; [right|left]; auto.
Qed.

Lemma branches_max_alpha
      (recurse : BackgammonGame -> float -> float -> nat -> search_result)
      (outs : list outcome) (best alpha beta : float) (drawn : nat) :
  let alpha' := snd (fst (branches_max recurse outs best alpha beta drawn)) in
  alpha' = alpha \/ PrimFloat.ltb alpha alpha' = true.
Proof.
  cbv zeta. revert best alpha drawn.
  induction outs as [|[next_state sq] rest IH]; intros best alpha drawn;
    cbn [branches_max]; [left; reflexivity|].
  destruct (recurse next_state alpha beta drawn) as [[evaluation g] drawn1].
  set (best1 := py_max best evaluation).
  destruct (py_max_raises alpha best1) as [Ha|Ha].
  - rewrite Ha. destruct (PrimFloat.leb beta alpha); [left; reflexivity|].
    apply IH.
  - destruct (PrimFloat.leb beta (py_max alpha best1)); [right; exact Ha|].
    destruct (IH best1 (py_max alpha best1) drawn1) as [H|H].
    + rewrite H. right; exact Ha.
    + right. eapply float_ltb_trans; eauto.
Qed.

Lemma branches_min_beta
      (recurse : BackgammonGame -> float -> float -> nat -> search_result)
      (outs : list outcome) (worst alpha beta : float) (drawn : nat) :
  let beta' := snd (fst (branches_min recurse outs worst alpha beta drawn)) in
  beta' = beta \/ PrimFloat.ltb beta' beta = true.
Proof.
  cbv zeta. revert worst beta drawn.
  induction outs as [|[next_state sq] rest IH]; intros worst beta drawn;
    cbn [branches_min]; [left; reflexivity|].
  destruct (recurse next_state alpha beta drawn) as [[evaluation g] drawn1].
  set (worst1 := py_min worst evaluation).
  destruct (py_min_lowers beta worst1) as [Hb|Hb].
  - rewrite Hb. destruct (PrimFloat.leb beta alpha); [left; reflexivity|].
    apply IH.
  - destruct (PrimFloat.leb (py_min beta worst1) alpha); [right; exact Hb|].
    destruct (IH worst1 (py_min beta worst1) drawn1) as [H|H].
    + rewrite H. right; exact Hb.
    + right. eapply float_ltb_trans; eauto.
Qed.

(** One sampled roll at a maximizing node leaves [beta] alone and hands
    on an [alpha] that is the one it received or a larger one. *)
Lemma max_sample_step_bounds
      (recurse : BackgammonGame -> float -> float -> nat -> search_result)
      (turn : player) (st : chance_loop) (sample : Z * Z) :
  let st' := max_sample_step recurse turn st sample in
  cl_beta st' = cl_beta st /\
  (cl_alpha st' = cl_alpha st \/
   PrimFloat.ltb (cl_alpha st) (cl_alpha st') = true).
Proof.
  cbv zeta. unfold max_sample_step. destruct sample as [d1 d2].
  destruct (no_move_outcome _).
  - destruct (recurse _ _ _ _) as [[v g] k]. cbn [cl_beta cl_alpha]. auto.
  - pose proof (branches_max_alpha
                  recurse
                  (generate_possible_next_states_with_sequences
                     (cl_state st) (dice_for_turn d1 d2) turn)
                  neg_infinity (cl_alpha st) (cl_beta st) (cl_drawn st)) as H.
    cbv zeta in H.
    destruct (branches_max _ _ _ _ _ _) as [[b a] k].
    cbn [cl_beta cl_alpha fst snd] in *. auto.
Qed.

Lemma min_sample_step_bounds
      (recurse : BackgammonGame -> float -> float -> nat -> search_result)
      (turn : player) (st : chance_loop) (sample : Z * Z) :
  let st' := min_sample_step recurse turn st sample in
  cl_alpha st' = cl_alpha st /\
  (cl_beta st' = cl_beta st \/
   PrimFloat.ltb (cl_beta st') (cl_beta st) = true).
Proof.
  cbv zeta. unfold min_sample_step. destruct sample as [d1 d2].
  destruct (no_move_outcome _).
  - destruct (recurse _ _ _ _) as [[v g] k]. cbn [cl_beta cl_alpha]. auto.
  - pose proof (branches_min_beta
                  recurse
                  (generate_possible_next_states_with_sequences
                     (cl_state st) (dice_for_turn d1 d2) turn)
                  infinity (cl_alpha st) (cl_beta st) (cl_drawn st)) as H.
    cbv zeta in H.
    destruct (branches_min _ _ _ _ _ _) as [[b a] k].
    cbn [cl_beta cl_alpha fst snd] in *. auto.
Qed.

Lemma firstn_succ_nth {A : Type} (l : list A) (i : nat) (d : A) :
  (i < length l)%nat -> firstn (S i) l = firstn i l ++ [nth i l d].
Proof.
  revert i; induction l as [|x t IH]; intros i Hi; cbn [length] in Hi; [lia|].
  destruct i as [|i]; [reflexivity|].
  cbn [firstn nth app]. f_equal. apply IH. lia.
Qed.

Lemma random_dice_sample_length (randint : nat -> Z) (drawn : nat) :
  length (fst (_get_random_dice_sample randint drawn)) = NUM_DICE_SAMPLES.
Proof.
  unfold _get_random_dice_sample. cbn [fst].
  rewrite length_map, length_seq. reflexivity.
Qed.

(** The loop state after one more sampled roll is the step of the loop
    applied to the state the earlier rolls left. *)
Lemma chance_node_after_succ
      (heuristic : BackgammonGame -> player -> phase -> float)
      (randint : nat -> Z) (i depth' : nat) (gs : BackgammonGame)
      (turn maximizing_player : player) (alpha beta : float) (drawn : nat) :
  (i < NUM_DICE_SAMPLES)%nat ->
  chance_node_after heuristic randint (S i) depth' gs turn maximizing_player
                    alpha beta drawn =
  sample_step
    (fun g a b n =>
       get_minimax_score_sampled heuristic randint depth' g (opponent turn)
                                 maximizing_player a b n)
    (player_eqb turn maximizing_player) turn
    (chance_node_after heuristic randint i depth' gs turn maximizing_player
                       alpha beta drawn)
    (sampled_roll randint drawn i).
Proof.
  intros Hi. unfold chance_node_after, sampled_roll.
  pose proof (random_dice_sample_length randint drawn) as Hlen.
  destruct (_get_random_dice_sample randint drawn) as [samples drawn1].
  cbn [fst] in *. unfold chance_node_loop.
  rewrite (firstn_succ_nth samples i (0, 0)) by lia.
  rewrite fold_left_app. reflexivity.
Qed.

Lemma chance_node_after_zero
      (heuristic : BackgammonGame -> player -> phase -> float)
      (randint : nat -> Z) (depth' : nat) (gs : BackgammonGame)
      (turn maximizing_player : player) (alpha beta : float) (drawn : nat) :
  chance_node_after heuristic randint 0 depth' gs turn maximizing_player
                    alpha beta drawn =
  mkLoop gs alpha beta 0%float 0 (drawn + 2 * NUM_DICE_SAMPLES)%nat.
Proof. reflexivity. Qed.

(** The bound the node does not assign keeps the value of the call. *)
Lemma chance_node_after_fixed_bound
      (heuristic : BackgammonGame -> player -> phase -> float)
      (randint : nat -> Z) (i depth' : nat) (gs : BackgammonGame)
      (turn maximizing_player : player) (alpha beta : float) (drawn : nat) :
  (i <= NUM_DICE_SAMPLES)%nat ->
  let st := chance_node_after heuristic randint i depth' gs turn
                              maximizing_player alpha beta drawn in
  if player_eqb turn maximizing_player then cl_beta st = beta
  else cl_alpha st = alpha.
Proof.
  intros Hi. cbv zeta. induction i as [|i IH].
  - rewrite chance_node_after_zero.
    destruct (player_eqb turn maximizing_player); reflexivity.
  - rewrite chance_node_after_succ by lia. specialize (IH ltac:(lia)).
    unfold sample_step.
    destruct (player_eqb turn maximizing_player).
    + rewrite (proj1 (max_sample_step_bounds _ _ _ _)). exact IH.
    + rewrite (proj1 (min_sample_step_bounds _ _ _ _)). exact IH.
Qed.

(** Nothing is below minus infinity and nothing is above plus infinity. *)
Lemma float_ltb_below_neg_infinity (a : float) :
  PrimFloat.ltb a neg_infinity = false.
Proof.
  rewrite ltb_spec. unfold SFltb.
  change (Prim2SF neg_infinity) with (S754_infinity true).
  destruct (Prim2SF a) as [s|s| |s m e]; cbn [SFcompare]; try reflexivity;
    destruct s; reflexivity.
Qed.

Lemma float_ltb_above_infinity (a : float) :
  PrimFloat.ltb infinity a = false.
Proof.
  rewrite ltb_spec. unfold SFltb.
  change (Prim2SF infinity) with (S754_infinity false).
  destruct (Prim2SF a) as [s|s| |s m e]; cbn [SFcompare]; try reflexivity;
    destruct s; reflexivity.
Qed.

(** The alpha a branch loop ends with is not below the best evaluation it
    ends with. *)
Lemma branches_max_alpha_covers_best
      (recurse : BackgammonGame -> float -> float -> nat -> search_result)
      (outs : list outcome) (best alpha beta : float) (drawn : nat) :
  PrimFloat.ltb alpha best = false ->
  let br := branches_max recurse outs best alpha beta drawn in
  PrimFloat.ltb (snd (fst br)) (fst (fst br)) = false.
Proof.
  cbv zeta. revert best alpha drawn.
  induction outs as [|[next_state sq] rest IH]; intros best alpha drawn H;
    cbn [branches_max]; [exact H|].
  destruct (recurse next_state alpha beta drawn) as [[evaluation g] drawn1].
  set (best1 := py_max best evaluation).
  assert (H1 : PrimFloat.ltb (py_max alpha best1) best1 = false).
  { unfold py_max at 1. destruct (PrimFloat.ltb alpha best1) eqn:E;
      [apply float_ltb_irrefl | exact E]. }
  destruct (PrimFloat.leb beta (py_max alpha best1)); [exact H1|].
  apply IH. exact H1.
Qed.

(** The beta a branch loop ends with is not above the worst evaluation it
    ends with. *)
Lemma branches_min_beta_covers_worst
      (recurse : BackgammonGame -> float -> float -> nat -> search_result)
      (outs : list outcome) (worst alpha beta : float) (drawn : nat) :
  PrimFloat.ltb worst beta = false ->
  let br := branches_min recurse outs worst alpha beta drawn in
  PrimFloat.ltb (fst (fst br)) (snd (fst br)) = false.
Proof.
  cbv zeta. revert worst beta drawn.
  induction outs as [|[next_state sq] rest IH]; intros worst beta drawn H;
    cbn [branches_min]; [exact H|].
  destruct (recurse next_state alpha beta drawn) as [[evaluation g] drawn1].
  set (worst1 := py_min worst evaluation).
  assert (H1 : PrimFloat.ltb worst1 (py_min beta worst1) = false).
  { unfold py_min at 1. destruct (PrimFloat.ltb worst1 beta) eqn:E;
      [apply float_ltb_irrefl | exact E]. }
  destruct (PrimFloat.leb (py_min beta worst1) alpha); [exact H1|].
  apply IH. exact H1.
Qed.

(** C4, as the code has it: the bounds are carried from one sampled roll
    to the next.  The first roll is searched from the bounds of the call.
    When roll [i + 1] has moves, its branches are searched starting from
    the alpha and the beta that roll [i] left, not from those of the
    call.  At a maximizing node the alpha handed on to the next roll is
    the alpha that branch search ended with: it is not below the best
    evaluation of the roll, which is the term added to the sum, and it is
    the alpha received or a larger one; beta stays the beta of the call.
    At a minimizing node the same holds of beta and the worst evaluation,
    with alpha staying the alpha of the call.  A roll without a move
    makes one recursive call with the bounds as they stand and hands them
    on unchanged. *)
Theorem chance_node_bounds_carried
        (heuristic : BackgammonGame -> player -> phase -> float)
        (randint : nat -> Z) (i depth' : nat) (gs : BackgammonGame)
        (turn maximizing_player : player) (alpha beta : float) (drawn : nat) :
  (i < NUM_DICE_SAMPLES)%nat ->
  let after j := chance_node_after heuristic randint j depth' gs turn
                                   maximizing_player alpha beta drawn in
  let recurse g a b n :=
    get_minimax_score_sampled heuristic randint depth' g (opponent turn)
                              maximizing_player a b n in
  let st := after i in
  let st' := after (S i) in
  let roll := sampled_roll randint drawn i in
  let outs :=
    generate_possible_next_states_with_sequences
      (cl_state st) (dice_for_turn (fst roll) (snd roll)) turn in
  (cl_alpha (after 0%nat) = alpha /\ cl_beta (after 0%nat) = beta) /\
  (player_eqb turn maximizing_player = true ->
   no_move_outcome outs = false ->
   let br := branches_max recurse outs neg_infinity
                          (cl_alpha st) (cl_beta st) (cl_drawn st) in
   cl_alpha st' = snd (fst br) /\
   cl_beta st' = beta /\
   cl_accumulated st' = (cl_accumulated st + fst (fst br))%float /\
   PrimFloat.ltb (cl_alpha st') (fst (fst br)) = false /\
   (cl_alpha st' = cl_alpha st \/
    PrimFloat.ltb (cl_alpha st) (cl_alpha st') = true)) /\
  (player_eqb turn maximizing_player = false ->
   no_move_outcome outs = false ->
   let br := branches_min recurse outs infinity
                          (cl_alpha st) (cl_beta st) (cl_drawn st) in
   cl_beta st' = snd (fst br) /\
   cl_alpha st' = alpha /\
   cl_accumulated st' = (cl_accumulated st + fst (fst br))%float /\
   PrimFloat.ltb (fst (fst br)) (cl_beta st') = false /\
   (cl_beta st' = cl_beta st \/
    PrimFloat.ltb (cl_beta st') (cl_beta st) = true)) /\
  (no_move_outcome outs = true ->
   let res := recurse (cl_state st) (cl_alpha st) (cl_beta st) (cl_drawn st) in
   cl_alpha st' = cl_alpha st /\ cl_beta st' = cl_beta st /\
   cl_accumulated st' = (cl_accumulated st + score_of res)%float).
Proof.
  intros Hi after recurse st st' roll outs.
  split; [split; reflexivity|].
  assert (Hstep : st' = sample_step recurse (player_eqb turn maximizing_player)
                                    turn st roll)
    by (apply chance_node_after_succ; exact Hi).
  pose proof (chance_node_after_fixed_bound
                heuristic randint (S i) depth' gs turn maximizing_player
                alpha beta drawn ltac:(lia)) as Hfix.
  cbv zeta in Hfix. fold (after (S i)) in Hfix. fold st' in Hfix.
  assert (Houts : outs = generate_possible_next_states_with_sequences
                           (cl_state st) (dice_for_turn (fst roll) (snd roll))
                           turn) by reflexivity.
  clearbody outs st'. clearbody st.
  destruct roll as [d1 d2]. cbn [fst snd] in Houts.
  split; [|split].
  - intros Hmax Hmv br. rewrite Hmax in Hfix, Hstep.
    unfold sample_step, max_sample_step in Hstep.
    rewrite <- Houts, Hmv in Hstep.
    pose proof (branches_max_alpha_covers_best
                  recurse outs neg_infinity (cl_alpha st) (cl_beta st)
                  (cl_drawn st) (float_ltb_below_neg_infinity _)) as Hcov.
    pose proof (branches_max_alpha recurse outs neg_infinity (cl_alpha st)
                                   (cl_beta st) (cl_drawn st)) as Hup.
    cbv zeta in Hcov, Hup. fold br in Hcov, Hup, Hstep.
    destruct br as [[b a] k]. cbn [fst snd] in *. subst st'.
    cbn [cl_alpha cl_beta cl_accumulated] in *.
    repeat split; auto.
  - intros Hmin Hmv br. rewrite Hmin in Hfix, Hstep.
    unfold sample_step, min_sample_step in Hstep.
    rewrite <- Houts, Hmv in Hstep.
    pose proof (branches_min_beta_covers_worst
                  recurse outs infinity (cl_alpha st) (cl_beta st)
                  (cl_drawn st) (float_ltb_above_infinity _)) as Hcov.
    pose proof (branches_min_beta recurse outs infinity (cl_alpha st)
                                  (cl_beta st) (cl_drawn st)) as Hdown.
    cbv zeta in Hcov, Hdown. fold br in Hcov, Hdown, Hstep.
    destruct br as [[w b] k]. cbn [fst snd] in *. subst st'.
    cbn [cl_alpha cl_beta cl_accumulated] in *.
    repeat split; auto.
  - intros Hno res. unfold sample_step in Hstep.
    destruct (player_eqb turn maximizing_player);
      [unfold max_sample_step in Hstep | unfold min_sample_step in Hstep];
      rewrite <- Houts, Hno in Hstep; fold res in Hstep;
      unfold score_of; destruct res as [[v g] k]; subst st';
      cbn [cl_alpha cl_beta cl_accumulated fst]; repeat split.
Qed.

(** A call at depth [S depth'] on a game that is not over is the chance
    node whose loop [chance_node_after] follows. *)
Lemma minimax_is_chance_node
      (heuristic : BackgammonGame -> player -> phase -> float)
      (randint : nat -> Z) (depth' : nat) (gs : BackgammonGame)
      (turn maximizing_player : player) (alpha beta : float) (drawn : nat) :
  fst (is_game_over gs) = false ->
  get_minimax_score_sampled heuristic randint (S depth') gs turn
                            maximizing_player alpha beta drawn =
  let st := chance_node_after heuristic randint NUM_DICE_SAMPLES depth' gs
                              turn maximizing_player alpha beta drawn in
  (avg_score st, cl_state st, cl_drawn st).
Proof.
  intros Hover. cbn [get_minimax_score_sampled]. unfold chance_node_after.
  unfold is_game_over in *.
  destruct (white_off gs >=? 15); [discriminate|].
  destruct (black_off gs >=? 15); [discriminate|].
  pose proof (random_dice_sample_length randint drawn) as Hlen.
  destruct (_get_random_dice_sample randint drawn) as [samples drawn1].
  cbn [fst] in Hlen. rewrite <- Hlen, firstn_all. reflexivity.
Qed.

Lemma float_infinity_neq : infinity <> neg_infinity.
Proof.
  intros H.
  pose proof (f_equal (fun x => PrimFloat.ltb 0%float x) H) as H'.
  vm_compute in H'. discriminate.
Qed.

(** C4 as stated fails: the maximizing player to move in
    [last_checker_position], every sampled roll a double one, the call
    made with alpha minus infinity and beta plus infinity.  The first
    sampled roll bears the last checker off, its one branch scores plus
    infinity, and the second sampled roll is searched with alpha plus
    infinity, not with the alpha of the call. *)
Lemma chance_node_bounds_reset_counterexample :
  let st := chance_node_after (fun _ _ _ => 0%float) (fun _ => 1) 1 0
                              last_checker_position W W
                              neg_infinity infinity 0 in
  cl_alpha st = infinity /\ cl_alpha st <> neg_infinity /\
  cl_beta st = infinity.
Proof.
  cbv zeta.
  assert (H : cl_alpha (chance_node_after (fun _ _ _ => 0%float) (fun _ => 1)
                                           1 0 last_checker_position W W
                                           neg_infinity infinity 0)
              = infinity) by (vm_compute; reflexivity).
  split; [exact H|]. split.
  - rewrite H. exact float_infinity_neq.
  - vm_compute; reflexivity.
Qed.

Lemma chance_node_bounds_carried_witness :
  let after j := chance_node_after (fun _ _ _ => 0%float) (fun _ => 1) j 0
                                   last_checker_position W W
                                   neg_infinity infinity 0 in
  let recurse g a b n :=
    get_minimax_score_sampled (fun _ _ _ => 0%float) (fun _ => 1) 0 g
                              (opponent W) W a b n in
  let outs :=
    generate_possible_next_states_with_sequences
      (cl_state (after 0%nat)) (dice_for_turn 1 1) W in
  let br := branches_max recurse outs neg_infinity
                         (cl_alpha (after 0%nat)) (cl_beta (after 0%nat))
                         (cl_drawn (after 0%nat)) in
  cl_alpha (after 1%nat) = snd (fst br) /\
  cl_beta (after 1%nat) = infinity /\
  cl_accumulated (after 1%nat)
  = (cl_accumulated (after 0%nat) + fst (fst br))%float /\
  PrimFloat.ltb (cl_alpha (after 1%nat)) (fst (fst br)) = false /\
  (cl_alpha (after 1%nat) = cl_alpha (after 0%nat) \/
   PrimFloat.ltb (cl_alpha (after 0%nat)) (cl_alpha (after 1%nat)) = true).
Proof.
  apply (chance_node_bounds_carried (fun _ _ _ => 0%float) (fun _ => 1) 0 0
                                    last_checker_position W W
                                    neg_infinity infinity 0).
  - unfold NUM_DICE_SAMPLES. lia.
  - reflexivity.
  - vm_compute. reflexivity.
Defined.

(** ** A roll without a playable die *)

Lemma single_moves_set_dice (pl : player) (die : Z) (gs : BackgammonGame)
      (dc : list Z) :
  _get_single_moves_for_die pl die (set_dice gs dc) =
  _get_single_moves_for_die pl die gs.
Proof. destruct pl; reflexivity. Qed.

Lemma in_insert_desc_unique (x y : Z) (l : list Z) :
  In y (insert_desc_unique x l) -> y = x \/ In y l.
Proof.
  induction l as [|z t IH]; cbn [insert_desc_unique In].
  - intros [<-|[]]; left; reflexivity.
  - destruct (x =? z); [intros H; right; exact H|].
    destruct (x >? z); cbn [In]; [intuition congruence|].
    intros [<-|H]; [right; left; reflexivity|].
    destruct (IH H); [left | right; right]; assumption.
Qed.

Lemma in_sorted_set_desc (y : Z) (l : list Z) :
  In y (sorted_set_desc l) -> In y l.
Proof.
  induction l as [|x t IH]; cbn [sorted_set_desc fold_right]; [intros []|].
  fold (sorted_set_desc t). intros H. apply in_insert_desc_unique in H.
  destruct H as [->|H]; [left; reflexivity | right; apply IH; exact H].
Qed.

Lemma in_insert_asc (x y : Z) (l : list Z) :
  In y (insert_asc x l) -> y = x \/ In y l.
Proof.
  induction l as [|z t IH]; cbn [insert_asc In].
  - intros [<-|[]]; left; reflexivity.
  - destruct (x <=? z); cbn [In]; [intuition congruence|].
    intros [<-|H]; [right; left; reflexivity|].
    destruct (IH H); [left | right; right]; assumption.
Qed.

Lemma in_sorted (y : Z) (l : list Z) : In y (sorted l) -> In y l.
Proof.
  induction l as [|x t IH]; cbn [sorted fold_right]; [intros []|].
  fold (sorted t). intros H. apply in_insert_asc in H.
  destruct H as [->|H]; [left; reflexivity | right; apply IH; exact H].
Qed.

(** With no playable die the resolver allows none. *)
Lemma strictly_playable_none (gs : BackgammonGame) (dice_list : list Z)
      (pl : player) :
  (forall d, In d dice_list -> _get_single_moves_for_die pl d gs = []) ->
  _get_strictly_playable_dice gs dice_list pl = [].
Proof.
  intros Hnone. unfold _get_strictly_playable_dice.
  destruct dice_list as [|d0 dr]; [reflexivity|].
  replace (filter (fun die => nonempty (_get_single_moves_for_die pl die gs))
                  (sorted_set_desc (d0 :: dr))) with (@nil Z); [reflexivity|].
  symmetry.
  assert (H : forall l, (forall d, In d l -> In d (d0 :: dr)) ->
                        filter (fun die =>
                                  nonempty (_get_single_moves_for_die pl die gs))
                               l = []).
  { induction l as [|x t IH]; intros Hl; cbn [filter]; [reflexivity|].
    rewrite (Hnone x) by (apply Hl; left; reflexivity). cbn [nonempty].
    apply IH. intros d Hd; apply Hl; right; exact Hd. }
  apply H. intros d Hd. apply in_sorted_set_desc. exact Hd.
Qed.

Lemma record_outcome_all_empty (state_now : BackgammonGame)
      (d : outcomes_dict) :
  all_seq_empty d -> all_seq_empty (record_outcome state_now [] d).
Proof.
  intros Hd. unfold record_outcome.
  assert (Hset : all_seq_empty
                   (dict_set (board_tuple state_now) (copy state_now, []) d)).
  { intros k s sq Hin. apply dict_set_in in Hin.
    destruct Hin as [Hin|[= _ ->]]; [eauto | reflexivity]. }
  destruct (dict_get (board_tuple state_now) d) as [[s0 old_seq]|]; auto.
  destruct (length (@nil move) <? length old_seq)%nat; auto.
Qed.

Lemma find_sequences_root_all_empty (fuel : nat) (pl : player)
      (state_now : BackgammonGame) (dice_rem : list Z) (st : search_state) :
  (forall d, In d dice_rem -> _get_single_moves_for_die pl d state_now = []) ->
  all_seq_empty (snd st) ->
  all_seq_empty (snd (find_sequences_recursive fuel pl state_now dice_rem [] st)).
Proof.
  intros Hnone Hst. destruct fuel as [|fuel]; [exact Hst|].
  cbn [find_sequences_recursive]. destruct st as [memo outs].
  destruct (memo_mem _ memo); [exact Hst|].
  destruct dice_rem as [|d0 dr];
    [cbn [snd]; apply record_outcome_all_empty; exact Hst|].
  rewrite strictly_playable_none by exact Hnone.
  cbn [snd]. apply record_outcome_all_empty. exact Hst.
Qed.

Lemma in_initial_dice_perms (dice_tuple perm : list Z) (d : Z) :
  In perm (initial_dice_perms dice_tuple) -> In d perm -> In d dice_tuple.
Proof.
  unfold initial_dice_perms.
  destruct dice_tuple as [|a [|b [|c [|e [|f t]]]]]; cbn [In];
    try (intros [<-|[]] H; exact H).
  destruct (a =? b) eqn:E; cbn [negb In].
  - apply Z.eqb_eq in E. subst b. intros [<-|[]] H; exact H.
  - intros [<-|[<-|[]]]; cbn [In]; tauto.
Qed.

Lemma collect_all_empty (gs : BackgammonGame) (dice_tuple : list Z)
      (pl : player) :
  (forall d, In d dice_tuple -> _get_single_moves_for_die pl d gs = []) ->
  all_seq_empty (collect_final_outcomes gs dice_tuple pl).
Proof.
  intros Hnone. unfold collect_final_outcomes.
  apply (fold_left_invariant
           (fun st : search_state => all_seq_empty (snd st))).
  - intros st initial_dice Hperm Hst.
    apply find_sequences_root_all_empty; [|exact Hst].
    intros d Hd. unfold copy. rewrite single_moves_set_dice.
    apply Hnone. apply in_sorted in Hd.
    eapply in_initial_dice_perms; eauto.
  - intros k s sq [].
Qed.

(** When no die of the roll has a legal single move, the enumerator
    returns the single no-op outcome. *)
Lemma no_playable_die_no_move (gs : BackgammonGame) (dice_tuple : list Z)
      (pl : player) :
  (forall d, In d dice_tuple -> _get_single_moves_for_die pl d gs = []) ->
  no_move_outcome
    (generate_possible_next_states_with_sequences gs dice_tuple pl) = true.
Proof.
  intros Hnone. pose proof (collect_all_empty gs dice_tuple pl Hnone) as Hall.
  unfold generate_possible_next_states_with_sequences.
  destruct dice_tuple as [|d0 dr]; [reflexivity|].
  destruct (collect_final_outcomes gs (d0 :: dr) pl)
    as [|[k0 [s0 sq0]] rest] eqn:Ec; [reflexivity|].
  assert (H : forall l, all_seq_empty l -> max_len (dict_values l) = 0%nat).
  { induction l as [|[k [s sq]] t IH]; intros Hl; [reflexivity|].
    cbn [dict_values map max_len fold_right snd].
    fold (dict_values t). fold (max_len (dict_values t)).
    rewrite IH by (intros k' s' sq' Hin; eapply Hl; right; exact Hin).
    rewrite (Hl k s sq) by (left; reflexivity). reflexivity. }
  cbv zeta.
  match goal with
  | |- context [max_len ?v] =>
      assert (Hz : max_len v = 0%nat) by (apply H; exact Hall)
  end.
  rewrite Hz.
  cbn [Nat.eqb andb length Nat.leb dict_values map firstn snd].
  rewrite (Hall k0 s0 sq0) by (left; reflexivity). reflexivity.
Qed.

(** ** Move selection *)

(** The search changes neither the position nor the dice of the object it
    is called on; it can only set [winner] and [current_phase]. *)
Lemma minimax_keeps_position
      (heuristic : BackgammonGame -> player -> phase -> float)
      (randint : nat -> Z) (depth : nat) (gs : BackgammonGame)
      (turn maximizing_player : player) (alpha beta : float) (drawn : nat) :
  board_tuple
    (state_of (get_minimax_score_sampled heuristic randint depth gs turn
                                         maximizing_player alpha beta drawn))
  = board_tuple gs.
Proof.
  revert gs turn alpha beta drawn.
  induction depth as [|depth IH]; intros gs turn alpha beta drawn;
    cbn [get_minimax_score_sampled]; unfold is_game_over, state_of.
  - destruct (white_off gs >=? 15); [|destruct (black_off gs >=? 15)];
      cbn [winner set_winner];
      try (destruct (player_eqb _ maximizing_player); reflexivity).
    reflexivity.
  - destruct (white_off gs >=? 15); [|destruct (black_off gs >=? 15)];
      cbn [winner set_winner];
      try (destruct (player_eqb _ maximizing_player); reflexivity).
    destruct (_get_random_dice_sample randint drawn) as [samples drawn1].
    cbn [fst snd]. unfold chance_node_loop.
    apply (fold_left_invariant
             (fun st : chance_loop => board_tuple (cl_state st) = board_tuple gs));
      [|reflexivity].
    intros st [d1 d2] _ Hst. unfold sample_step.
    destruct (player_eqb turn maximizing_player);
      [unfold max_sample_step | unfold min_sample_step];
      destruct (no_move_outcome _).
    + specialize (IH (cl_state st) (opponent turn) (cl_alpha st) (cl_beta st)
                     (cl_drawn st)).
      unfold state_of in IH.
      destruct (get_minimax_score_sampled _ _ _ _ _ _ _ _ _) as [[v g] k].
      cbn [cl_state fst snd] in *. congruence.
    + destruct (branches_max _ _ _ _ _ _) as [[b a] k]. exact Hst.
    + specialize (IH (cl_state st) (opponent turn) (cl_alpha st) (cl_beta st)
                     (cl_drawn st)).
      unfold state_of in IH.
      destruct (get_minimax_score_sampled _ _ _ _ _ _ _ _ _) as [[v g] k].
      cbn [cl_state fst snd] in *. congruence.
    + destruct (branches_min _ _ _ _ _ _) as [[b a] k]. exact Hst.
Qed.

(** Each entry of the scored list comes from the call on the outcome at
    the same place. *)
Lemma score_outcomes_scored_from
      (heuristic : BackgammonGame -> player -> phase -> float)
      (randint : nat -> Z) (ai_player : player) (outs : list outcome)
      (drawn : nat) :
  Forall2 (scored_from heuristic randint ai_player) outs
          (fst (score_outcomes heuristic randint ai_player outs drawn)).
Proof.
  revert drawn; induction outs as [|[next_state sq] rest IH]; intros drawn;
    cbn [score_outcomes fst]; [constructor|].
  destruct (get_minimax_score_sampled heuristic randint (MAX_DEPTH - 1)
              next_state (opponent ai_player) ai_player neg_infinity infinity
              drawn) as [[sc g] drawn1] eqn:E.
  specialize (IH drawn1).
  destruct (score_outcomes heuristic randint ai_player rest drawn1)
    as [scored drawn2].
  cbn [fst] in *. constructor; [|exact IH].
  exists drawn. cbv zeta. cbn [fst snd]. rewrite E. reflexivity.
Qed.

(** What the comparisons of the selection loop leave: nothing when no
    score is above minus infinity; otherwise an entry that no entry
    beats and that no earlier entry equals. *)
Lemma pick_best_spec (scored : list (BackgammonGame * list move * float)) :
  match snd (pick_best scored) with
  | None => forall t, In t scored -> PrimFloat.ltb neg_infinity (snd t) = false
  | Some (g, sq) =>
      exists i sc,
        nth_error scored i = Some (g, sq, sc) /\
        (forall t, In t scored -> PrimFloat.ltb sc (snd t) = false) /\
        (forall j t, (j < i)%nat -> nth_error scored j = Some t ->
                     PrimFloat.eqb (snd t) sc = false)
  end.
Proof.
  unfold pick_best.
  set (step := fun (acc : float * option (BackgammonGame * list move))
                   (o : BackgammonGame * list move * float) =>
                 let '(gs, sequence, score_for_state) := o in
                 if PrimFloat.ltb (fst acc) score_for_state
                 then (score_for_state, Some (gs, sequence))
                 else acc).
  enough (H : match snd (fold_left step scored (neg_infinity, None)) with
              | None =>
                  fst (fold_left step scored (neg_infinity, None))
                  = neg_infinity /\
                  forall t, In t scored ->
                            PrimFloat.ltb neg_infinity (snd t) = false
              | Some (g, sq) =>
                  exists i,
                    nth_error scored i
                    = Some (g, sq,
                            fst (fold_left step scored (neg_infinity, None))) /\
                    (forall t, In t scored ->
                               PrimFloat.ltb
                                 (fst (fold_left step scored (neg_infinity, None)))
                                 (snd t) = false) /\
                    (forall j t, (j < i)%nat -> nth_error scored j = Some t ->
                                 PrimFloat.eqb
                                   (snd t)
                                   (fst (fold_left step scored
                                                   (neg_infinity, None)))
                                 = false)
              end).
  { destruct (snd (fold_left step scored (neg_infinity, None))) as [[g sq]|].
    - destruct H as [i H]. eauto.
    - apply H. }
  induction scored as [|x l IH] using rev_ind.
  - cbn [fold_left snd fst]. split; [reflexivity | intros t []].
  - rewrite fold_left_app. cbn [fold_left].
    destruct (fold_left step l (neg_infinity, None)) as [best opt].
    cbn [fst snd] in IH. destruct x as [[gx sqx] scx].
    assert (Hstep : step (best, opt) (gx, sqx, scx)
                    = if PrimFloat.ltb best scx then (scx, Some (gx, sqx))
                      else (best, opt)) by reflexivity.
    rewrite Hstep. clear Hstep.
    assert (Hbeat : forall t, In t l ->
                              PrimFloat.ltb best (snd t) = false).
    { destruct opt as [[g sq]|].
      - destruct IH as [i [_ [H _]]]. exact H.
      - destruct IH as [-> H]. exact H. }
    destruct (PrimFloat.ltb best scx) eqn:Elt; cbn [fst snd].
    + exists (length l). split; [|split].
      * rewrite nth_error_app2, Nat.sub_diag by lia. reflexivity.
      * intros t Hin. apply in_app_or in Hin. destruct Hin as [Hin|[<-|[]]].
        -- destruct (PrimFloat.ltb scx (snd t)) eqn:E; [|reflexivity].
           rewrite <- (Hbeat t Hin). symmetry.
           eapply float_ltb_trans; eauto.
        -- cbn [snd]. apply float_ltb_irrefl.
      * intros j t Hj Hnth. rewrite nth_error_app1 in Hnth by exact Hj.
        apply nth_error_In in Hnth.
        destruct (PrimFloat.eqb (snd t) scx) eqn:E; [|reflexivity].
        rewrite <- (Hbeat t Hnth). symmetry.
        eapply float_ltb_eqb; eauto.
    + destruct opt as [[g sq]|].
      * destruct IH as [i [Hnth [Hb Heq]]].
        assert (Hi : (i < length l)%nat)
          by (apply nth_error_Some; rewrite Hnth; discriminate).
        exists i. split; [|split].
        -- rewrite nth_error_app1 by exact Hi. exact Hnth.
        -- intros t Hin. apply in_app_or in Hin.
           destruct Hin as [Hin|[<-|[]]]; [auto | exact Elt].
        -- intros j t Hj Hn. rewrite nth_error_app1 in Hn by lia. eauto.
      * destruct IH as [-> Hb]. split; [reflexivity|].
        intros t Hin. apply in_app_or in Hin.
        destruct Hin as [Hin|[<-|[]]]; [auto | exact Elt].
Qed.

(** When some move exists, the selection returns one entry of the scored
    list, with its state marked as done: no entry has a greater score and
    no earlier entry has an equal one. *)
Lemma select_chosen
      (heuristic : BackgammonGame -> player -> phase -> float)
      (randint : nat -> Z) (gs : BackgammonGame) (dice_tuple : list Z)
      (ai_player : player) (drawn : nat) :
  let outs :=
    generate_possible_next_states_with_sequences gs dice_tuple ai_player in
  let scored := fst (score_outcomes heuristic randint ai_player outs drawn) in
  let r := select_ai_move_minimax heuristic randint gs dice_tuple ai_player
                                  drawn in
  no_move_outcome outs = false ->
  exists i g sc,
    nth_error scored i = Some (g, fst (fst r), sc) /\
    snd (fst r) = turn_done g /\
    (forall t, In t scored -> PrimFloat.ltb sc (snd t) = false) /\
    (forall j t, (j < i)%nat -> nth_error scored j = Some t ->
                 PrimFloat.eqb (snd t) sc = false).
Proof.
  cbv zeta. intros Hno. unfold select_ai_move_minimax. rewrite Hno.
  pose proof (score_outcomes_scored_from
                heuristic randint ai_player
                (generate_possible_next_states_with_sequences
                   gs dice_tuple ai_player) drawn) as Hall.
  destruct (score_outcomes heuristic randint ai_player
              (generate_possible_next_states_with_sequences
                 gs dice_tuple ai_player) drawn) as [scored drawn1].
  cbn [fst] in *.
  pose proof (pick_best_spec scored) as Hpick.
  destruct (snd (pick_best scored)) as [[g sq]|].
  - destruct Hpick as (i & sc & Hnth & Hb & Heq).
    exists i, g, sc. cbn [fst snd]. repeat split; auto.
  - destruct scored as [|[[g sq] sc] rest].
    + inversion Hall as [Houts|]; subst.
      rewrite <- Houts in Hno. discriminate.
    + exists 0%nat, g, sc. cbn [fst snd nth_error]. repeat split; auto.
      * intros t Hin.
        destruct (PrimFloat.ltb sc (snd t)) eqn:E; [|reflexivity].
        rewrite <- (Hpick t Hin). symmetry.
        eapply float_ltb_neg_infinity; eauto.
      * intros j t Hj. lia.
Qed.

(** C9: the selection scores every enumerated outcome by the sampled
    search with the opponent to move, [ai_player] maximizing and depth
    [MAX_DEPTH - 1], and returns the outcome whose score no other score
    exceeds, the first such outcome when scores are equal; when the
    enumeration yields no move, as it does when no die of the roll has a
    legal single move, it returns the empty sequence and the input
    state. *)
Theorem select_returns_first_greatest
        (heuristic : BackgammonGame -> player -> phase -> float)
        (randint : nat -> Z) (gs : BackgammonGame) (dice_tuple : list Z)
        (ai_player : player) (drawn : nat) :
  let outs :=
    generate_possible_next_states_with_sequences gs dice_tuple ai_player in
  let scored := fst (score_outcomes heuristic randint ai_player outs drawn) in
  let r := select_ai_move_minimax heuristic randint gs dice_tuple ai_player
                                  drawn in
  (no_move_outcome outs = true -> fst (fst r) = [] /\ snd (fst r) = gs) /\
  ((forall d, In d dice_tuple ->
              _get_single_moves_for_die ai_player d gs = []) ->
   fst (fst r) = [] /\ snd (fst r) = gs) /\
  (no_move_outcome outs = false ->
   Forall2 (scored_from heuristic randint ai_player) outs scored /\
   exists i g sc,
     nth_error scored i = Some (g, fst (fst r), sc) /\
     snd (fst r) = turn_done g /\
     (forall t, In t scored -> PrimFloat.ltb sc (snd t) = false) /\
     (forall j t, (j < i)%nat -> nth_error scored j = Some t ->
                  PrimFloat.eqb (snd t) sc = false)).
Proof.
  cbv zeta. split; [|split].
  - intros Hno. unfold select_ai_move_minimax. rewrite Hno.
    split; reflexivity.
  - intros Hnone. unfold select_ai_move_minimax.
    rewrite no_playable_die_no_move by exact Hnone. split; reflexivity.
  - intros Hno. split.
    + apply score_outcomes_scored_from.
    + apply (select_chosen heuristic randint gs dice_tuple ai_player drawn).
      exact Hno.
Qed.

Lemma Forall2_nth_error {A B : Type} (R : A -> B -> Prop) (l : list A)
      (l' : list B) (i : nat) (y : B) :
  Forall2 R l l' -> nth_error l' i = Some y ->
  exists x, nth_error l i = Some x /\ R x y.
Proof.
  intros H. revert i. induction H as [|a b l l' Hab _ IH]; intros i.
  - destruct i; discriminate.
  - destruct i as [|i]; cbn [nth_error].
    + intros [= <-]. exists a. split; [reflexivity | exact Hab].
    + apply IH.
Qed.

(** C10: a non-empty returned sequence comes with a state whose dice pool
    and legal-move cache are empty and whose board, bars, offs and player
    to move are those of the enumerated outcome that carries the
    sequence; when the enumeration yields no move, as it does when no die
    of the roll has a legal single move, the returned state is the input
    state with every field as it was, its dice included. *)
Theorem select_result_state
        (heuristic : BackgammonGame -> player -> phase -> float)
        (randint : nat -> Z) (gs : BackgammonGame) (dice_tuple : list Z)
        (ai_player : player) (drawn : nat) :
  let outs :=
    generate_possible_next_states_with_sequences gs dice_tuple ai_player in
  let r := select_ai_move_minimax heuristic randint gs dice_tuple ai_player
                                  drawn in
  let sequence := fst (fst r) in
  let state := snd (fst r) in
  (sequence <> [] ->
   dice state = [] /\ available_moves state = [] /\
   exists i s,
     nth_error outs i = Some (s, sequence) /\
     board state = board s /\
     white_bar state = white_bar s /\ black_bar state = black_bar s /\
     white_off state = white_off s /\ black_off state = black_off s /\
     current_player state = current_player s) /\
  (no_move_outcome outs = true ->
   sequence = [] /\ state = gs /\ dice state = dice gs) /\
  ((forall d, In d dice_tuple ->
              _get_single_moves_for_die ai_player d gs = []) ->
   sequence = [] /\ state = gs /\ dice state = dice gs).
Proof.
  cbv zeta. split; [|split].
  - intros Hseq.
    destruct (no_move_outcome
                (generate_possible_next_states_with_sequences
                   gs dice_tuple ai_player)) eqn:Hno.
    + exfalso. apply Hseq. unfold select_ai_move_minimax.
      rewrite Hno. reflexivity.
    + destruct (select_chosen heuristic randint gs dice_tuple ai_player drawn
                              Hno) as (i & g & sc & Hnth & Hst & _).
      rewrite Hst. split; [reflexivity|]. split; [reflexivity|].
      destruct (Forall2_nth_error
                  _ _ _ i _
                  (score_outcomes_scored_from
                     heuristic randint ai_player
                     (generate_possible_next_states_with_sequences
                        gs dice_tuple ai_player) drawn) Hnth)
        as ([s sq] & Hout & k & Hfrom).
      cbv zeta in Hfrom. cbn [fst snd] in Hfrom.
      pose proof (minimax_keeps_position
                    heuristic randint (MAX_DEPTH - 1) s (opponent ai_player)
                    ai_player neg_infinity infinity k) as Hpos.
      remember (get_minimax_score_sampled
                  heuristic randint (MAX_DEPTH - 1) s (opponent ai_player)
                  ai_player neg_infinity infinity k) as res eqn:Hres.
      clear Hres. injection Hfrom as Hg Hsq _.
      exists i, s. rewrite Hsq. split; [exact Hout|].
      rewrite <- Hg in Hpos. unfold board_tuple in Hpos.
      injection Hpos as Hb Hwb Hbb Hwo Hbo Hcp.
      unfold turn_done. cbn [board white_bar black_bar white_off black_off
                                   current_player set_available_moves set_dice].
      repeat split; assumption.
  - intros Hno. unfold select_ai_move_minimax. rewrite Hno.
    repeat split; reflexivity.
  - intros Hnone. unfold select_ai_move_minimax.
    rewrite no_playable_die_no_move by exact Hnone.
    repeat split; reflexivity.
Qed.

(** The selection on [last_checker_position] with a double one: the one
    outcome bears the last checker off; the returned state has the
    fifteenth checker off, the winner set by the search and no dice. *)
Example select_bears_off_last_checker :
  let r := select_ai_move_minimax (fun _ _ _ => 0%float) (fun _ => 1)
                                  (set_dice last_checker_position [1; 1; 1; 1])
                                  [1; 1; 1; 1] W 0 in
  fst (fst r) = [(Pt 24, Off)] /\
  white_off (snd (fst r)) = 15 /\ winner (snd (fst r)) = Won W /\
  dice (snd (fst r)) = [] /\ snd r = 0%nat.
Proof. vm_compute. repeat split. Qed.

(** No legal move: the last checker stands on point 1, a double six is
    rolled and point 7 is held by two opposing checkers.  The state comes
    back as it went in, dice included. *)
Example select_without_legal_move :
  let gs := mkGame [ 1; 0; 0; 0; 0; 0; -2; -2; 0; 0; 0; 0;
                     0; 0; 0; 0; 0; 0; 0; 0; 0; 0; 0; -11 ]
                   0 0 14 0 NoWinner W [6; 6; 6; 6] [] ENDGAME in
  select_ai_move_minimax (fun _ _ _ => 0%float) (fun _ => 1) gs
                         [6; 6; 6; 6] W 0 = ([], gs, 0%nat).
Proof. vm_compute. reflexivity. Qed.

(** ** The simulation primitive [make_move_base_logic] *)

(** [make_move_base_logic] writes the board, the bars and the offs and
    nothing else. *)
Lemma base_logic_turn_fields (gs : BackgammonGame) (pl : player)
      (src dst : endpoint) :
  same_turn_fields (snd (make_move_base_logic gs pl src dst)) gs.
Proof.
  assert (Hland : forall g d, same_turn_fields (land pl g d) g).
  { intros g d. unfold land.
    destruct ((point (board g) d * p_sign pl <? 0)
              && (Z.abs (point (board g) d) =? 1));
      destruct pl; repeat split. }
  assert (Hbar : forall q g v, same_turn_fields (set_bar q g v) g)
    by (intros [] g v; repeat split).
  assert (Hoff : forall q g v, same_turn_fields (set_off q g v) g)
    by (intros [] g v; repeat split).
  assert (Hboard : forall g b, same_turn_fields (set_board g b) g)
    by (intros g b; repeat split).
  assert (Htrans : forall a b c, same_turn_fields a b ->
                                 same_turn_fields b c -> same_turn_fields a c).
  { unfold same_turn_fields. intros a b c (?&?&?&?&?) (?&?&?&?&?).
    repeat split; congruence. }
  assert (Hrefl : same_turn_fields gs gs) by (repeat split).
  unfold make_move_base_logic.
  destruct src as [| |s].
  - destruct (bar_of pl gs >? 0); [|exact Hrefl].
    destruct dst as [| |d]; cbn [snd].
    + eapply Htrans; [apply Hbar|]. apply Hbar.
    + eapply Htrans; [apply Hoff|]. apply Hbar.
    + destruct ((1 <=? d) && (d <=? 24)).
      * destruct ((_ <? 0) && (_ >=? 2)); cbn [snd].
        -- apply Hbar.
        -- eapply Htrans; [apply Hland|]. apply Hbar.
      * cbn [snd]. eapply Htrans; [apply Hbar|]. apply Hbar.
  - exact Hrefl.
  - destruct ((1 <=? s) && (s <=? 24)); [|exact Hrefl].
    destruct (point (board gs) s * p_sign pl <=? 0); [exact Hrefl|].
    destruct dst as [| |d]; cbn [snd].
    + eapply Htrans; [apply Hboard|]. apply Hboard.
    + eapply Htrans; [apply Hoff|]. apply Hboard.
    + destruct ((1 <=? d) && (d <=? 24)).
      * destruct ((_ <? 0) && (_ >=? 2)); cbn [snd].
        -- eapply Htrans; [apply Hboard|]. apply Hboard.
        -- eapply Htrans; [apply Hland|]. apply Hboard.
      * cbn [snd]. eapply Htrans; [apply Hboard|]. apply Hboard.
Qed.

(** On a generated move [make_move_base_logic] returns [True] and leaves
    the object [played] describes. *)
Lemma base_logic_generated_played (gs : BackgammonGame) (pl : player)
      (die : Z) (src dst : endpoint) :
  length (board gs) = 24%nat ->
  In (src, dst) (_get_single_moves_for_die pl die gs) ->
  make_move_base_logic gs pl src dst = (true, played pl gs src dst).
Proof.
  intros Hl Hin. apply generated_move_cases in Hin.
  destruct Hin as [(-> & Hbar & e & -> & He & Hal)
                  |(s & -> & Hs & Hown & [->|(d & -> & Hd & Hal)])];
    unfold make_move_base_logic, played, lift.
  - destruct (Z.gtb_spec (bar_of pl gs) 0); [|lia].
    destruct (Z.leb_spec 1 e); destruct (Z.leb_spec e 24); try lia.
    cbn [andb]. rewrite board_set_bar.
    rewrite allowed_not_blocked by auto. reflexivity.
  - destruct (Z.leb_spec 1 s); destruct (Z.leb_spec s 24); try lia.
    cbn [andb]. unfold owns in Hown.
    destruct (Z.leb_spec (point (board gs) s * p_sign pl) 0); [lia|].
    destruct pl; reflexivity.
  - destruct (Z.leb_spec 1 s); destruct (Z.leb_spec s 24); try lia.
    cbn [andb]. pose proof Hown as Hown'. unfold owns in Hown'.
    destruct (Z.leb_spec (point (board gs) s * p_sign pl) 0); [lia|].
    destruct (Z.leb_spec 1 d); destruct (Z.leb_spec d 24); try lia.
    cbn [andb]. proj_simpl.
    rewrite (lifted_not_blocked pl gs s d) by auto. reflexivity.
Qed.

Lemma land_bars_offs (pl : player) (gs : BackgammonGame) (d : Z) :
  bar_of pl (land pl gs d) = bar_of pl gs /\
  (bar_of (opponent pl) (land pl gs d) = bar_of (opponent pl) gs \/
   bar_of (opponent pl) (land pl gs d) = bar_of (opponent pl) gs + 1) /\
  white_off (land pl gs d) = white_off gs /\
  black_off (land pl gs d) = black_off gs.
Proof.
  unfold land.
  destruct ((point (board gs) d * p_sign pl <? 0)
            && (Z.abs (point (board gs) d) =? 1));
    destruct pl; cbn; auto.
Qed.

Lemma played_well_formed (gs : BackgammonGame) (pl : player) (die : Z)
      (src dst : endpoint) :
  well_formed gs ->
  In (src, dst) (_get_single_moves_for_die pl die gs) ->
  well_formed (played pl gs src dst).
Proof.
  intros (Hl & Hwb & Hbb & Hwo & Hbo) Hin.
  pose proof (base_logic_generated gs pl die src dst Hl Hin) as (_ & Hl' & _).
  rewrite (base_logic_generated_played gs pl die src dst Hl Hin) in Hl'.
  cbn [snd] in Hl'.
  apply generated_move_cases in Hin.
  split; [exact Hl'|].
  destruct Hin as [(-> & Hbar & e & -> & He & Hal)
                  |(s & -> & Hs & Hown & [->|(d & -> & Hd & Hal)])];
    unfold played, lift.
  - pose proof (land_bars_offs pl (set_bar pl gs (bar_of pl gs - 1)) e)
      as (H1 & H2 & H3 & H4).
    destruct pl; cbn [bar_of opponent set_bar white_bar black_bar white_off
                             black_off] in *; lia.
  - destruct pl; cbn; lia.
  - pose proof (land_bars_offs
                  pl (set_board gs (set_point (board gs) s
                                              (point (board gs) s - p_sign pl)))
                  d) as (H1 & H2 & H3 & H4).
    destruct pl; cbn [bar_of opponent set_board white_bar black_bar white_off
                             black_off] in *; lia.
Qed.

(** X1: a move the single-move generator returns is accepted by the
    simulation primitive, which keeps both colours' checker totals, the
    24 points and the non-negative bar and off counts, and writes neither
    the player to move, the dice, the winner nor the move cache. *)
Theorem generated_move_is_sound (gs : BackgammonGame) (pl : player)
        (die : Z) (src dst : endpoint) :
  well_formed gs ->
  In (src, dst) (_get_single_moves_for_die pl die gs) ->
  let r := make_move_base_logic gs pl src dst in
  fst r = true /\
  well_formed (snd r) /\
  get_total_checker_count (snd r) = get_total_checker_count gs /\
  same_turn_fields (snd r) gs.
Proof.
  intros Hwf Hin. cbv zeta. pose proof Hwf as (Hl & _).
  pose proof (base_logic_generated gs pl die src dst Hl Hin) as (Hok & _ & Ht).
  split; [exact Hok|]. split.
  - rewrite (base_logic_generated_played gs pl die src dst Hl Hin).
    cbn [snd]. eapply played_well_formed; eauto.
  - split; [apply totals_eq; apply Ht | apply base_logic_turn_fields].
Qed.

Lemma generated_move_is_sound_witness :
  let r := make_move_base_logic initial_game W (Pt 1) (Pt 4) in
  fst r = true /\
  well_formed (snd r) /\
  get_total_checker_count (snd r) = get_total_checker_count initial_game /\
  same_turn_fields (snd r) initial_game.
Proof.
  apply (generated_move_is_sound initial_game W 3 (Pt 1) (Pt 4)).
  - unfold well_formed; simpl; repeat split; lia.
  - vm_compute. tauto.
Defined.


Lemma set_board_same (gs : BackgammonGame) : set_board gs (board gs) = gs.
Proof. destruct gs; reflexivity. Qed.





(** ** The forced-die resolver on any roll *)

Lemma mem_Z_In (x : Z) (l : list Z) : mem_Z x l = true <-> In x l.
Proof.
  unfold mem_Z. rewrite existsb_exists. split.
  - intros [y [Hy E]]. apply Z.eqb_eq in E. now subst.
  - intros H. exists x. split; [exact H | apply Z.eqb_refl].
Qed.

Lemma insert_desc_unique_in (x y : Z) (l : list Z) :
  In y l -> In y (insert_desc_unique x l).
Proof.
  induction l as [|z t IH]; cbn [insert_desc_unique In]; [intros []|].
  destruct (x =? z); [auto|]. destruct (x >? z); cbn [In]; [auto|].
  intros [->|H]; auto.
Qed.

Lemma insert_desc_unique_sorted (x : Z) (l : list Z) :
  StronglySorted Z.gt l -> StronglySorted Z.gt (insert_desc_unique x l).
Proof.
  induction l as [|z t IH]; intros Hs; cbn [insert_desc_unique].
  - repeat constructor.
  - destruct (Z.eqb_spec x z); [exact Hs|].
    inversion Hs as [|? ? Ht Hz]; subst.
    destruct (Z.gtb_spec x z).
    + constructor; [exact Hs|]. constructor; [lia|].
      eapply Forall_impl; [|exact Hz]. cbv beta. intros a Ha. lia.
    + constructor; [apply IH; exact Ht|].
      apply Forall_forall. intros a Ha. apply in_insert_desc_unique in Ha.
      destruct Ha as [->|Ha]; [lia|].
      rewrite Forall_forall in Hz. apply Hz. exact Ha.
Qed.

Lemma sorted_set_desc_sorted (l : list Z) :
  StronglySorted Z.gt (sorted_set_desc l).
Proof.
  induction l as [|x t IH]; cbn [sorted_set_desc fold_right]; [constructor|].
  apply insert_desc_unique_sorted. exact IH.
Qed.

Lemma filter_sorted (f : Z -> bool) (l : list Z) :
  StronglySorted Z.gt l -> StronglySorted Z.gt (filter f l).
Proof.
  induction 1 as [|x t Ht IH Hx]; cbn [filter]; [constructor|].
  destruct (f x); [|exact IH].
  constructor; [exact IH|].
  apply Forall_forall. intros a Ha. apply filter_In in Ha.
  rewrite Forall_forall in Hx. apply Hx. tauto.
Qed.

(** What the resolver returns is nothing, all the individually playable
    values of the roll, or one of them. *)
Lemma strictly_playable_shape (gs : BackgammonGame) (dice_list : list Z)
      (pl : player) :
  let ip := filter (fun die => nonempty (_get_single_moves_for_die pl die gs))
                   (sorted_set_desc dice_list) in
  let r := _get_strictly_playable_dice gs dice_list pl in
  r = [] \/ r = ip \/ exists x, r = [x] /\ In x ip.
Proof.
  cbv zeta. unfold _get_strictly_playable_dice.
  destruct dice_list as [|d0 dr]; [left; reflexivity|].
  set (ip := filter (fun die => nonempty (_get_single_moves_for_die pl die gs))
                    (sorted_set_desc (d0 :: dr))).
  destruct ip as [|i0 ir] eqn:Eip; [left; reflexivity|].
  rewrite <- Eip.
  destruct dr as [|d1 [|d2 dr]]; try (right; left; reflexivity).
  destruct (negb (d0 =? d1)); [|right; left; reflexivity].
  destruct (mem_Z (Z.max d0 d1) ip) eqn:El;
    destruct (mem_Z (Z.min d0 d1) ip) eqn:Es; cbn [andb negb].
  - destruct (negb _ && true).
    + right; right. exists (Z.max d0 d1). split; [reflexivity|].
      now apply mem_Z_In.
    + right; left; reflexivity.
  - right; right. exists (Z.max d0 d1). split; [reflexivity|].
    now apply mem_Z_In.
  - right; right. exists (Z.min d0 d1). split; [reflexivity|].
    now apply mem_Z_In.
  - left; reflexivity.
Qed.

Lemma strictly_playable_in (gs : BackgammonGame) (dice_list : list Z)
      (pl : player) (d : Z) :
  In d (_get_strictly_playable_dice gs dice_list pl) ->
  In d dice_list /\ _get_single_moves_for_die pl d gs <> [].
Proof.
  intros Hd.
  assert (Hip : forall x,
             In x (filter (fun die =>
                             nonempty (_get_single_moves_for_die pl die gs))
                          (sorted_set_desc dice_list)) ->
             In x dice_list /\ _get_single_moves_for_die pl x gs <> []).
  { intros x Hx. apply filter_In in Hx. destruct Hx as [Hx Hne].
    split; [now apply in_sorted_set_desc | now apply nonempty_true]. }
  destruct (strictly_playable_shape gs dice_list pl) as [E|[E|(x & E & Hx)]];
    cbv zeta in *; rewrite E in Hd.
  - destruct Hd.
  - apply Hip. exact Hd.
  - destruct Hd as [<-|[]]. apply Hip. exact Hx.
Qed.

(** X3: whatever the roll, every value the forced-die resolver returns is
    a value of the roll that has a legal single move from the state, and
    the values come in strictly descending order, none twice. *)
Theorem strictly_playable_sound (gs : BackgammonGame) (dice_list : list Z)
        (pl : player) :
  let r := _get_strictly_playable_dice gs dice_list pl in
  (forall d, In d r -> In d dice_list /\ individually_playable pl gs d) /\
  StronglySorted Z.gt r /\ NoDup r.
Proof.
  cbv zeta.
  assert (Hs : StronglySorted Z.gt
                 (_get_strictly_playable_dice gs dice_list pl)).
  { destruct (strictly_playable_shape gs dice_list pl) as [E|[E|(x & E & Hx)]];
      cbv zeta in *; rewrite E.
    - constructor.
    - apply filter_sorted. apply sorted_set_desc_sorted.
    - repeat constructor. }
  split; [intros d Hd; apply strictly_playable_in; exact Hd|].
  split; [exact Hs|].
  induction Hs as [|x t Ht IH Hx]; constructor; [|exact IH].
  intros Hin. rewrite Forall_forall in Hx. specialize (Hx x Hin). lia.
Qed.

(** ** The legal-move set *)

Lemma endpoint_eqb_eq (a b : endpoint) : endpoint_eqb a b = true <-> a = b.
Proof.
  destruct a, b; cbn [endpoint_eqb]; split; try congruence; try reflexivity.
  - intros H. apply Z.eqb_eq in H. now subst.
  - intros [= ->]. apply Z.eqb_refl.
Qed.

Lemma move_eqb_eq (a b : move) : move_eqb a b = true <-> a = b.
Proof.
  destruct a as [a1 a2], b as [b1 b2]. unfold move_eqb. cbn [fst snd].
  rewrite andb_true_iff, !endpoint_eqb_eq. split.
  - intros [-> ->]. reflexivity.
  - intros [= -> ->]. auto.
Qed.

Lemma dedup_moves_in (m : move) (l : list move) :
  In m (dedup_moves l) <-> In m l.
Proof.
  split; [apply in_dedup_moves|].
  induction l as [|x t IH]; cbn [dedup_moves In]; [auto|].
  destruct (existsb (move_eqb x) (dedup_moves t)) eqn:E.
  - intros [<-|H]; [|auto].
    apply existsb_exists in E. destruct E as [y [Hy Heq]].
    apply move_eqb_eq in Heq. now subst.
  - intros [<-|H]; [left; reflexivity | right; auto].
Qed.

Lemma dedup_moves_NoDup (l : list move) : NoDup (dedup_moves l).
Proof.
  induction l as [|x t IH]; cbn [dedup_moves]; [constructor|].
  destruct (existsb (move_eqb x) (dedup_moves t)) eqn:E; [exact IH|].
  constructor; [|exact IH].
  intros Hin. assert (Ht : existsb (move_eqb x) (dedup_moves t) = true).
  { apply existsb_exists. exists x. split; [exact Hin|].
    now apply move_eqb_eq. }
  congruence.
Qed.

(** X4: [get_legal_actions] lists, each once, exactly the single moves of
    the values the forced-die resolver allows for the current player and
    dice pool; each of them is a generated move of a value that is in the
    pool; with an empty pool the list is empty. *)
Theorem legal_actions_exact (gs : BackgammonGame) :
  let pl := current_player gs in
  let l := get_legal_actions gs in
  NoDup l /\
  (forall m, In m l <->
             exists die,
               In die (_get_strictly_playable_dice gs (dice gs) pl) /\
               In m (_get_single_moves_for_die pl die gs)) /\
  (forall m, In m l ->
             exists die, In die (dice gs) /\
                         In m (_get_single_moves_for_die pl die gs)) /\
  (dice gs = [] -> l = []).
Proof.
  cbv zeta.
  assert (Hiff : forall m,
             In m (get_legal_actions gs) <->
             exists die,
               In die (_get_strictly_playable_dice gs (dice gs)
                                                   (current_player gs)) /\
               In m (_get_single_moves_for_die (current_player gs) die gs)).
  { intros m. unfold get_legal_actions.
    destruct (dice gs) as [|d0 dr] eqn:Ed.
    - cbn [_get_strictly_playable_dice In]. split; [intros [] | intros [? [[] _]]].
    - rewrite dedup_moves_in, in_flat_map. reflexivity. }
  split; [|split; [exact Hiff|split]].
  - unfold get_legal_actions. destruct (dice gs); [constructor|].
    apply dedup_moves_NoDup.
  - intros m Hm. apply Hiff in Hm. destruct Hm as [die [Hd Hm]].
    exists die. split; [|exact Hm].
    apply strictly_playable_in in Hd. tauto.
  - intros E. unfold get_legal_actions. rewrite E. reflexivity.
Qed.

(** ** Moves and their dice *)

(** Where a generated move goes, in terms of the die. *)
Lemma generated_move_geometry (pl : player) (die : Z) (gs : BackgammonGame)
      (src dst : endpoint) :
  In (src, dst) (_get_single_moves_for_die pl die gs) ->
  (src = Bar /\ dst = Pt (entry_point_of pl die) /\
   1 <= entry_point_of pl die <= 24) \/
  (exists s, src = Pt s /\ 1 <= s <= 24 /\
             ((dst = Pt (match pl with W => s + die | B => s - die end) /\
               1 <= match pl with W => s + die | B => s - die end <= 24) \/
              (dst = Off /\ _check_all_pieces_home pl gs = true /\
               _can_bear_off pl s die gs = true))).
Proof.
  destruct (Z_le_gt_dec (bar_of pl gs) 0) as [Hle|Hgt].
  - rewrite single_moves_no_bar by auto. rewrite in_flat_map.
    intros [p [Hp Hin]]. apply in_range in Hp. right. exists p.
    pose proof (in_moves_from_point _ _ _ _ _ Hin) as [Hsrc _].
    cbn [fst] in Hsrc. split; [auto|]. split; [lia|].
    unfold moves_from_point in Hin.
    destruct (point (board gs) p * p_sign pl >? 0); [|destruct Hin].
    set (dest := match pl with W => p + die | B => p - die end) in *.
    destruct (Z.leb_spec 1 dest); destruct (Z.leb_spec dest 24);
      cbn [andb] in Hin.
    1: { destruct (is_allowed (point (board gs) dest) (p_sign pl));
           [|destruct Hin].
         destruct Hin as [Heq|[]]. injection Heq as _ <-.
         left. split; [reflexivity | lia]. }
    all: destruct (_check_all_pieces_home pl gs) eqn:Eh; [|destruct Hin];
      destruct (_can_bear_off pl p die gs) eqn:Ec; [|destruct Hin];
      destruct Hin as [Heq|[]]; injection Heq as _ <-; right; auto.
  - unfold _get_single_moves_for_die.
    destruct (Z.gtb_spec (bar_of pl gs) 0); [|lia].
    fold (entry_point_of pl die).
    destruct (Z.leb_spec 1 (entry_point_of pl die));
      destruct (Z.leb_spec (entry_point_of pl die) 24); cbn [andb];
      try (intros []).
    destruct (is_allowed _ _); [|intros []].
    intros [Heq|[]]. injection Heq as <- <-.
    left. repeat split; lia.
Qed.

(** The nominal die of a generated move. *)
Lemma nominal_die_generated (gs : BackgammonGame) (pl : player)
      (die : Z) (src dst : endpoint) :
  1 <= die <= 6 ->
  In (src, dst) (_get_single_moves_for_die pl die gs) ->
  match dst with
  | Off => exists s, src = Pt s /\
                     _get_die_for_move src dst pl = Some (dist_to_off pl s) /\
                     1 <= dist_to_off pl s <= die
  | _ => _get_die_for_move src dst pl = Some die
  end.
Proof.
  intros Hdie Hin. apply generated_move_geometry in Hin.
  destruct Hin as [(-> & -> & He)
                  |(s & -> & Hs & [[-> Hd]|(-> & _ & Hcbo)])].
  - unfold _get_die_for_move, entry_point_of in *.
    destruct pl.
    + destruct (Z.leb_spec 1 die); destruct (Z.leb_spec die 6); try lia.
      reflexivity.
    + replace (25 - (25 - die)) with die by lia.
      destruct (Z.leb_spec 1 die); destruct (Z.leb_spec die 6); try lia.
      reflexivity.
  - unfold _get_die_for_move. destruct pl.
    + replace (s + die - s) with die by lia.
      destruct (Z.leb_spec 1 die); destruct (Z.leb_spec die 6); try lia.
      reflexivity.
    + replace (s - (s - die)) with die by lia.
      destruct (Z.leb_spec 1 die); destruct (Z.leb_spec die 6); try lia.
      reflexivity.
  - apply can_bear_off_spec in Hcbo. destruct Hcbo as [Hhome Hd].
    exists s. split; [reflexivity|].
    unfold _get_die_for_move, in_home, dist_to_off in *. destruct pl.
    + destruct (Z.leb_spec 19 s); destruct (Z.leb_spec s 24); try lia.
      cbn [andb negb].
      destruct (Z.leb_spec 1 (25 - s)); destruct (Z.leb_spec (25 - s) 6);
        try lia.
      cbn [andb]. split; [reflexivity | lia].
    + destruct (Z.leb_spec 1 s); destruct (Z.leb_spec s 6); try lia.
      cbn [andb negb]. split; [reflexivity | lia].
Qed.

(** X5: the nominal die [_get_die_for_move] computes for a generated move
    is the die that generated it when the move stays on the board (an
    entry from the bar included), and the exact distance to off, which
    the die equals or exceeds, when the move bears off. *)
Theorem nominal_die_of_generated_move (gs : BackgammonGame) (pl : player)
        (die : Z) (src dst : endpoint) :
  1 <= die <= 6 ->
  In (src, dst) (_get_single_moves_for_die pl die gs) ->
  match dst with
  | Off => exists s, src = Pt s /\
                     _get_die_for_move src dst pl = Some (dist_to_off pl s) /\
                     1 <= dist_to_off pl s <= die
  | _ => _get_die_for_move src dst pl = Some die
  end.
Proof. exact (nominal_die_generated gs pl die src dst). Qed.

Lemma nominal_die_of_generated_move_witness :
  exists s, Pt 24 = Pt s /\
            _get_die_for_move (Pt 24) Off W = Some (dist_to_off W s) /\
            1 <= dist_to_off W s <= 6.
Proof.
  apply (nominal_die_of_generated_move overshoot_position W 6 (Pt 24) Off).
  - lia.
  - vm_compute. tauto.
Defined.

(** ** The rules read the checkers only *)

Lemma same_checkers_fields (a b : BackgammonGame) :
  same_checkers a b ->
  board a = board b /\ (forall q, bar_of q a = bar_of q b) /\
  (forall q, off_of q a = off_of q b).
Proof.
  intros (Hb & Hwb & Hbb & Hwo & Hbo). split; [exact Hb|].
  split; intros []; assumption.
Qed.

Lemma check_all_pieces_home_same (pl : player) (a b : BackgammonGame) :
  same_checkers a b ->
  _check_all_pieces_home pl a = _check_all_pieces_home pl b.
Proof.
  intros H. apply same_checkers_fields in H. destruct H as (Hb & Hbar & _).
  unfold _check_all_pieces_home. rewrite Hb, Hbar. reflexivity.
Qed.

Lemma can_bear_off_same (pl : player) (pos die : Z) (a b : BackgammonGame) :
  same_checkers a b -> _can_bear_off pl pos die a = _can_bear_off pl pos die b.
Proof.
  intros H. apply same_checkers_fields in H. destruct H as (Hb & _ & _).
  unfold _can_bear_off. rewrite Hb. reflexivity.
Qed.

Lemma single_moves_same (pl : player) (die : Z) (a b : BackgammonGame) :
  same_checkers a b ->
  _get_single_moves_for_die pl die a = _get_single_moves_for_die pl die b.
Proof.
  intros H. pose proof (check_all_pieces_home_same pl a b H) as Hh.
  pose proof (fun pos => can_bear_off_same pl pos die a b H) as Hc.
  apply same_checkers_fields in H. destruct H as (Hb & Hbar & _).
  unfold _get_single_moves_for_die. rewrite Hb, Hbar, Hh.
  destruct (bar_of pl b >? 0); [reflexivity|].
  apply flat_map_ext. intros pos. rewrite Hc. reflexivity.
Qed.

Lemma same_checkers_refl (a : BackgammonGame) : same_checkers a a.
Proof. repeat split. Qed.

Lemma same_checkers_sym (a b : BackgammonGame) :
  same_checkers a b -> same_checkers b a.
Proof. intros (?&?&?&?&?). repeat split; congruence. Qed.

Lemma same_checkers_trans (a b c : BackgammonGame) :
  same_checkers a b -> same_checkers b c -> same_checkers a c.
Proof. intros (?&?&?&?&?) (?&?&?&?&?). repeat split; congruence. Qed.

Lemma same_checkers_set_board (a b : BackgammonGame) (x : list Z) :
  same_checkers a b -> same_checkers (set_board a x) (set_board b x).
Proof. intros (?&?&?&?&?). repeat split; assumption. Qed.

Lemma same_checkers_set_bar (q : player) (a b : BackgammonGame) (v : Z) :
  same_checkers a b -> same_checkers (set_bar q a v) (set_bar q b v).
Proof. intros (?&?&?&?&?). destruct q; repeat split; assumption. Qed.

Lemma same_checkers_set_off (q : player) (a b : BackgammonGame) (v : Z) :
  same_checkers a b -> same_checkers (set_off q a v) (set_off q b v).
Proof. intros (?&?&?&?&?). destruct q; repeat split; assumption. Qed.

Lemma same_checkers_land (pl : player) (a b : BackgammonGame) (d : Z) :
  same_checkers a b -> same_checkers (land pl a d) (land pl b d).
Proof.
  intros H. pose proof (same_checkers_fields a b H) as (Hb & Hbar & _).
  unfold land. rewrite Hb, !board_set_bar, Hb, Hbar.
  destruct ((point (board b) d * p_sign pl <? 0)
            && (Z.abs (point (board b) d) =? 1)).
  - apply same_checkers_set_board. apply same_checkers_set_bar. exact H.
  - apply same_checkers_set_board. exact H.
Qed.

(** [make_move_base_logic] on two objects that hold the same checkers
    answers the same and leaves the same checkers. *)
Lemma base_logic_same (pl : player) (src dst : endpoint)
      (a b : BackgammonGame) :
  same_checkers a b ->
  fst (make_move_base_logic a pl src dst)
  = fst (make_move_base_logic b pl src dst) /\
  same_checkers (snd (make_move_base_logic a pl src dst))
                (snd (make_move_base_logic b pl src dst)).
Proof.
  intros H. pose proof (same_checkers_fields a b H) as (Hb & Hbar & Hoff).
  unfold make_move_base_logic. rewrite Hb, Hbar.
  destruct src as [| |s].
  - destruct (bar_of pl b >? 0); [|split; [reflexivity | exact H]].
    assert (H1 : same_checkers (set_bar pl a (bar_of pl b - 1))
                               (set_bar pl b (bar_of pl b - 1)))
      by (apply same_checkers_set_bar; exact H).
    pose proof (same_checkers_fields _ _ H1) as (Hb1 & Hbar1 & Hoff1).
    destruct dst as [| |d]; cbn [fst snd].
    + split; [reflexivity|]. rewrite Hbar1.
      apply same_checkers_set_bar. exact H1.
    + split; [reflexivity|]. rewrite Hoff1.
      apply same_checkers_set_off. exact H1.
    + destruct ((1 <=? d) && (d <=? 24)).
      * rewrite Hb1.
        destruct ((_ <? 0) && (_ >=? 2)); cbn [fst snd];
          (split; [reflexivity|]); [exact H1 | now apply same_checkers_land].
      * cbn [fst snd]. split; [reflexivity|]. rewrite Hbar1.
        apply same_checkers_set_bar. exact H1.
  - split; [reflexivity | exact H].
  - destruct ((1 <=? s) && (s <=? 24)); [|split; [reflexivity | exact H]].
    destruct (point (board b) s * p_sign pl <=? 0);
      [split; [reflexivity | exact H]|].
    set (x := set_point (board b) s (point (board b) s - p_sign pl)).
    assert (H1 : same_checkers (set_board a x) (set_board b x))
      by (apply same_checkers_set_board; exact H).
    pose proof (same_checkers_fields _ _ H1) as (Hb1 & Hbar1 & Hoff1).
    destruct dst as [| |d]; cbn [fst snd].
    + split; [reflexivity|]. rewrite Hb1.
      apply same_checkers_set_board. exact H1.
    + split; [reflexivity|]. rewrite Hoff1.
      apply same_checkers_set_off. exact H1.
    + destruct ((1 <=? d) && (d <=? 24)).
      * rewrite Hb1.
        destruct ((_ <? 0) && (_ >=? 2)); cbn [fst snd];
          (split; [reflexivity|]).
        -- apply same_checkers_set_board. exact H1.
        -- now apply same_checkers_land.
      * cbn [fst snd]. split; [reflexivity|]. rewrite Hb1.
        apply same_checkers_set_board. exact H1.
Qed.

Lemma existsb_ext_in {A : Type} (f g : A -> bool) (l : list A) :
  (forall x, In x l -> f x = g x) -> existsb f l = existsb g l.
Proof.
  induction l as [|x t IH]; intros H; cbn [existsb]; [reflexivity|].
  rewrite H by (left; reflexivity). f_equal. apply IH.
  intros y Hy; apply H; right; exact Hy.
Qed.

Lemma plays_then_same (pl : player) (x y : Z) (a b : BackgammonGame) :
  same_checkers a b -> plays_then a pl x y = plays_then b pl x y.
Proof.
  intros H. unfold plays_then, copy.
  rewrite (single_moves_same pl x a b H).
  apply existsb_ext_in. intros mv _.
  pose proof (base_logic_same pl (fst mv) (snd mv) a b H) as [Hok Hst].
  destruct (make_move_base_logic a pl (fst mv) (snd mv)) as [ok1 t1].
  destruct (make_move_base_logic b pl (fst mv) (snd mv)) as [ok2 t2].
  cbn [fst snd] in *. subst ok2.
  rewrite (single_moves_same pl y t1 t2 Hst). reflexivity.
Qed.

Lemma filter_ext_all {A : Type} (f g : A -> bool) (l : list A) :
  (forall x, f x = g x) -> filter f l = filter g l.
Proof.
  intros H. induction l as [|x t IH]; cbn [filter]; [reflexivity|].
  rewrite H, IH. reflexivity.
Qed.

Lemma strictly_playable_same (dice_list : list Z) (pl : player)
      (a b : BackgammonGame) :
  same_checkers a b ->
  _get_strictly_playable_dice a dice_list pl
  = _get_strictly_playable_dice b dice_list pl.
Proof.
  intros H. unfold _get_strictly_playable_dice.
  rewrite (filter_ext_all
             (fun die => nonempty (_get_single_moves_for_die pl die a))
             (fun die => nonempty (_get_single_moves_for_die pl die b)))
    by (intros die; rewrite (single_moves_same pl die a b H); reflexivity).
  destruct dice_list as [|d0 [|d1 dr]]; try reflexivity.
  rewrite !(plays_then_same pl _ _ a b H). reflexivity.
Qed.

Lemma legal_actions_same (a b : BackgammonGame) :
  same_checkers a b -> current_player a = current_player b ->
  dice a = dice b -> get_legal_actions a = get_legal_actions b.
Proof.
  intros H Hcp Hd. unfold get_legal_actions. rewrite Hcp, Hd.
  destruct (dice b); [reflexivity|].
  rewrite (strictly_playable_same _ _ a b H). f_equal.
  apply flat_map_ext. intros die. now apply single_moves_same.
Qed.

(** X6: the single moves of a die, the answer of the forced-die resolver
    and the legal-move set are functions of the checkers (board, bars,
    offs), the player and the dice: objects that agree on these get the
    same answers, whatever their winner, move cache or phase. *)
Theorem rules_read_checkers_only (a b : BackgammonGame) :
  same_checkers a b ->
  (forall pl die,
      _get_single_moves_for_die pl die a = _get_single_moves_for_die pl die b) /\
  (forall pl dice_list,
      _get_strictly_playable_dice a dice_list pl
      = _get_strictly_playable_dice b dice_list pl) /\
  (current_player a = current_player b -> dice a = dice b ->
   get_legal_actions a = get_legal_actions b).
Proof.
  intros H. split; [|split].
  - intros pl die. now apply single_moves_same.
  - intros pl dl. now apply strictly_playable_same.
  - intros Hcp Hd. now apply legal_actions_same.
Qed.

Lemma rules_read_checkers_only_witness :
  let b := roll_dice initial_game 3 1 in
  let a := set_winner (set_current_phase (set_available_moves b []) ENDGAME)
                      (Won B) in
  (winner a <> winner b /\ available_moves a <> available_moves b /\
   current_phase a <> current_phase b) /\
  (forall pl die,
      _get_single_moves_for_die pl die a = _get_single_moves_for_die pl die b) /\
  (forall pl dice_list,
      _get_strictly_playable_dice a dice_list pl
      = _get_strictly_playable_dice b dice_list pl) /\
  get_legal_actions a = get_legal_actions b /\
  get_legal_actions b <> [].
Proof.
  cbv zeta.
  split; [repeat split; vm_compute; discriminate|].
  destruct (rules_read_checkers_only
              (set_winner
                 (set_current_phase
                    (set_available_moves (roll_dice initial_game 3 1) [])
                    ENDGAME) (Won B))
              (roll_dice initial_game 3 1))
    as (Hmoves & Hdice & Hlegal).
  - repeat split; reflexivity.
  - split; [exact Hmoves|]. split; [exact Hdice|].
    split; [apply Hlegal; reflexivity | vm_compute; discriminate].
Defined.

(** ** [make_move] on a legal move *)

Lemma in_insert_asc_rev (x y : Z) (l : list Z) :
  y = x \/ In y l -> In y (insert_asc x l).
Proof.
  induction l as [|z t IH]; cbn [insert_asc In].
  - intros [->|[]]; left; reflexivity.
  - destruct (x <=? z); cbn [In]; [intuition congruence|].
    intros [->|[->|H]]; [right; apply IH; left; reflexivity
                        |left; reflexivity
                        |right; apply IH; right; exact H].
Qed.

Lemma in_sorted_rev (y : Z) (l : list Z) : In y l -> In y (sorted l).
Proof.
  induction l as [|x t IH]; cbn [sorted fold_right In]; [intros []|].
  fold (sorted t). intros [->|H]; apply in_insert_asc_rev;
    [left; reflexivity | right; apply IH; exact H].
Qed.

Lemma insert_asc_sorted (x : Z) (l : list Z) :
  StronglySorted Z.le l -> StronglySorted Z.le (insert_asc x l).
Proof.
  induction 1 as [|z t Hs IH Hall]; cbn [insert_asc].
  - constructor; constructor.
  - destruct (Z.leb_spec x z).
    + constructor; [constructor; assumption|].
      constructor; [assumption|].
      rewrite Forall_forall in *. intros w Hw. specialize (Hall w Hw). lia.
    + constructor; [exact IH|].
      rewrite Forall_forall in *. intros w Hw.
      apply in_insert_asc in Hw. destruct Hw as [->|Hw]; [lia | auto].
Qed.

Lemma sorted_sorted (l : list Z) : StronglySorted Z.le (sorted l).
Proof.
  induction l as [|x t IH]; cbn [sorted fold_right]; [constructor|].
  apply insert_asc_sorted. exact IH.
Qed.

(** The first hit of a search through an ascending list is the least
    one. *)
Lemma find_sorted_least (f : Z -> bool) (l : list Z) (y : Z) :
  StronglySorted Z.le l -> In y l -> f y = true ->
  exists x, find f l = Some x /\ x <= y.
Proof.
  induction 1 as [|z t Hs IH Hall]; [intros []|].
  intros Hin Hf. cbn [find]. destruct (f z) eqn:Ez.
  - exists z. split; [reflexivity|].
    destruct Hin as [->|Hin]; [lia|].
    rewrite Forall_forall in Hall. auto.
  - destruct Hin as [->|Hin]; [congruence|]. auto.
Qed.

Lemma py_remove_in (x : Z) (l : list Z) :
  In x l -> exists l', py_remove x l = Some l'.
Proof.
  induction l as [|y t IH]; [intros []|].
  intros Hin. cbn [py_remove]. destruct (Z.eqb_spec x y) as [->|Hne].
  - eexists; reflexivity.
  - destruct Hin as [->|Hin]; [congruence|].
    destruct (IH Hin) as [t' ->]. eexists; reflexivity.
Qed.

Lemma py_remove_some_in (x : Z) (l l' : list Z) :
  py_remove x l = Some l' -> In x l.
Proof.
  revert l'. induction l as [|y t IH]; intros l'; [discriminate|].
  cbn [py_remove]. destruct (Z.eqb_spec x y) as [->|Hne].
  - intros _; left; reflexivity.
  - destruct (py_remove x t) as [t'|]; [|discriminate].
    intros _. right. apply (IH t'). reflexivity.
Qed.

(** The die [make_move] picks for a generated move of a die of the pool. *)
Lemma die_to_remove_generated (gs : BackgammonGame) (die : Z)
      (src dst : endpoint) :
  1 <= die <= 6 -> In die (dice gs) ->
  In (src, dst) (_get_single_moves_for_die (current_player gs) die gs) ->
  exists die', die_to_remove gs src dst = Some die' /\ In die' (dice gs) /\
               die' <= die /\ (dst <> Off -> die' = die).
Proof.
  intros Hdie Hpool Hin.
  pose proof (nominal_die_generated _ _ _ _ _ Hdie Hin) as Hnom.
  apply generated_move_geometry in Hin.
  unfold die_to_remove.
  assert (Hmem : mem_Z die (dice gs) = true) by (apply mem_Z_In; exact Hpool).
  destruct Hin as [(-> & -> & He)
                  |(s & -> & Hs & [[-> Hd]|(-> & Hhome & Hcbo)])].
  - rewrite Hnom, Hmem. exists die. repeat split; auto; lia.
  - rewrite Hnom, Hmem. exists die. repeat split; auto; lia.
  - destruct Hnom as (s' & Hs' & Hnom & Hdist). injection Hs' as <-.
    rewrite Hnom.
    destruct (mem_Z (dist_to_off (current_player gs) s) (dice gs)) eqn:Em.
    + exists (dist_to_off (current_player gs) s).
      apply mem_Z_In in Em. repeat split; auto; try lia. congruence.
    + fold (dist_to_off (current_player gs) s).
      set (f := fun potential_die =>
                  _check_all_pieces_home (current_player gs) gs
                  && _can_bear_off (current_player gs) s potential_die gs).
      set (l := sorted (filter
                          (fun d => d >=? dist_to_off (current_player gs) s)
                          (dice gs))).
      assert (Hl : In die l).
      { apply in_sorted_rev. apply filter_In. split; [exact Hpool|].
        rewrite Z.geb_leb. apply Z.leb_le. lia. }
      assert (Hf : f die = true) by (unfold f; rewrite Hhome, Hcbo; reflexivity).
      destruct (find_sorted_least f l die (sorted_sorted _) Hl Hf)
        as (x & Hx & Hle).
      exists x. split; [exact Hx|].
      apply find_some in Hx. destruct Hx as [Hxl _].
      apply in_sorted in Hxl. apply filter_In in Hxl.
      repeat split; tauto.
Qed.

Lemma played_dice (pl : player) (gs : BackgammonGame) (src dst : endpoint) :
  dice (played pl gs src dst) = dice gs /\
  current_player (played pl gs src dst) = current_player gs /\
  winner (played pl gs src dst) = winner gs /\
  current_phase (played pl gs src dst) = current_phase gs.
Proof.
  unfold played, lift, land.
  destruct src as [| |s]; destruct dst as [| |d];
    repeat match goal with |- context [if ?c then _ else _] => destruct c end;
    destruct pl; repeat split; reflexivity.
Qed.

(** The [try] block of [make_move] on a generated move: the checkers end
    as [make_move_base_logic] leaves them and one die leaves the pool. *)
Lemma make_move_try_played (gs : BackgammonGame) (die die' : Z)
      (src dst : endpoint) (rest : list Z) :
  length (board gs) = 24%nat ->
  In (src, dst) (_get_single_moves_for_die (current_player gs) die gs) ->
  py_remove die' (dice gs) = Some rest ->
  make_move_try gs src dst die'
  = Done (set_dice (played (current_player gs) gs src dst) rest).
Proof.
  intros Hl Hin Hrem. remember (current_player gs) as pl eqn:Hpl.
  apply generated_move_cases in Hin.
  assert (Hland : forall g0 d,
             length (board g0) = 24%nat -> 1 <= d <= 24 ->
             (point (board g0) d * p_sign pl <? 0)
             && (Z.abs (point (board g0) d) >=? 2) = false ->
             match py_index (board g0) (d - 1) with
             | Some i =>
                 let dest_count := nth i (board g0) 0 in
                 if dest_count * p_sign pl <? 0 then
                   if Z.abs dest_count =? 1 then
                     let gs2 := set_board g0 (set_nth i 0 (board g0)) in
                     let gs3 :=
                       set_bar (opponent pl) gs2
                               (bar_of (opponent pl) gs2 + 1) in
                     Done (set_board gs3 (set_nth i (p_sign pl) (board gs3)))
                   else Raised g0
                 else
                   Done (set_board g0 (set_nth i (dest_count + p_sign pl)
                                               (board g0)))
             | None => Raised g0
             end = Done (land pl g0 d)).
  { intros g0 d Hl0 Hd Hnb. rewrite py_index_point by auto.
    cbv zeta. fold (point (board g0) d). unfold land.
    destruct (Z.ltb_spec (point (board g0) d * p_sign pl) 0); cbn [andb] in *.
    - rewrite Z.geb_leb in Hnb. apply Z.leb_gt in Hnb.
      assert (Hnz : point (board g0) d <> 0)
        by (intros E; rewrite E, Z.mul_0_l in *; lia).
      destruct (Z.eqb_spec (Z.abs (point (board g0) d)) 1); [|lia].
      f_equal. rewrite !board_set_bar. proj_simpl.
      rewrite set_nth_twice. unfold set_point.
      destruct pl; reflexivity.
    - reflexivity. }
  unfold make_move_try, played, lift. rewrite <- Hpl.
  destruct Hin as [(-> & Hbar & e & -> & He & Hal)
                  |(s & -> & Hs & Hown & [->|(d & -> & Hd & Hal)])].
  - rewrite Hland;
      rewrite ?board_set_bar; auto using allowed_not_blocked.
    assert (Hd : dice (land pl (set_bar pl gs (bar_of pl gs - 1)) e) = dice gs)
      by apply (played_dice pl gs Bar (Pt e)).
    rewrite Hd, Hrem. reflexivity.
  - rewrite py_index_point by auto.
    fold (point (board gs) s).
    fold (set_point (board gs) s (point (board gs) s - p_sign pl)).
    assert (Hd : dice (set_off pl (lift pl gs s) (off_of pl (lift pl gs s) + 1))
                 = dice gs) by (destruct pl; reflexivity).
    unfold lift in Hd. rewrite Hd, Hrem.
    destruct pl; reflexivity.
  - rewrite py_index_point by auto.
    fold (point (board gs) s).
    fold (set_point (board gs) s (point (board gs) s - p_sign pl)).
    rewrite Hland; proj_simpl; auto;
      try (unfold set_point; rewrite set_nth_length; auto; fail);
      try (apply lifted_not_blocked; auto; fail).
    assert (Hdc : dice (land pl (lift pl gs s) d) = dice gs)
      by apply (played_dice pl gs (Pt s) (Pt d)).
    unfold lift in Hdc. rewrite Hdc, Hrem. reflexivity.
Qed.

Lemma legal_action_die (gs : BackgammonGame) (m : move) :
  In m (get_legal_actions gs) ->
  exists die, In die (dice gs) /\
              In m (_get_single_moves_for_die (current_player gs) die gs).
Proof.
  unfold get_legal_actions. destruct (dice gs) eqn:E; [intros []|].
  rewrite <- E. intros H. apply in_dedup_moves in H. apply in_flat_map in H.
  destruct H as [die [Hd H]]. exists die. split; [|exact H].
  apply strictly_playable_in in Hd. tauto.
Qed.

Lemma is_game_over_frame (gs : BackgammonGame) :
  same_checkers (snd (is_game_over gs)) gs /\
  current_player (snd (is_game_over gs)) = current_player gs /\
  dice (snd (is_game_over gs)) = dice gs /\
  available_moves (snd (is_game_over gs)) = available_moves gs /\
  current_phase (snd (is_game_over gs)) = current_phase gs /\
  winner (snd (is_game_over gs))
  = (if white_off gs >=? 15 then Won W
     else if black_off gs >=? 15 then Won B else winner gs).
Proof.
  unfold is_game_over.
  destruct (white_off gs >=? 15); [|destruct (black_off gs >=? 15)];
    cbn [snd]; repeat split; reflexivity.
Qed.

(** What a successful [try] block leads to. *)
Lemma make_move_after_try (gs g1 : BackgammonGame) (src dst : endpoint)
      (die : Z) :
  die_to_remove gs src dst = Some die ->
  make_move_try gs src dst die = Done g1 ->
  conserved g1 ->
  let r := make_move gs src dst in
  fst r = true /\ same_checkers (snd r) g1 /\
  current_player (snd r) = current_player g1 /\
  dice (snd r) = dice g1 /\
  current_phase (snd r) = current_phase g1 /\
  available_moves (snd r) = get_legal_actions (snd r) /\
  winner (snd r)
  = (if white_off g1 >=? 15 then Won W
     else if black_off g1 >=? 15 then Won B else winner g1).
Proof.
  intros Hdie Htry Hc. unfold make_move. rewrite Hdie, Htry.
  set (g2 := set_available_moves g1 (get_legal_actions g1)).
  pose proof (is_game_over_frame g2) as (Hsc & Hcp & Hd & Hav & Hph & Hw).
  destruct (is_game_over g2) as [over g3]. cbn [snd] in *.
  assert (H21 : same_checkers g3 g1).
  { apply (same_checkers_trans _ g2); [exact Hsc|]. repeat split; reflexivity. }
  assert (Hc3 : conserved g3)
    by (apply (same_checkers_conserved _ g1); assumption).
  destruct Hc3 as [_ Hc3]. rewrite Hc3. cbn [Z.eqb Pos.eqb negb orb fst snd].
  repeat split; try apply H21; auto.
  rewrite Hav. unfold g2. cbn [available_moves set_available_moves].
  symmetry. apply legal_actions_same; auto.
Qed.

Lemma played_conserved (gs : BackgammonGame) (pl : player) (die : Z)
      (src dst : endpoint) :
  conserved gs ->
  In (src, dst) (_get_single_moves_for_die pl die gs) ->
  conserved (played pl gs src dst).
Proof.
  intros Hc Hin. pose proof Hc as [Hl _].
  pose proof (base_logic_generated gs pl die src dst Hl Hin) as (_ & Hl' & Ht').
  rewrite (base_logic_generated_played gs pl die src dst Hl Hin) in Hl', Ht'.
  cbn [snd] in *. apply (totals_conserved _ gs); auto.
Qed.

(** The steps of [make_move] on a legal move. *)
Lemma make_move_legal_steps (gs : BackgammonGame) (src dst : endpoint) :
  conserved gs ->
  (forall d, In d (dice gs) -> 1 <= d <= 6) ->
  In (src, dst) (get_legal_actions gs) ->
  let pl := current_player gs in
  exists die0 die rest,
    In die0 (dice gs) /\
    In (src, dst) (_get_single_moves_for_die pl die0 gs) /\
    die <= die0 /\ (dst <> Off -> die = die0) /\
    py_remove die (dice gs) = Some rest /\
    die_to_remove gs src dst = Some die /\
    make_move_try gs src dst die
    = Done (set_dice (played pl gs src dst) rest) /\
    conserved (set_dice (played pl gs src dst) rest).
Proof.
  intros Hc Hdice Hin pl. pose proof Hc as [Hl _].
  apply legal_action_die in Hin. destruct Hin as (die0 & Hpool & Hgen).
  fold pl in Hgen.
  destruct (die_to_remove_generated gs die0 src dst (Hdice _ Hpool) Hpool Hgen)
    as (die & Hdie & Hdin & Hle & Hne).
  destruct (py_remove_in die (dice gs) Hdin) as [rest Hrest].
  pose proof (make_move_try_played gs die0 die src dst rest Hl Hgen Hrest)
    as Htry.
  fold pl in Htry.
  pose proof (played_conserved gs pl die0 src dst Hc Hgen) as Hcp.
  exists die0, die, rest. repeat split; auto; try apply Hcp.
Qed.

(** X7: [make_move] on a legal move of a conserved state whose dice are
    ordinary die values returns [True]; it leaves the checkers as
    [make_move_base_logic] does, takes exactly one die out of the pool
    (the die of the move, or for a bear-off possibly a smaller die of the
    pool), keeps the player and the phase, refreshes the cache of legal
    moves for the new state, and names the winner exactly when a side has
    fifteen checkers off. *)
Theorem make_move_legal (gs : BackgammonGame) (src dst : endpoint) :
  conserved gs ->
  (forall d, In d (dice gs) -> 1 <= d <= 6) ->
  In (src, dst) (get_legal_actions gs) ->
  let pl := current_player gs in
  let r := make_move gs src dst in
  exists die0 die,
    In die0 (dice gs) /\
    In (src, dst) (_get_single_moves_for_die pl die0 gs) /\
    die <= die0 /\ (dst <> Off -> die = die0) /\
    py_remove die (dice gs) = Some (dice (snd r)) /\
    fst r = true /\
    same_checkers (snd r) (played pl gs src dst) /\
    current_player (snd r) = pl /\
    current_phase (snd r) = current_phase gs /\
    available_moves (snd r) = get_legal_actions (snd r) /\
    winner (snd r)
    = (if white_off (snd r) >=? 15 then Won W
       else if black_off (snd r) >=? 15 then Won B else winner gs).
Proof.
  intros Hc Hdice Hin pl r.
  destruct (make_move_legal_steps gs src dst Hc Hdice Hin)
    as (die0 & die & rest & Hpool & Hgen & Hle & Hne & Hrest & Hdie & Htry
        & Hc1).
  fold pl in Hgen, Htry, Hc1.
  pose proof (played_dice pl gs src dst) as (_ & Hpcp & Hpw & Hpph).
  pose proof (make_move_after_try gs _ src dst die Hdie Htry Hc1)
    as (Hok & Hsc & Hcur & Hd & Hph & Hav & Hw).
  fold r in Hok, Hsc, Hcur, Hd, Hph, Hav, Hw.
  assert (Hsc' : same_checkers (snd r) (played pl gs src dst)).
  { apply (same_checkers_trans _ _ _ Hsc). repeat split; reflexivity. }
  exists die0, die. repeat split; try apply Hsc'; auto.
  - rewrite Hd. exact Hrest.
  - rewrite Hcur. exact Hpcp.
  - rewrite Hph. exact Hpph.
  - rewrite Hw. destruct Hsc as (_ & _ & _ & Hwo & Hbo).
    rewrite Hwo, Hbo. cbn [white_off black_off set_dice winner].
    rewrite Hpw. reflexivity.
Qed.

Lemma make_move_legal_witness :
  let gs := roll_dice initial_game 3 1 in
  let r := make_move gs (Pt 17) (Pt 20) in
  exists die0 die,
    In die0 (dice gs) /\
    In (Pt 17, Pt 20) (_get_single_moves_for_die (current_player gs) die0 gs) /\
    die <= die0 /\ (Pt 20 <> Off -> die = die0) /\
    py_remove die (dice gs) = Some (dice (snd r)) /\
    fst r = true /\
    same_checkers (snd r) (played (current_player gs) gs (Pt 17) (Pt 20)) /\
    current_player (snd r) = current_player gs /\
    current_phase (snd r) = current_phase gs /\
    available_moves (snd r) = get_legal_actions (snd r) /\
    winner (snd r)
    = (if white_off (snd r) >=? 15 then Won W
       else if black_off (snd r) >=? 15 then Won B else winner gs).
Proof.
  apply (make_move_legal (roll_dice initial_game 3 1) (Pt 17) (Pt 20)).
  - split; reflexivity.
  - intros d Hd. vm_compute in Hd. destruct Hd as [<-|[<-|[]]]; lia.
  - vm_compute. tauto.
Defined.

(** ** Invariants of the reachable states *)

Lemma py_remove_subset (x : Z) (l l' : list Z) :
  py_remove x l = Some l' -> forall y, In y l' -> In y l.
Proof.
  revert l'; induction l as [|z t IH]; intros l'; cbn [py_remove];
    [discriminate|].
  destruct (x =? z).
  - intros [= <-] y Hy. right; exact Hy.
  - destruct (py_remove x t) as [t'|]; [|discriminate].
    intros [= <-] y [<-|Hy]; [left; reflexivity|].
    right. apply (IH t'); auto.
Qed.

Lemma same_checkers_well_formed (a b : BackgammonGame) :
  same_checkers a b -> well_formed b -> well_formed a.
Proof.
  intros (Hb & Hwb & Hbb & Hwo & Hbo). unfold well_formed.
  rewrite Hb, Hwb, Hbb, Hwo, Hbo. auto.
Qed.

Lemma w_board_bounds (l : list Z) (n : nat) :
  0 <= w_board l /\ pos_part (nth n l 0) <= w_board l.
Proof.
  unfold w_board, pos_part. revert n.
  induction l as [|x t IH]; intros n.
  - destruct n; cbn; lia.
  - cbn [filter]. destruct (IH 0%nat) as [H0 _].
    destruct n as [|n]; cbn [nth].
    + destruct (Z.gtb_spec x 0); rewrite ?sum_Z_cons; lia.
    + destruct (IH n) as [_ Hn].
      destruct (Z.gtb_spec x 0); rewrite ?sum_Z_cons; lia.
Qed.

Lemma b_board_bounds (l : list Z) (n : nat) :
  0 <= b_board l /\ neg_part (nth n l 0) <= b_board l.
Proof.
  unfold b_board, neg_part. revert n.
  induction l as [|x t IH]; intros n.
  - destruct n; cbn; lia.
  - cbn [filter]. destruct (IH 0%nat) as [H0 _].
    destruct n as [|n]; cbn [nth].
    + destruct (Z.ltb_spec x 0); cbn [map]; rewrite ?sum_Z_cons; lia.
    + destruct (IH n) as [_ Hn].
      destruct (Z.ltb_spec x 0); cbn [map]; rewrite ?sum_Z_cons; lia.
Qed.

(** Fifteen checkers a side and non-negative bars and offs bound every
    count. *)
Lemma conserved_bounds (gs : BackgammonGame) :
  conserved gs -> well_formed gs ->
  (forall pos, Z.abs (point (board gs) pos) <= 15) /\
  white_bar gs + white_off gs <= 15 /\ black_bar gs + black_off gs <= 15.
Proof.
  intros [_ Hc] (_ & Hwb & Hbb & Hwo & Hbo).
  unfold get_total_checker_count in Hc.
  fold (w_board (board gs)) in Hc. fold (b_board (board gs)) in Hc.
  injection Hc as Hw Hb.
  split; [|split].
  - intros pos. unfold point.
    destruct (w_board_bounds (board gs) (Z.to_nat (pos - 1))) as [_ H1].
    destruct (b_board_bounds (board gs) (Z.to_nat (pos - 1))) as [_ H2].
    unfold pos_part, neg_part in *.
    destruct (Z.gtb_spec (nth (Z.to_nat (pos - 1)) (board gs) 0) 0);
      destruct (Z.ltb_spec (nth (Z.to_nat (pos - 1)) (board gs) 0) 0); lia.
  - pose proof (w_board_bounds (board gs) 0). lia.
  - pose proof (b_board_bounds (board gs) 0). lia.
Qed.

(** What every operation of the game keeps. *)
Lemma reachable_invariant (gs : BackgammonGame) :
  reachable gs ->
  conserved gs /\ well_formed gs /\
  (forall d, In d (dice gs) -> 1 <= d <= 6) /\
  (length (dice gs) <= 4)%nat /\ winner gs <> ErrorState.
Proof.
  induction 1 as [|gs src dst _ IH Hin|gs pl die src dst _ IH Hin
                  |gs d1 d2 _ IH Hd1 Hd2|gs _ IH].
  - split; [split; reflexivity|]. split; [unfold well_formed; cbn; lia|].
    split; [intros d []|]. split; [cbn; lia | discriminate].
  - destruct IH as (Hc & Hwf & Hdice & Hlen & Hwin).
    destruct (make_move_legal_steps gs src dst Hc Hdice Hin)
      as (die0 & die & rest & Hpool & Hgen & Hle & Hne & Hrest & Hdie & Htry
          & Hc1).
    pose proof (played_dice (current_player gs) gs src dst)
      as (_ & _ & Hpw & _).
    pose proof (make_move_after_try gs _ src dst die Hdie Htry Hc1)
      as (_ & Hsc & _ & Hd & _ & _ & Hw).
    cbv zeta in Hsc, Hd, Hw.
    split; [now apply make_move_conserved|].
    split.
    { apply (same_checkers_well_formed _ _ Hsc).
      apply (same_checkers_well_formed _ (played (current_player gs) gs src dst));
        [repeat split; reflexivity|].
      eapply played_well_formed; eauto. }
    rewrite Hd. cbn [dice set_dice].
    split; [intros d Hin'; apply Hdice; eapply py_remove_subset; eauto|].
    split; [apply py_remove_length in Hrest; lia|].
    rewrite Hw.
    destruct (white_off _ >=? 15); [discriminate|].
    destruct (black_off _ >=? 15); [discriminate|].
    cbn [winner set_dice]. rewrite Hpw. exact Hwin.
  - destruct IH as (Hc & Hwf & Hdice & Hlen & Hwin). pose proof Hc as [Hl _].
    rewrite (base_logic_generated_played gs pl die src dst Hl Hin).
    cbn [snd].
    pose proof (played_dice pl gs src dst) as (Hpd & _ & Hpw & _).
    split; [eapply played_conserved; eauto|].
    split; [eapply played_well_formed; eauto|].
    rewrite Hpd, Hpw. auto.
  - destruct IH as (Hc & Hwf & Hdice & Hlen & Hwin).
    assert (Hsc : same_checkers (roll_dice gs d1 d2) gs)
      by (repeat split; reflexivity).
    split; [apply (same_checkers_conserved _ _ Hsc Hc)|].
    split; [apply (same_checkers_well_formed _ _ Hsc Hwf)|].
    unfold roll_dice. cbn [dice winner set_available_moves set_dice].
    destruct (d1 =? d2); cbn [In length]; repeat split; auto; try lia;
      intros d Hd; intuition lia.
  - destruct IH as (Hc & Hwf & Hdice & Hlen & Hwin).
    assert (Hsc : same_checkers (switch_player gs) gs)
      by (repeat split; reflexivity).
    split; [apply (same_checkers_conserved _ _ Hsc Hc)|].
    split; [apply (same_checkers_well_formed _ _ Hsc Hwf)|].
    unfold switch_player.
    cbn [dice winner set_available_moves set_dice set_current_player In length].
    repeat split; auto; try lia; intros d [].
Qed.

(** X8: every state the game's operations reach from the starting
    position has 24 points that hold at most fifteen checkers each, bars
    and offs that are non-negative and hold at most fifteen a side
    together, at most four dice in the pool, each between 1 and 6, and a
    winner field that is never the error mark: along legal play
    [make_move] never takes one of its failure exits. *)
Theorem reachable_state_invariants (gs : BackgammonGame) :
  reachable gs ->
  well_formed gs /\
  (forall pos, Z.abs (point (board gs) pos) <= 15) /\
  white_bar gs + white_off gs <= 15 /\
  black_bar gs + black_off gs <= 15 /\
  (forall d, In d (dice gs) -> 1 <= d <= 6) /\
  (length (dice gs) <= 4)%nat /\
  winner gs <> ErrorState.
Proof.
  intros H. apply reachable_invariant in H.
  destruct H as (Hc & Hwf & Hdice & Hlen & Hwin).
  destruct (conserved_bounds gs Hc Hwf) as (Hp & Hw & Hb).
  split; [exact Hwf|]. repeat split; auto; apply Hdice; assumption.
Qed.

Lemma reachable_state_invariants_witness :
  let gs := snd (make_move (roll_dice initial_game 3 1) (Pt 17) (Pt 20)) in
  well_formed gs /\
  (forall pos, Z.abs (point (board gs) pos) <= 15) /\
  white_bar gs + white_off gs <= 15 /\
  black_bar gs + black_off gs <= 15 /\
  (forall d, In d (dice gs) -> 1 <= d <= 6) /\
  (length (dice gs) <= 4)%nat /\
  winner gs <> ErrorState.
Proof.
  apply (reachable_state_invariants
           (snd (make_move (roll_dice initial_game 3 1) (Pt 17) (Pt 20)))).
  apply reach_make_move.
  - apply reach_roll_dice; [apply reach_start | lia | lia].
  - vm_compute. tauto.
Defined.

(** ** Soundness of the turn-sequence enumerator *)

(** An invariant of the search: [J] holds at every node the search
    enters, [P] of the dict of outcomes. *)
Section SearchInvariant.
Variable pl : player.
Variable J : BackgammonGame -> list Z -> list move -> Prop.
Variable P : outcomes_dict -> Prop.
Hypothesis J_step :
  forall s dr sq die mv c rest ns,
    J s dr sq ->
    In die (_get_strictly_playable_dice s dr pl) ->
    In mv (_get_single_moves_for_die pl die s) ->
    consumed_die s pl dr die mv = Some c ->
    py_remove c dr = Some rest ->
    make_move_base_logic s pl (fst mv) (snd mv) = (true, ns) ->
    J ns (sorted rest) (sq ++ [mv]).
Hypothesis P_record :
  forall s dr sq d, J s dr sq -> P d -> P (record_outcome s sq d).

Lemma find_sequences_invariant (fuel : nat) (state_now : BackgammonGame)
      (dice_rem : list Z) (sq : list move) (st : search_state) :
  J state_now dice_rem sq -> P (snd st) ->
  P (snd (find_sequences_recursive fuel pl state_now dice_rem sq st)).
Proof.
  revert state_now dice_rem sq st.
  induction fuel as [|fuel IH]; intros state_now dice_rem sq st HJ Hst;
    cbn [find_sequences_recursive]; auto.
  destruct st as [memo outs]. cbn [snd] in Hst.
  destruct (memo_mem _ memo); auto.
  destruct dice_rem as [|d0 dr];
    [cbn [snd]; apply (P_record _ []); auto|].
  pose proof (fun die => J_step state_now (d0 :: dr) sq die) as Hstep.
  destruct (_get_strictly_playable_dice state_now (d0 :: dr) pl) as [|a al];
    [cbn [snd]; apply (P_record _ (d0 :: dr)); auto|].
  match goal with
  | |- P (snd (let '(_, _) := fold_left ?f ?l ?a in _)) =>
      assert (Hfold : P (snd (snd (fold_left f l a))));
      [|destruct (fold_left f l a) as [found st']]
  end.
  - apply (fold_left_invariant
             (fun acc : bool * search_state => P (snd (snd acc))));
      [|exact Hst].
    intros acc die_val Hdie Hacc.
    specialize (Hstep die_val).
    destruct (_get_single_moves_for_die pl die_val state_now) as [|mv0 mvs];
      auto.
    cbn [snd].
    apply (fold_left_invariant (fun s : search_state => P (snd s)));
      [|exact Hacc].
    intros s mv Hmv Hs.
    destruct (consumed_die state_now pl (d0 :: dr) die_val mv) as [c|] eqn:Ec;
      auto.
    unfold copy.
    destruct (make_move_base_logic state_now pl (fst mv) (snd mv))
      as [ok next_state] eqn:Eb.
    destruct ok; auto.
    destruct (py_remove c (d0 :: dr)) as [rest|] eqn:Er; auto.
    apply IH; auto.
    eapply Hstep; eauto.
  - cbn [snd] in Hfold. destruct found; auto.
    cbn [snd]. apply (P_record _ (d0 :: dr)); auto.
Qed.

End SearchInvariant.

Lemma consumed_die_some (state_now : BackgammonGame) (pl : player)
      (dice_rem : list Z) (die_val : Z) (mv : move) (c : Z) :
  consumed_die state_now pl dice_rem die_val mv = Some c -> c = die_val.
Proof.
  unfold consumed_die. destruct mv as [src dst].
  destruct (match _get_die_for_move src dst pl with
            | Some n => (n =? die_val) && mem_Z die_val dice_rem
            | None => false
            end); [congruence|].
  destruct src as [| |s]; try discriminate.
  destruct dst as [| |d]; try discriminate.
  destruct (_ && _ && _); [|discriminate].
  destruct (sorted _) as [|x t]; [discriminate|].
  destruct (die_val =? x); [congruence | discriminate].
Qed.

Lemma plays_snoc (pl : player) (gs : BackgammonGame) (dr : list Z)
      (sq : list move) (s : BackgammonGame) (dr' : list Z) (die : Z)
      (src dst : endpoint) (rest : list Z) (ns : BackgammonGame) :
  plays pl gs dr sq s dr' ->
  In die (_get_strictly_playable_dice s dr' pl) ->
  In (src, dst) (_get_single_moves_for_die pl die s) ->
  py_remove die dr' = Some rest ->
  make_move_base_logic s pl src dst = (true, ns) ->
  plays pl gs dr (sq ++ [(src, dst)]) ns (sorted rest).
Proof.
  intros H Hal Hgen Hrem Hb.
  induction H as [gs dr|gs dr die1 src1 dst1 rest1 ns1 sq final dr' Ha1 Hg1 Hr1
                          Hb1
                          _ IH].
  - cbn [app]. eapply plays_cons; eauto. apply plays_nil.
  - cbn [app]. eapply plays_cons; eauto.
Qed.

Lemma plays_length (pl : player) (gs : BackgammonGame) (dr : list Z)
      (sq : list move) (s : BackgammonGame) (dr' : list Z) :
  plays pl gs dr sq s dr' -> (length sq + length dr' = length dr)%nat.
Proof.
  induction 1 as [gs dr|gs dr die src dst rest ns sq final dr' _ _ Hr _ _ IH].
  - reflexivity.
  - apply py_remove_length in Hr. rewrite sorted_length in IH.
    cbn [length]. lia.
Qed.

(** Every outcome the searches record is the end of a played sequence
    from one of the seeded start states. *)
Lemma collect_plays (gs : BackgammonGame) (dice_tuple : list Z)
      (pl : player) (k : board_key) (s : BackgammonGame) (sq : list move) :
  In (k, (s, sq)) (collect_final_outcomes gs dice_tuple pl) ->
  exists dc dr', In dc (initial_dice_perms dice_tuple) /\
                 plays pl (set_dice gs dc) (sorted dc) sq s dr'.
Proof.
  unfold collect_final_outcomes.
  set (P := fun d : outcomes_dict =>
              forall k s sq, In (k, (s, sq)) d ->
                exists dc dr', In dc (initial_dice_perms dice_tuple) /\
                               plays pl (set_dice gs dc) (sorted dc) sq s dr').
  intros Hin. revert k s sq Hin. change (P
    (snd (fold_left
            (fun st initial_dice =>
               find_sequences_recursive
                 (S (length initial_dice)) pl
                 (set_dice (copy gs) initial_dice) (sorted initial_dice) [] st)
            (initial_dice_perms dice_tuple) ([], [])))).
  apply (fold_left_invariant (fun st : search_state => P (snd st)));
    [|intros k s sq []].
  intros st dc Hdc Hst.
  apply (find_sequences_invariant
           pl (fun s dr sq => plays pl (set_dice gs dc) (sorted dc) sq s dr) P);
    auto.
  - intros s dr sq die [src dst] c rest ns HJ Hal Hmv Hc Hr Hb.
    apply consumed_die_some in Hc. subst c.
    eapply plays_snoc; eauto.
  - intros s dr sq d HJ Hd k s' sq' Hin.
    unfold record_outcome in Hin.
    assert (Hset : In (k, (s', sq'))
                      (dict_set (board_tuple s) (copy s, sq) d) ->
                   exists dc0 dr', In dc0 (initial_dice_perms dice_tuple) /\
                     plays pl (set_dice gs dc0) (sorted dc0) sq' s' dr').
    { intros H. apply dict_set_in in H.
      destruct H as [H|[= -> ->]]; [eauto|]. exists dc, dr. auto. }
    destruct (dict_get (board_tuple s) d) as [[s0 old_seq]|]; auto.
    destruct (length sq <? length old_seq)%nat; auto. apply (Hd _ _ _ Hin).
  - apply plays_nil.
Qed.

Lemma in_perm_length (dice_tuple dc : list Z) :
  In dc (initial_dice_perms dice_tuple) -> length dc = length dice_tuple.
Proof.
  destruct (initial_dice_perms_cases dice_tuple) as [->|(d1 & d2 & -> & ->)].
  - intros [<-|[]]. reflexivity.
  - intros [<-|[<-|[]]]; reflexivity.
Qed.

Lemma generate_results_from (gs : BackgammonGame) (dice_tuple : list Z)
      (pl : player) (o : outcome) :
  In o (generate_possible_next_states_with_sequences gs dice_tuple pl) ->
  o = (gs, []) \/
  exists k, In (k, o) (collect_final_outcomes gs dice_tuple pl).
Proof.
  unfold generate_possible_next_states_with_sequences.
  destruct dice_tuple as [|d0 dr]; [intros [<-|[]]; left; reflexivity|].
  set (d := collect_final_outcomes gs (d0 :: dr) pl).
  assert (Hvals : In o (dict_values d) -> exists k, In (k, o) d).
  { unfold dict_values. rewrite in_map_iff. intros [[k v] [<- H]].
    exists k. exact H. }
  destruct d as [|e t] eqn:Ed; [intros [<-|[]]; left; reflexivity|].
  rewrite <- Ed in *. cbv zeta.
  match goal with
  | |- In o (match ?r with [] => _ | _ => _ end) -> _ =>
      assert (Hr : forall x, In x r -> In x (dict_values d));
      [|destruct r as [|r0 rt]; intros H; right; apply Hvals; auto]
  end.
  intros x. destruct (_ && _).
  - destruct (dict_values d) as [|v vs]; [intros []|].
    cbn [firstn]. intros [<-|[]]. left; reflexivity.
  - rewrite filter_In. tauto.
Qed.

(** X9: every pair the enumerator returns is the input untouched with the
    empty sequence, or a state reached from the input (given the dice in
    one of the seeded orders) by playing the returned sequence move by
    move: each move is one the single-move generator gives, from the
    state it is played in, for a die that the forced-die resolver allows
    among the dice still left, and the simulation primitive accepts it.
    A returned sequence is never longer than the roll. *)
Theorem enumerator_sound (gs : BackgammonGame) (dice_tuple : list Z)
        (pl : player) (s : BackgammonGame) (sq : list move) :
  In (s, sq) (generate_possible_next_states_with_sequences gs dice_tuple pl) ->
  (length sq <= length dice_tuple)%nat /\
  ((s = gs /\ sq = []) \/
   exists dc dr', In dc (initial_dice_perms dice_tuple) /\
                  plays pl (set_dice gs dc) (sorted dc) sq s dr').
Proof.
  intros Hin. apply generate_results_from in Hin.
  destruct Hin as [[= -> ->]|[k Hin]].
  - split; [cbn; lia | left; auto].
  - apply collect_plays in Hin. destruct Hin as (dc & dr' & Hdc & Hp).
    split; [|right; eauto].
    apply plays_length in Hp. rewrite sorted_length in Hp.
    apply in_perm_length in Hdc. lia.
Qed.

Lemma enumerator_sound_witness :
  let gs := initial_game in
  let o := nth 0 (generate_possible_next_states_with_sequences gs [3; 1] W)
               (gs, []) in
  (length (snd o) <= length [3; 1])%nat /\
  ((fst o = gs /\ snd o = []) \/
   exists dc dr', In dc (initial_dice_perms [3; 1]) /\
                  plays W (set_dice gs dc) (sorted dc) (snd o) (fst o) dr').
Proof.
  apply (enumerator_sound initial_game [3; 1] W).
  vm_compute. left. reflexivity.
Defined.

Lemma plays_frame (pl : player) (gs : BackgammonGame) (dr : list Z)
      (sq : list move) (s : BackgammonGame) (dr' : list Z) :
  plays pl gs dr sq s dr' ->
  same_turn_fields s gs /\
  (well_formed gs -> well_formed s) /\
  (conserved gs -> conserved s).
Proof.
  induction 1 as [gs dr|gs dr die src dst rest ns sq final dr' _ Hg _ Hb _ IH].
  - split; [repeat split | split; auto].
  - destruct IH as (Ht & Hwf & Hc).
    pose proof (base_logic_turn_fields gs pl src dst) as Ht1.
    rewrite Hb in Ht1. cbn [snd] in Ht1.
    split; [|split].
    + unfold same_turn_fields in *. intuition congruence.
    + intros Hw. apply Hwf. pose proof Hw as (Hl & _).
      rewrite (base_logic_generated_played gs pl die src dst Hl Hg) in Hb.
      injection Hb as <-. eapply played_well_formed; eauto.
    + intros Hcs. apply Hc. pose proof Hcs as (Hl & _).
      rewrite (base_logic_generated_played gs pl die src dst Hl Hg) in Hb.
      injection Hb as <-. eapply played_conserved; eauto.
Qed.

(** X10: the states the enumerator returns for a conserved, well-formed
    input are conserved and well formed; they carry the input's player to
    move, winner, phase and move cache unchanged (the enumerator never
    marks a win, also when the sequence bears off the last checker), and
    their dice are the input's or the roll in one of the seeded orders. *)
Theorem enumerator_outcomes_frame (gs : BackgammonGame) (dice_tuple : list Z)
        (pl : player) (s : BackgammonGame) (sq : list move) :
  conserved gs -> well_formed gs ->
  In (s, sq) (generate_possible_next_states_with_sequences gs dice_tuple pl) ->
  conserved s /\ well_formed s /\
  current_player s = current_player gs /\ winner s = winner gs /\
  current_phase s = current_phase gs /\
  available_moves s = available_moves gs /\
  (dice s = dice gs \/ In (dice s) (initial_dice_perms dice_tuple)).
Proof.
  intros Hc Hwf Hin. apply generate_results_from in Hin.
  destruct Hin as [[= -> ->]|[k Hin]];
    [split; [exact Hc|]; split; [exact Hwf|]; repeat split; auto|].
  apply collect_plays in Hin. destruct Hin as (dc & dr' & Hdc & Hp).
  apply plays_frame in Hp.
  destruct Hp as ((Hcp & Hd & Hw & Hav & Hph) & Hwf' & Hc').
  split; [apply Hc'; apply (same_checkers_conserved _ gs); auto;
          repeat split; reflexivity|].
  split; [apply Hwf'; exact Hwf|].
  repeat split; auto.
  right. rewrite Hd. exact Hdc.
Qed.

Lemma enumerator_outcomes_frame_witness :
  let gs := initial_game in
  let o := nth 0 (generate_possible_next_states_with_sequences gs [3; 1] W)
               (gs, []) in
  conserved (fst o) /\ well_formed (fst o) /\
  current_player (fst o) = current_player gs /\ winner (fst o) = winner gs /\
  current_phase (fst o) = current_phase gs /\
  available_moves (fst o) = available_moves gs /\
  (dice (fst o) = dice gs \/ In (dice (fst o)) (initial_dice_perms [3; 1])).
Proof.
  apply (enumerator_outcomes_frame initial_game [3; 1] W _
           (snd (nth 0 (generate_possible_next_states_with_sequences
                          initial_game [3; 1] W) (initial_game, [])))).
  - split; reflexivity.
  - unfold well_formed; simpl; repeat split; lia.
  - vm_compute. left. reflexivity.
Defined.

(** ** One outcome per position *)

Lemma list_Z_eqb_eq (a b : list Z) : list_Z_eqb a b = true <-> a = b.
Proof.
  split; [|intros ->; apply list_Z_eqb_refl].
  unfold list_Z_eqb. revert b.
  induction a as [|x t IH]; intros [|y u]; cbn [length Nat.eqb andb];
    try discriminate; auto.
  cbn [combine forallb fst snd]. intros H.
  apply andb_true_iff in H. destruct H as [Hlen H].
  apply andb_true_iff in H. destruct H as [Hxy H].
  apply Z.eqb_eq in Hxy. subst y. f_equal. apply IH.
  rewrite Hlen, H. reflexivity.
Qed.

Lemma board_key_eqb_eq (a b : board_key) : board_key_eqb a b = true <-> a = b.
Proof.
  destruct a as [[[[[b1 wb1] bb1] wo1] bo1] p1].
  destruct b as [[[[[b2 wb2] bb2] wo2] bo2] p2].
  unfold board_key_eqb. rewrite !andb_true_iff, list_Z_eqb_eq, !Z.eqb_eq.
  split.
  - intros [[[[[-> ->] ->] ->] ->] Hp]. destruct p1, p2; try discriminate;
      reflexivity.
  - intros [= -> -> -> -> -> ->]. repeat split. destruct p2; reflexivity.
Qed.

Lemma dict_set_keys (k : board_key) (v : outcome) (d : outcomes_dict) :
  map fst (dict_set k v d)
  = if existsb (board_key_eqb k) (map fst d) then map fst d
    else map fst d ++ [k].
Proof.
  induction d as [|[k0 v0] t IH]; cbn [dict_set map fst existsb app];
    [reflexivity|].
  destruct (board_key_eqb k k0); cbn [map fst orb]; [reflexivity|].
  rewrite IH. destruct (existsb _ _); reflexivity.
Qed.

Lemma dict_set_keys_NoDup (k : board_key) (v : outcome) (d : outcomes_dict) :
  NoDup (map fst d) -> NoDup (map fst (dict_set k v d)).
Proof.
  intros Hnd. rewrite dict_set_keys.
  destruct (existsb (board_key_eqb k) (map fst d)) eqn:E; [exact Hnd|].
  apply NoDup_app; [exact Hnd | repeat constructor; intros [] |].
  intros x Hx [<-|[]].
  assert (Ht : existsb (board_key_eqb k) (map fst d) = true).
  { apply existsb_exists. exists k. split; [exact Hx|].
    apply board_key_eqb_eq; reflexivity. }
  congruence.
Qed.

Lemma dict_set_in_key (k : board_key) (v : outcome) (d : outcomes_dict)
      (k' : board_key) (v' : outcome) :
  In (k', v') (dict_set k v d) -> In (k', v') d \/ (k' = k /\ v' = v).
Proof.
  induction d as [|[k0 v0] t IH]; cbn [dict_set In].
  - intros [[= <- <-]|[]]. right; auto.
  - destruct (board_key_eqb k k0) eqn:E; cbn [In].
    + apply board_key_eqb_eq in E. subst k0.
      intros [[= <- <-]|H]; [right; auto | left; right; exact H].
    + intros [H|H]; [left; left; exact H|].
      destruct (IH H); [left; right; assumption | right; assumption].
Qed.

Lemma record_outcome_keyed (s : BackgammonGame) (sq : list move)
      (d : outcomes_dict) :
  keyed_by_position d -> keyed_by_position (record_outcome s sq d).
Proof.
  intros [Hnd Hk]. unfold record_outcome.
  assert (Hset : keyed_by_position
                   (dict_set (board_tuple s) (copy s, sq) d)).
  { split; [apply dict_set_keys_NoDup; exact Hnd|].
    intros k o Hin. apply dict_set_in_key in Hin.
    destruct Hin as [Hin|[-> ->]]; [auto | reflexivity]. }
  destruct (dict_get (board_tuple s) d) as [[s0 old_seq]|]; auto.
  destruct (length sq <? length old_seq)%nat; auto. split; auto.
Qed.

Lemma collect_keyed (gs : BackgammonGame) (dice_tuple : list Z)
      (pl : player) :
  keyed_by_position (collect_final_outcomes gs dice_tuple pl).
Proof.
  unfold collect_final_outcomes.
  apply (fold_left_invariant
           (fun st : search_state => keyed_by_position (snd st)));
    [|split; [constructor | intros k o []]].
  intros st dc _ Hst.
  apply (find_sequences_invariant pl (fun _ _ _ => True) keyed_by_position);
    auto.
  intros s dr sq d _ Hd. apply record_outcome_keyed. exact Hd.
Qed.

Lemma NoDup_map_filter {A B : Type} (f : A -> B) (g : A -> bool)
      (l : list A) :
  NoDup (map f l) -> NoDup (map f (filter g l)).
Proof.
  induction l as [|x t IH]; cbn [map filter]; [auto|].
  intros H. inversion H as [|y u Hnin Hnd]; subst.
  destruct (g x); cbn [map]; [|auto].
  constructor; [|auto].
  intros Hin. apply Hnin. apply in_map_iff in Hin.
  destruct Hin as (z & Hz & Hin). apply filter_In in Hin.
  apply in_map_iff. exists z. tauto.
Qed.

(** X11: no two outcomes the enumerator returns hold the same position
    (board, bars, offs and player to move). *)
Theorem enumerator_distinct_positions (gs : BackgammonGame)
        (dice_tuple : list Z) (pl : player) :
  NoDup (map (fun o : outcome => board_tuple (fst o))
             (generate_possible_next_states_with_sequences gs dice_tuple pl)).
Proof.
  assert (H1 : forall o : outcome,
             NoDup (map (fun o : outcome => board_tuple (fst o)) [o]))
    by (intros o; repeat constructor; intros []).
  unfold generate_possible_next_states_with_sequences.
  destruct dice_tuple as [|d0 dr]; [apply H1|].
  pose proof (collect_keyed gs (d0 :: dr) pl) as [Hnd Hk].
  set (d := collect_final_outcomes gs (d0 :: dr) pl) in *.
  assert (Hvals : NoDup (map (fun o : outcome => board_tuple (fst o))
                             (dict_values d))).
  { unfold dict_values. rewrite map_map.
    rewrite (map_ext_in _ fst); [exact Hnd|].
    intros [k o] Hin. cbn [fst snd]. symmetry. apply Hk. exact Hin. }
  destruct d as [|e t] eqn:Ed; [apply H1|].
  rewrite <- Ed in *. cbv zeta.
  match goal with
  | |- NoDup (map ?f (match ?r with [] => _ | _ => _ end)) =>
      assert (Hr : NoDup (map f r)); [|destruct r; auto]
  end.
  destruct (_ && _).
  - destruct (dict_values d) as [|v vs]; [constructor | apply H1].
  - apply NoDup_map_filter. exact Hvals.
Qed.

(** ** The selected move is a play of the roll *)

Lemma initial_dice_perms_head (dice_tuple : list Z) :
  exists dc, In dc (initial_dice_perms dice_tuple).
Proof.
  destruct (initial_dice_perms_cases dice_tuple) as [->|(d1 & d2 & -> & ->)];
    eexists; left; reflexivity.
Qed.

(** X12: what [select_ai_move_minimax] returns is the input state with
    the empty sequence, or a sequence that plays the roll from the input
    move by move (each move generated for a die still left and accepted by
    the simulation primitive) together with a state that holds exactly
    the checkers this play ends in, for the same player, with the dice
    and the move cache cleared.  The sequence is never longer than the
    roll, and a conserved, well-formed input gives a conserved,
    well-formed result. *)
Theorem select_plays_the_roll
        (heuristic : BackgammonGame -> player -> phase -> float)
        (randint : nat -> Z) (gs : BackgammonGame) (dice_tuple : list Z)
        (ai_player : player) (drawn : nat) :
  let r := select_ai_move_minimax heuristic randint gs dice_tuple ai_player
                                  drawn in
  let sequence := fst (fst r) in
  let state := snd (fst r) in
  ((sequence = [] /\ state = gs) \/
   (exists dc dr' s,
       In dc (initial_dice_perms dice_tuple) /\
       plays ai_player (set_dice gs dc) (sorted dc) sequence s dr' /\
       same_checkers state s /\
       current_player state = current_player gs /\
       dice state = [] /\ available_moves state = [])) /\
  (length sequence <= length dice_tuple)%nat /\
  (conserved gs -> well_formed gs -> conserved state /\ well_formed state).
Proof.
  cbv zeta.
  destruct (no_move_outcome
              (generate_possible_next_states_with_sequences
                 gs dice_tuple ai_player)) eqn:Hno.
  - unfold select_ai_move_minimax. rewrite Hno. cbn [fst snd length].
    split; [left; auto|]. split; [lia | auto].
  - destruct (select_chosen heuristic randint gs dice_tuple ai_player drawn
                            Hno) as (i & g & sc & Hnth & Hst & _).
    rewrite Hst.
    destruct (Forall2_nth_error
                _ _ _ i _
                (score_outcomes_scored_from
                   heuristic randint ai_player
                   (generate_possible_next_states_with_sequences
                      gs dice_tuple ai_player) drawn) Hnth)
      as ([s sq] & Hout & k & Hfrom).
    cbv zeta in Hfrom. cbn [fst snd] in Hfrom.
    pose proof (minimax_keeps_position
                  heuristic randint (MAX_DEPTH - 1) s (opponent ai_player)
                  ai_player neg_infinity infinity k) as Hpos.
    remember (get_minimax_score_sampled
                heuristic randint (MAX_DEPTH - 1) s (opponent ai_player)
                ai_player neg_infinity infinity k) as res eqn:Hres.
    clear Hres. injection Hfrom as Hg Hsq _.
    rewrite <- Hg in Hpos. unfold board_tuple in Hpos.
    injection Hpos as Hb Hwb Hbb Hwo Hbo Hcp.
    assert (Hsc : same_checkers (turn_done g) s) by (repeat split; assumption).
    apply nth_error_In in Hout.
    remember (fst (fst (select_ai_move_minimax heuristic randint gs dice_tuple
                                               ai_player drawn))) as sequence
      eqn:Hseq.
    clear Hseq. subst sq.
    pose proof (generate_results_from _ _ _ _ Hout) as Hfrom.
    assert (Hplay : exists dc dr' s',
               In dc (initial_dice_perms dice_tuple) /\
               plays ai_player (set_dice gs dc) (sorted dc) sequence s' dr' /\
               same_checkers s s' /\ current_player s = current_player gs).
    { destruct Hfrom as [[= -> ->]|[key Hin]].
      - destruct (initial_dice_perms_head dice_tuple) as [dc Hdc].
        exists dc, (sorted dc), (set_dice gs dc).
        split; [exact Hdc|]. split; [apply plays_nil|].
        split; [repeat split | reflexivity].
      - apply collect_plays in Hin. destruct Hin as (dc & dr' & Hdc & Hp).
        exists dc, dr', s. split; [exact Hdc|]. split; [exact Hp|].
        split; [apply same_checkers_refl|].
        apply plays_frame in Hp. destruct Hp as ((Hc & _) & _). exact Hc. }
    destruct Hplay as (dc & dr' & s' & Hdc & Hp & Hss & Hcur).
    split; [|split].
    + right. exists dc, dr', s'. split; [exact Hdc|]. split; [exact Hp|].
      split; [apply (same_checkers_trans _ s); assumption|].
      split; [|split; reflexivity].
      unfold turn_done. cbn [current_player set_available_moves set_dice].
      congruence.
    + apply plays_length in Hp. rewrite sorted_length in Hp.
      apply in_perm_length in Hdc. lia.
    + intros Hc Hwf.
      apply plays_frame in Hp. destruct Hp as (_ & Hwf' & Hc').
      assert (Hs0 : same_checkers (set_dice gs dc) gs)
        by (repeat split; reflexivity).
      assert (Hall : same_checkers (turn_done g) s')
        by (apply (same_checkers_trans _ s); assumption).
      split.
      * apply (same_checkers_conserved _ _ Hall). apply Hc'.
        apply (same_checkers_conserved _ _ Hs0 Hc).
      * apply (same_checkers_well_formed _ _ Hall). apply Hwf'.
        apply (same_checkers_well_formed _ _ Hs0 Hwf).
Qed.

(** ** What the search writes *)

Lemma searched_step (g g' gs : BackgammonGame) :
  searched g' g -> searched g gs -> searched g' gs.
Proof.
  intros (Hsc' & Hcp' & Hd' & Hav' & Hw') (Hsc & Hcp & Hd & Hav & Hw).
  split; [apply (same_checkers_trans _ g); assumption|].
  repeat split; try congruence.
  rewrite Hw'. unfold winner_after_check in *.
  destruct Hsc as (_ & _ & _ & -> & ->).
  rewrite Hw.
  destruct (white_off gs >=? 15); [reflexivity|].
  destruct (black_off gs >=? 15); reflexivity.
Qed.

(** The object a search call was made on, as the call leaves it. *)
Lemma search_frame
        (heuristic : BackgammonGame -> player -> phase -> float)
        (randint : nat -> Z) (depth : nat) (gs : BackgammonGame)
        (turn maximizing_player : player) (alpha beta : float) (drawn : nat) :
  searched
    (state_of (get_minimax_score_sampled heuristic randint depth gs turn
                                         maximizing_player alpha beta drawn))
    gs.
Proof.
  revert gs turn alpha beta drawn.
  assert (Hover : forall gs w,
             winner_after_check gs = w ->
             searched (set_winner gs w) gs)
    by (intros gs w <-; repeat split; reflexivity).
  induction depth as [|depth IH]; intros gs turn alpha beta drawn;
    cbn [get_minimax_score_sampled]; unfold is_game_over, state_of.
  - destruct (white_off gs >=? 15) eqn:Ew;
      [|destruct (black_off gs >=? 15) eqn:Eb];
      cbn [winner set_winner];
      try (destruct (player_eqb _ maximizing_player); cbn [fst snd];
           apply Hover; unfold winner_after_check; rewrite Ew, ?Eb;
           reflexivity).
    cbn [fst snd determine_game_phase].
    unfold searched, winner_after_check. rewrite Ew, Eb.
    repeat split; reflexivity.
  - destruct (white_off gs >=? 15) eqn:Ew;
      [|destruct (black_off gs >=? 15) eqn:Eb];
      cbn [winner set_winner];
      try (destruct (player_eqb _ maximizing_player); cbn [fst snd];
           apply Hover; unfold winner_after_check; rewrite Ew, ?Eb;
           reflexivity).
    destruct (_get_random_dice_sample randint drawn) as [samples drawn1].
    cbn [fst snd]. unfold chance_node_loop.
    assert (Hgs : searched gs gs).
    { unfold searched, winner_after_check. rewrite Ew, Eb.
      repeat split; reflexivity. }
    apply (fold_left_invariant
             (fun st : chance_loop => searched (cl_state st) gs));
      [|exact Hgs].
    intros st [d1 d2] _ Hst. unfold sample_step.
    destruct (player_eqb turn maximizing_player);
      [unfold max_sample_step | unfold min_sample_step];
      destruct (no_move_outcome _).
    + specialize (IH (cl_state st) (opponent turn) (cl_alpha st) (cl_beta st)
                     (cl_drawn st)).
      unfold state_of in IH.
      destruct (get_minimax_score_sampled _ _ _ _ _ _ _ _ _) as [[v g] k].
      cbn [cl_state fst snd] in *. eapply searched_step; eauto.
    + destruct (branches_max _ _ _ _ _ _) as [[b a] k]. exact Hst.
    + specialize (IH (cl_state st) (opponent turn) (cl_alpha st) (cl_beta st)
                     (cl_drawn st)).
      unfold state_of in IH.
      destruct (get_minimax_score_sampled _ _ _ _ _ _ _ _ _) as [[v g] k].
      cbn [cl_state fst snd] in *. eapply searched_step; eauto.
    + destruct (branches_min _ _ _ _ _ _) as [[b a] k]. exact Hst.
Qed.

(** ** Pip counts *)

Lemma fold_left_add_sum {A : Type} (f : Z -> A -> Z) (g : A -> Z)
      (l : list A) (a : Z) :
  (forall acc x, f acc x = acc + g x) ->
  fold_left f l a = a + sum_Z (map g l).
Proof.
  intros Hf. revert a. induction l as [|x t IH]; intros a; cbn [fold_left map].
  - cbn. lia.
  - rewrite IH, Hf, sum_Z_cons. lia.
Qed.

Lemma calculate_pip_sum (gs : BackgammonGame) (pl : player) :
  calculate_pip gs pl
  = sum_Z (map (fun pos => pip_share pl pos (point (board gs) pos))
               (range 1 25))
    + bar_of pl gs * 25.
Proof.
  unfold calculate_pip. cbv zeta.
  rewrite (fold_left_add_sum
             _ (fun pos => pip_share pl pos (point (board gs) pos))).
  - lia.
  - intros acc pos. unfold pip_share, dist_to_off.
    destruct (point (board gs) pos * p_sign pl >? 0); lia.
Qed.

Lemma NoDup_range (lo hi : Z) : NoDup (range lo hi).
Proof.
  unfold range. generalize (Z.to_nat (hi - lo)) as n. generalize 0%nat as s.
  intros s n. revert s. induction n as [|n IH]; intros s; cbn [seq map];
    constructor; [|apply IH].
  rewrite in_map_iff. intros (k & Hk & Hin). apply in_seq in Hin. lia.
Qed.

Lemma sum_map_update (g g' : Z -> Z) (p : Z) (l : list Z) :
  NoDup l -> (forall x, In x l -> x <> p -> g' x = g x) ->
  sum_Z (map g' l)
  = sum_Z (map g l) + (if mem_Z p l then g' p - g p else 0).
Proof.
  intros Hnd. induction Hnd as [|x t Hnin _ IH]; intros Hg; [reflexivity|].
  cbn [map]. rewrite !sum_Z_cons, IH
    by (intros y Hy; apply Hg; right; exact Hy).
  unfold mem_Z in *. cbn [existsb].
  destruct (Z.eqb_spec p x) as [->|Hne]; cbn [orb].
  - destruct (existsb (Z.eqb x) t) eqn:E; [|lia].
    exfalso. apply Hnin. apply existsb_exists in E.
    destruct E as (y & Hy & Hxy). apply Z.eqb_eq in Hxy. subst y. exact Hy.
  - rewrite (Hg x) by (try (left; reflexivity); congruence). lia.
Qed.

(** Storing [v] on a point moves a pip count by the shares of what the
    point held and what it holds now. *)
Lemma pip_set_point (q : player) (gs : BackgammonGame) (p v : Z) :
  length (board gs) = 24%nat -> 1 <= p <= 24 ->
  calculate_pip (set_board gs (set_point (board gs) p v)) q
  = calculate_pip gs q - pip_share q p (point (board gs) p) + pip_share q p v.
Proof.
  intros Hl Hp. rewrite !calculate_pip_sum. rewrite bar_of_set_board.
  cbn [board set_board].
  rewrite (sum_map_update
             (fun pos => pip_share q pos (point (board gs) pos))
             (fun pos => pip_share q pos
                                   (point (set_point (board gs) p v) pos))
             p (range 1 25) (NoDup_range 1 25)).
  - assert (Hm : mem_Z p (range 1 25) = true)
      by (apply mem_Z_In; apply in_range; lia).
    rewrite Hm. rewrite point_set_point by auto. rewrite Z.eqb_refl. lia.
  - intros x Hx Hne. apply in_range in Hx.
    rewrite point_set_point by (auto; lia).
    destruct (Z.eqb_spec x p); [congruence | reflexivity].
Qed.

Lemma pip_set_bar (pl q : player) (gs : BackgammonGame) (v : Z) :
  calculate_pip (set_bar pl gs v) q
  = calculate_pip gs q
    + (if player_eqb q pl then (v - bar_of pl gs) * 25 else 0).
Proof.
  rewrite !calculate_pip_sum, board_set_bar.
  destruct pl, q; cbn [player_eqb bar_of set_bar white_bar black_bar]; lia.
Qed.

Lemma pip_set_off (pl q : player) (gs : BackgammonGame) (v : Z) :
  calculate_pip (set_off pl gs v) q = calculate_pip gs q.
Proof.
  rewrite !calculate_pip_sum. destruct pl, q; reflexivity.
Qed.

(** Lifting a checker of [pl] from a point it owns. *)
Lemma pip_lift (pl q : player) (gs : BackgammonGame) (s : Z) :
  length (board gs) = 24%nat -> 1 <= s <= 24 -> owns pl gs s ->
  calculate_pip (lift pl gs s) q
  = calculate_pip gs q - (if player_eqb q pl then dist_to_off pl s else 0).
Proof.
  intros Hl Hs Hown. unfold lift. rewrite pip_set_point by auto.
  unfold owns in Hown. unfold pip_share, dist_to_off.
  destruct pl, q; unfold p_sign in *; cbn [player_eqb];
    repeat match goal with
           | |- context [?a >? ?b] => destruct (Z.gtb_spec a b)
           end; try lia; nia.
Qed.

(** Landing a checker of [pl] on a point that is not blocked. *)
Lemma pip_land (pl q : player) (gs : BackgammonGame) (d : Z) :
  length (board gs) = 24%nat -> 1 <= d <= 24 ->
  (point (board gs) d * p_sign pl <? 0) && (Z.abs (point (board gs) d) >=? 2)
  = false ->
  calculate_pip (land pl gs d) q
  = calculate_pip gs q
    + (if player_eqb q pl then dist_to_off pl d
       else if hits pl gs d then dist_to_off pl d else 0).
Proof.
  intros Hl Hd Hnb. unfold land, hits.
  destruct (Z.ltb_spec (point (board gs) d * p_sign pl) 0) as [Hneg|Hpos];
    cbn [andb] in *.
  - rewrite Z.geb_leb in Hnb. apply Z.leb_gt in Hnb.
    assert (Hnz : point (board gs) d <> 0)
      by (intros E; rewrite E, Z.mul_0_l in *; lia).
    destruct (Z.eqb_spec (Z.abs (point (board gs) d)) 1); [|lia].
    rewrite pip_set_point by (rewrite ?board_set_bar; auto).
    rewrite board_set_bar, pip_set_bar.
    unfold pip_share, dist_to_off.
    destruct pl, q; unfold p_sign in *;
      cbn [player_eqb opponent bar_of set_bar white_bar black_bar];
      repeat match goal with
             | |- context [?a >? ?b] => destruct (Z.gtb_spec a b)
             end; try lia; nia.
  - rewrite pip_set_point by auto.
    unfold pip_share, dist_to_off.
    destruct pl, q; unfold p_sign in *; cbn [player_eqb];
      repeat match goal with
             | |- context [?a >? ?b] => destruct (Z.gtb_spec a b)
             end; try lia; nia.
Qed.

Lemma hits_lift (pl : player) (gs : BackgammonGame) (s d : Z) :
  length (board gs) = 24%nat -> 1 <= s <= 24 -> 1 <= d <= 24 ->
  owns pl gs s -> hits pl (lift pl gs s) d = hits pl gs d.
Proof.
  intros Hl Hs Hd Hown. unfold hits, lift. cbn [board set_board].
  rewrite point_set_point by auto.
  destruct (Z.eqb_spec d s) as [->|Hne]; [|reflexivity].
  unfold owns in Hown.
  destruct (Z.ltb_spec ((point (board gs) s - p_sign pl) * p_sign pl) 0);
    destruct (Z.ltb_spec (point (board gs) s * p_sign pl) 0);
    try reflexivity; destruct pl; unfold p_sign in *; lia.
Qed.

(** X14: a generated move lowers the mover's pip count by exactly the die
    that generated it, or by the checker's distance to off when it bears
    off; the opponent's pip count stays, except that a hit raises it by
    the way the hit checker has lost: the mover's distance from that
    point to off. *)
Theorem pip_of_generated_move (gs : BackgammonGame) (pl : player) (die : Z)
        (src dst : endpoint) :
  length (board gs) = 24%nat ->
  In (src, dst) (_get_single_moves_for_die pl die gs) ->
  let g' := snd (make_move_base_logic gs pl src dst) in
  calculate_pip g' pl
  = calculate_pip gs pl
    - match src, dst with
      | Pt s, Off => dist_to_off pl s
      | _, _ => die
      end /\
  calculate_pip g' (opponent pl)
  = calculate_pip gs (opponent pl)
    + match dst with
      | Pt d => if hits pl gs d then dist_to_off pl d else 0
      | _ => 0
      end.
Proof.
  intros Hl Hin. cbv zeta.
  rewrite (base_logic_generated_played gs pl die src dst Hl Hin).
  cbn [snd].
  assert (Hself : player_eqb pl pl = true) by (destruct pl; reflexivity).
  assert (Hopp : player_eqb (opponent pl) pl = false)
    by (destruct pl; reflexivity).
  pose proof (generated_move_geometry _ _ _ _ _ Hin) as Hgeo.
  apply generated_move_cases in Hin.
  destruct Hin as [(-> & Hbar & e & -> & He & Hal)
                  |(s & -> & Hs & Hown & [->|(d & -> & Hd & Hal)])];
    unfold played.
  - destruct Hgeo as [(_ & [= ->] & _)|(s & [=] & _)].
    assert (Hnb : (point (board (set_bar pl gs (bar_of pl gs - 1)))
                         (entry_point_of pl die) * p_sign pl <? 0)
                  && (Z.abs (point (board (set_bar pl gs (bar_of pl gs - 1)))
                                   (entry_point_of pl die)) >=? 2) = false)
      by (rewrite board_set_bar; apply allowed_not_blocked; exact Hal).
    rewrite !pip_land
      by (first [exact Hnb | rewrite ?board_set_bar; auto]).
    rewrite !pip_set_bar, Hself, Hopp.
    unfold hits. rewrite board_set_bar.
    split; [|lia].
    unfold entry_point_of, dist_to_off. destruct pl; lia.
  - rewrite !pip_set_off, !pip_lift by auto. rewrite Hself, Hopp.
    split; lia.
  - destruct Hgeo as [([=] & _)|(s' & [= <-] & _ & [[[= ->] _]|([=] & _)])].
    assert (Hl' : length (board (lift pl gs s)) = 24%nat)
      by (unfold lift; cbn [board set_board]; unfold set_point;
          rewrite set_nth_length; exact Hl).
    rewrite !pip_land
      by (auto; unfold lift; cbn [board set_board];
          apply lifted_not_blocked; auto).
    rewrite !pip_lift by auto. rewrite Hself, Hopp.
    rewrite hits_lift by auto.
    split; [|lia].
    unfold dist_to_off. destruct pl; lia.
Qed.

Lemma pip_of_generated_move_witness :
  let g' := snd (make_move_base_logic initial_game W (Pt 1) (Pt 4)) in
  calculate_pip g' W = calculate_pip initial_game W - 3 /\
  calculate_pip g' (opponent W)
  = calculate_pip initial_game (opponent W)
    + (if hits W initial_game 4 then dist_to_off W 4 else 0).
Proof.
  apply (pip_of_generated_move initial_game W 3 (Pt 1) (Pt 4)).
  - reflexivity.
  - vm_compute. tauto.
Defined.

Lemma sum_map_le (f g : Z -> Z) (l : list Z) :
  (forall x, In x l -> f x <= g x) -> sum_Z (map f l) <= sum_Z (map g l).
Proof.
  induction l as [|x t IH]; intros H; cbn [map]; [reflexivity|].
  rewrite !sum_Z_cons.
  specialize (H x (or_introl eq_refl)) as Hx.
  assert (Ht : sum_Z (map f t) <= sum_Z (map g t))
    by (apply IH; intros y Hy; apply H; right; exact Hy).
  lia.
Qed.

Lemma sum_map_scale (k : Z) (f : Z -> Z) (l : list Z) :
  sum_Z (map (fun x => k * f x) l) = k * sum_Z (map f l).
Proof.
  induction l as [|x t IH]; cbn [map]; [cbn; lia|].
  rewrite !sum_Z_cons, IH. lia.
Qed.

Lemma points_of_board (b : list Z) :
  length b = 24%nat -> map (point b) (range 1 25) = b.
Proof.
  intros Hl.
  do 24 (destruct b as [|? b]; [discriminate|]).
  destruct b; [reflexivity | discriminate].
Qed.

Lemma w_board_parts (b : list Z) : w_board b = sum_Z (map pos_part b).
Proof.
  unfold w_board, pos_part.
  induction b as [|x t IH]; cbn [filter map]; [reflexivity|].
  destruct (x >? 0); rewrite !sum_Z_cons; lia.
Qed.

Lemma b_board_parts (b : list Z) : b_board b = sum_Z (map neg_part b).
Proof.
  unfold b_board, neg_part.
  induction b as [|x t IH]; cbn [filter map]; [reflexivity|].
  destruct (x <? 0); cbn [map]; rewrite !sum_Z_cons; lia.
Qed.

(** The checkers a player has on the board, counted point by point. *)
Lemma on_board_by_point (pl : player) (b : list Z) :
  length b = 24%nat ->
  match pl with W => w_board b | B => b_board b end
  = sum_Z (map (fun pos => match pl with
                           | W => pos_part (point b pos)
                           | B => neg_part (point b pos)
                           end) (range 1 25)).
Proof.
  intros Hl. destruct pl.
  - rewrite w_board_parts. rewrite <- (points_of_board b Hl) at 1.
    rewrite map_map. reflexivity.
  - rewrite b_board_parts. rewrite <- (points_of_board b Hl) at 1.
    rewrite map_map. reflexivity.
Qed.

Lemma pip_share_bounds (pl : player) (pos c : Z) :
  1 <= pos <= 24 ->
  let part := match pl with W => pos_part c | B => neg_part c end in
  part <= pip_share pl pos c <= 24 * part.
Proof.
  intros Hpos. unfold pip_share, pos_part, neg_part, dist_to_off.
  destruct pl; unfold p_sign;
    repeat match goal with
           | |- context [?a >? ?b] => destruct (Z.gtb_spec a b)
           | |- context [?a <? ?b] => destruct (Z.ltb_spec a b)
           end; try lia; nia.
Qed.

(** X15: in a conserved, well-formed state a player's pip count lies
    between the number of checkers the player has not yet borne off and
    twenty-five times that number; it is zero exactly when all fifteen
    are off. *)
Theorem pip_count_bounds (gs : BackgammonGame) (pl : player) :
  conserved gs -> well_formed gs ->
  15 - off_of pl gs <= calculate_pip gs pl <= 25 * (15 - off_of pl gs) /\
  (calculate_pip gs pl = 0 <-> off_of pl gs = 15).
Proof.
  intros [Hl Hc] (_ & Hwb & Hbb & Hwo & Hbo).
  assert (Hb : 15 - off_of pl gs <= calculate_pip gs pl
               <= 25 * (15 - off_of pl gs)).
  { rewrite calculate_pip_sum.
    set (part := fun pos => match pl with
                            | W => pos_part (point (board gs) pos)
                            | B => neg_part (point (board gs) pos)
                            end).
    assert (Hlo : sum_Z (map part (range 1 25))
                  <= sum_Z (map (fun pos => pip_share pl pos
                                              (point (board gs) pos))
                                (range 1 25))).
    { apply sum_map_le. intros x Hx. apply in_range in Hx.
      unfold part. apply (pip_share_bounds pl x). lia. }
    assert (Hhi : sum_Z (map (fun pos => pip_share pl pos
                                           (point (board gs) pos))
                             (range 1 25))
                  <= 24 * sum_Z (map part (range 1 25))).
    { rewrite <- sum_map_scale. apply sum_map_le. intros x Hx.
      apply in_range in Hx. unfold part.
      apply (pip_share_bounds pl x). lia. }
    pose proof (on_board_by_point pl (board gs) Hl) as Hon.
    fold part in Hon. rewrite <- Hon in Hlo, Hhi.
    unfold get_total_checker_count in Hc.
    fold (w_board (board gs)) in Hc. fold (b_board (board gs)) in Hc.
    injection Hc as Hw Hbk.
    pose proof (w_board_bounds (board gs) 0) as [Hw0 _].
    pose proof (b_board_bounds (board gs) 0) as [Hb0 _].
    destruct pl; cbn [bar_of off_of] in *; lia. }
  split; [exact Hb|].
  assert (Hoff : off_of pl gs <= 15).
  { destruct (conserved_bounds gs (conj Hl Hc)
                (conj Hl (conj Hwb (conj Hbb (conj Hwo Hbo)))))
      as (_ & H1 & H2).
    destruct pl; cbn [off_of]; lia. }
  lia.
Qed.

Lemma pip_count_bounds_witness :
  15 - off_of W initial_game <= calculate_pip initial_game W
  <= 25 * (15 - off_of W initial_game) /\
  (calculate_pip initial_game W = 0 <-> off_of W initial_game = 15).
Proof.
  apply (pip_count_bounds initial_game W).
  - split; reflexivity.
  - unfold well_formed; simpl; repeat split; lia.
Defined.

(** X13: a call of [get_minimax_score_sampled], at any depth and with
    any bounds, leaves the board, the bars, the offs, the player to move,
    the dice and the move cache of the object it is called on as they
    were; the winner field is as [is_game_over] sets it: a side with
    fifteen checkers off, otherwise unchanged. *)
Theorem search_writes_winner_and_phase_only
        (heuristic : BackgammonGame -> player -> phase -> float)
        (randint : nat -> Z) (depth : nat) (gs : BackgammonGame)
        (turn maximizing_player : player) (alpha beta : float) (drawn : nat) :
  let g := state_of (get_minimax_score_sampled heuristic randint depth gs turn
                                               maximizing_player alpha beta
                                               drawn) in
  board g = board gs /\
  white_bar g = white_bar gs /\ black_bar g = black_bar gs /\
  white_off g = white_off gs /\ black_off g = black_off gs /\
  current_player g = current_player gs /\
  dice g = dice gs /\ available_moves g = available_moves gs /\
  winner g = (if white_off gs >=? 15 then Won W
              else if black_off gs >=? 15 then Won B else winner gs).
Proof.
  cbv zeta.
  destruct (search_frame heuristic randint depth gs turn maximizing_player
                         alpha beta drawn)
    as ((Hb & Hwb & Hbb & Hwo & Hbo) & Hcp & Hd & Hav & Hw).
  repeat split; assumption.
Qed.

(** ** The selection marks the win *)

(** When some move exists, the returned sequence belongs to an enumerated
    outcome and the returned state is that outcome's object as the search
    call on it left it, with the turn marked as done. *)
Lemma select_chosen_outcome
      (heuristic : BackgammonGame -> player -> phase -> float)
      (randint : nat -> Z) (gs : BackgammonGame) (dice_tuple : list Z)
      (ai_player : player) (drawn : nat) :
  let outs :=
    generate_possible_next_states_with_sequences gs dice_tuple ai_player in
  let r := select_ai_move_minimax heuristic randint gs dice_tuple ai_player
                                  drawn in
  no_move_outcome outs = false ->
  exists s g,
    In (s, fst (fst r)) outs /\ searched g s /\ snd (fst r) = turn_done g.
Proof.
  cbv zeta. intros Hno.
  destruct (select_chosen heuristic randint gs dice_tuple ai_player drawn
                          Hno) as (i & g & sc & Hnth & Hst & _).
  destruct (Forall2_nth_error
              _ _ _ i _
              (score_outcomes_scored_from
                 heuristic randint ai_player
                 (generate_possible_next_states_with_sequences
                    gs dice_tuple ai_player) drawn) Hnth)
    as ([s sq] & Hout & k & Hfrom).
  cbv zeta in Hfrom. cbn [fst snd] in Hfrom.
  pose proof (search_frame
                heuristic randint (MAX_DEPTH - 1) s (opponent ai_player)
                ai_player neg_infinity infinity k) as Hpos.
  remember (get_minimax_score_sampled
              heuristic randint (MAX_DEPTH - 1) s (opponent ai_player)
              ai_player neg_infinity infinity k) as res eqn:Hres.
  clear Hres. injection Hfrom as Hg Hsq _.
  exists s, g. rewrite Hsq. split; [eapply nth_error_In; eauto|].
  split; [rewrite Hg; exact Hpos | exact Hst].
Qed.

Lemma enumerated_winner (gs : BackgammonGame) (dice_tuple : list Z)
      (pl : player) (s : BackgammonGame) (sq : list move) :
  In (s, sq) (generate_possible_next_states_with_sequences gs dice_tuple pl) ->
  winner s = winner gs.
Proof.
  intros Hin. apply generate_results_from in Hin.
  destruct Hin as [[= -> ->]|[k Hin]]; [reflexivity|].
  apply collect_plays in Hin. destruct Hin as (dc & dr' & _ & Hp).
  apply plays_frame in Hp. destruct Hp as ((_ & _ & Hw & _) & _).
  exact Hw.
Qed.

(** X16: when [select_ai_move_minimax] returns a move, the state it
    returns carries the winner mark the main loop reads after the AI's
    turn: the side that has fifteen checkers off in the returned state,
    and the input's winner field when neither has.  The enumerator never
    sets the mark; it is the search call on the chosen outcome that
    does. *)
Theorem select_marks_the_win
        (heuristic : BackgammonGame -> player -> phase -> float)
        (randint : nat -> Z) (gs : BackgammonGame) (dice_tuple : list Z)
        (ai_player : player) (drawn : nat) :
  let r := select_ai_move_minimax heuristic randint gs dice_tuple ai_player
                                  drawn in
  let sequence := fst (fst r) in
  let state := snd (fst r) in
  sequence <> [] ->
  winner state
  = (if white_off state >=? 15 then Won W
     else if black_off state >=? 15 then Won B else winner gs).
Proof.
  cbv zeta.
  destruct (no_move_outcome
              (generate_possible_next_states_with_sequences
                 gs dice_tuple ai_player)) eqn:Hno.
  - unfold select_ai_move_minimax. rewrite Hno. cbn [fst snd]. congruence.
  - destruct (select_chosen_outcome heuristic randint gs dice_tuple ai_player
                                    drawn Hno)
      as (s & g & Hin & (Hsc & _ & _ & _ & Hw) & Hst).
    rewrite Hst. apply enumerated_winner in Hin.
    destruct Hsc as (_ & _ & _ & Hwo & Hbo).
    intros _. unfold turn_done.
    cbn [winner white_off black_off set_available_moves set_dice].
    rewrite Hw, Hwo, Hbo. unfold winner_after_check. rewrite Hin.
    reflexivity.
Qed.

Lemma select_marks_the_win_witness :
  let r := select_ai_move_minimax (fun _ _ _ => 0%float) (fun _ => 1)
                                  (set_dice last_checker_position [1; 1; 1; 1])
                                  [1; 1; 1; 1] W 0 in
  winner (snd (fst r))
  = (if white_off (snd (fst r)) >=? 15 then Won W
     else if black_off (snd (fst r)) >=? 15 then Won B
          else winner (set_dice last_checker_position [1; 1; 1; 1])).
Proof.
  apply (select_marks_the_win
           (fun _ _ _ => 0%float) (fun _ => 1)
           (set_dice last_checker_position [1; 1; 1; 1]) [1; 1; 1; 1] W 0).
  vm_compute. discriminate.
Defined.

(** ** Ordinary moves *)

Lemma moves_from_point_cases (pl : player) (die : Z) (gs : BackgammonGame)
      (pos : Z) :
  let dest := match pl with W => pos + die | B => pos - die end in
  moves_from_point pl die gs pos = []
  \/ (moves_from_point pl die gs pos = [(Pt pos, Pt dest)] /\
      owns pl gs pos /\ 1 <= dest <= 24 /\
      is_allowed (point (board gs) dest) (p_sign pl) = true)
  \/ (moves_from_point pl die gs pos = [(Pt pos, Off)] /\
      ~ 1 <= dest <= 24).
Proof.
  cbv zeta. unfold moves_from_point, owns.
  destruct (Z.gtb_spec (point (board gs) pos * p_sign pl) 0); [|left; auto].
  set (dest := match pl with W => pos + die | B => pos - die end).
  destruct (Z.leb_spec 1 dest); destruct (Z.leb_spec dest 24); cbn [andb].
  1: { destruct (is_allowed _ _) eqn:E; [|left; auto].
       right; left. repeat split; auto; lia. }
  all: destruct (_check_all_pieces_home pl gs); [|left; auto];
    destruct (_can_bear_off pl pos die gs); [|left; auto];
    right; right; split; [reflexivity | lia].
Qed.

(** X17: a move from point to point is generated for a die exactly when
    the player has no checker on the bar, owns the source point, the
    destination is the source advanced by the die in the player's
    direction and lies on the board, and at most one opposing checker
    stands there.  The generator gives each source at most one
    destination. *)
Theorem ordinary_move_generated_iff (gs : BackgammonGame) (pl : player)
        (die : Z) :
  (forall s d,
      In (Pt s, Pt d) (_get_single_moves_for_die pl die gs) <->
      bar_of pl gs <= 0 /\ 1 <= s <= 24 /\ owns pl gs s /\
      d = match pl with W => s + die | B => s - die end /\
      1 <= d <= 24 /\ opposing_checkers pl gs d <= 1) /\
  (forall src d1 d2,
      In (src, d1) (_get_single_moves_for_die pl die gs) ->
      In (src, d2) (_get_single_moves_for_die pl die gs) -> d1 = d2).
Proof.
  destruct (Z_le_gt_dec (bar_of pl gs) 0) as [Hle|Hgt].
  - rewrite single_moves_no_bar by auto. split.
    + intros s d. rewrite in_flat_map. split.
      * intros [p [Hp Hin]]. apply in_range in Hp.
        destruct (moves_from_point_cases pl die gs p)
          as [E|[(E & Hown & Hd & Hal)|(E & _)]];
          rewrite E in Hin; [destruct Hin| |destruct Hin as [Heq|[]]];
          [|discriminate].
        destruct Hin as [Heq|[]]. injection Heq as <- <-.
        apply is_allowed_opposing in Hal. repeat split; auto; lia.
      * intros (_ & Hs & Hown & -> & Hd & Hopp).
        exists s. split; [apply in_range; lia|].
        apply is_allowed_opposing in Hopp.
        unfold moves_from_point. unfold owns in Hown.
        destruct (Z.gtb_spec (point (board gs) s * p_sign pl) 0); [|lia].
        set (dest := match pl with W => s + die | B => s - die end) in *.
        destruct (Z.leb_spec 1 dest); [|lia].
        destruct (Z.leb_spec dest 24); [|lia].
        cbn [andb]. rewrite Hopp. left; reflexivity.
    + intros src d1 d2. rewrite !in_flat_map.
      intros [p1 [_ H1]] [p2 [_ H2]].
      pose proof (in_moves_from_point _ _ _ _ _ H1) as [E1 _].
      pose proof (in_moves_from_point _ _ _ _ _ H2) as [E2 _].
      cbn [fst] in E1, E2. rewrite E1 in E2. injection E2 as <-.
      destruct (moves_from_point_cases pl die gs p1) as [E|[(E & _)|(E & _)]];
        rewrite E in H1, H2; [destruct H1| |];
        destruct H1 as [H1|[]]; destruct H2 as [H2|[]]; congruence.
  - assert (Hbar : forall m,
               In m (_get_single_moves_for_die pl die gs) ->
               m = (Bar, Pt (entry_point_of pl die))).
    { intros m. unfold _get_single_moves_for_die.
      destruct (Z.gtb_spec (bar_of pl gs) 0); [|lia].
      fold (entry_point_of pl die).
      destruct ((1 <=? _) && (_ <=? 24)); [|intros []].
      destruct (is_allowed _ _); [|intros []].
      intros [<-|[]]. reflexivity. }
    split.
    + intros s d. split; [|lia].
      intros Hin. apply Hbar in Hin. discriminate.
    + intros src d1 d2 H1 H2. apply Hbar in H1. apply Hbar in H2. congruence.
Qed.

(** ** When a turn has no legal move *)

Lemma insert_desc_unique_head (x : Z) (l : list Z) :
  In x (insert_desc_unique x l).
Proof.
  induction l as [|z t IH]; cbn [insert_desc_unique In]; [auto|].
  destruct (Z.eqb_spec x z) as [->|]; [left; reflexivity|].
  destruct (x >? z); cbn [In]; auto.
Qed.

Lemma sorted_set_desc_in (y : Z) (l : list Z) :
  In y l -> In y (sorted_set_desc l).
Proof.
  induction l as [|x t IH]; cbn [sorted_set_desc fold_right In]; [intros []|].
  fold (sorted_set_desc t). intros [->|H].
  - apply insert_desc_unique_head.
  - apply insert_desc_unique_in. apply IH. exact H.
Qed.

(** The resolver allows some die as soon as one die of the roll has a
    legal single move. *)
Lemma strictly_playable_some (gs : BackgammonGame) (dice_list : list Z)
      (pl : player) (d : Z) :
  In d dice_list -> _get_single_moves_for_die pl d gs <> [] ->
  _get_strictly_playable_dice gs dice_list pl <> [].
Proof.
  intros Hd Hmv.
  assert (Hip : In d (filter
                        (fun die =>
                           nonempty (_get_single_moves_for_die pl die gs))
                        (sorted_set_desc dice_list))).
  { apply filter_In. split; [apply sorted_set_desc_in; exact Hd|].
    apply nonempty_true. exact Hmv. }
  unfold _get_strictly_playable_dice.
  destruct dice_list as [|d0 dr]; [destruct Hd|].
  set (ip := filter (fun die => nonempty (_get_single_moves_for_die pl die gs))
                    (sorted_set_desc (d0 :: dr))) in *.
  destruct ip as [|i0 ir] eqn:Eip; [destruct Hip|].
  rewrite <- Eip in *.
  assert (Hne : ip <> []) by (rewrite Eip; discriminate).
  destruct dr as [|d1 [|d2 dr']]; try exact Hne.
  destruct (negb (d0 =? d1)); [|exact Hne].
  assert (Hd' : d = Z.max d0 d1 \/ d = Z.min d0 d1)
    by (destruct Hd as [<-|[<-|[]]]; lia).
  apply mem_Z_In in Hip.
  destruct (mem_Z (Z.max d0 d1) ip) eqn:El;
    destruct (mem_Z (Z.min d0 d1) ip) eqn:Es; cbn [andb negb];
    try discriminate.
  - destruct (negb _ && true); [discriminate | exact Hne].
  - destruct Hd' as [->| ->]; congruence.
Qed.

(** X18: [get_legal_actions] is empty exactly when no die of the pool has
    a legal single move for the player to move: the forced-die rules
    narrow the choice of dice but never take the last move away. *)
Theorem no_legal_action_iff (gs : BackgammonGame) :
  get_legal_actions gs = [] <->
  forall d, In d (dice gs) ->
            _get_single_moves_for_die (current_player gs) d gs = [].
Proof.
  split.
  - intros Hnil d Hd.
    destruct (_get_single_moves_for_die (current_player gs) d gs)
      as [|m ms] eqn:Em; [reflexivity|].
    exfalso.
    assert (Hne : _get_strictly_playable_dice gs (dice gs) (current_player gs)
                  <> [])
      by (apply (strictly_playable_some gs (dice gs) _ d); [exact Hd|];
          rewrite Em; discriminate).
    destruct (_get_strictly_playable_dice gs (dice gs) (current_player gs))
      as [|x xs] eqn:Ex; [congruence|].
    assert (Hx : In x (_get_strictly_playable_dice gs (dice gs)
                                                   (current_player gs)))
      by (rewrite Ex; left; reflexivity).
    pose proof (strictly_playable_in _ _ _ _ Hx) as [_ Hxm].
    destruct (_get_single_moves_for_die (current_player gs) x gs)
      as [|mx mxs] eqn:Emx; [congruence|].
    assert (Hin : In mx (get_legal_actions gs)).
    { unfold get_legal_actions. destruct (dice gs); [destruct Hd|].
      apply dedup_moves_in. apply in_flat_map. exists x.
      split; [exact Hx | rewrite Emx; left; reflexivity]. }
    rewrite Hnil in Hin. destruct Hin.
  - intros Hnone. unfold get_legal_actions.
    destruct (dice gs) as [|d0 dr] eqn:Ed; [reflexivity|].
    rewrite <- Ed in *.
    rewrite strictly_playable_none by exact Hnone. reflexivity.
Qed.

(** ** The contract of [make_move] on any move *)

Lemma make_move_try_shape (gs g : BackgammonGame) (src dst : endpoint)
      (die : Z) :
  make_move_try gs src dst die = Done g ->
  length (board g) = length (board gs) /\
  py_remove die (dice gs) = Some (dice g) /\
  current_player g = current_player gs /\ winner g = winner gs.
Proof.
  unfold make_move_try.
  remember (current_player gs) as pl eqn:Hpl.
  assert (Hsrc : forall g1,
             match src with
             | Bar => Done (set_bar pl gs (bar_of pl gs - 1))
             | Off => Raised gs
             | Pt s =>
                 match py_index (board gs) (s - 1) with
                 | Some i =>
                     Done (set_board gs (set_nth i (nth i (board gs) 0
                                                    - p_sign pl) (board gs)))
                 | None => Raised gs
                 end
             end = Done g1 ->
             length (board g1) = length (board gs) /\ dice g1 = dice gs /\
             current_player g1 = pl /\ winner g1 = winner gs).
  { intros g1. destruct src as [| |s].
    - intros [= <-]. rewrite board_set_bar.
      destruct pl; proj_simpl; repeat split; congruence.
    - discriminate.
    - destruct (py_index (board gs) (s - 1)); [|discriminate].
      intros [= <-]. cbn [board set_board]. rewrite set_nth_length.
      proj_simpl. repeat split; congruence. }
  destruct (match src with
            | Bar => Done (set_bar pl gs (bar_of pl gs - 1))
            | Off => Raised gs
            | Pt s =>
                match py_index (board gs) (s - 1) with
                | Some i =>
                    Done (set_board gs (set_nth i (nth i (board gs) 0
                                                   - p_sign pl) (board gs)))
                | None => Raised gs
                end
            end) as [g1|g1] eqn:E1; [|discriminate].
  destruct (Hsrc g1 eq_refl) as (Hl1 & Hd1 & Hc1 & Hw1). clear Hsrc.
  assert (Hdst : forall g2,
             match dst with
             | Bar => Raised g1
             | Off => Done (set_off pl g1 (off_of pl g1 + 1))
             | Pt d =>
                 match py_index (board g1) (d - 1) with
                 | Some i =>
                     let dest_count := nth i (board g1) 0 in
                     if dest_count * p_sign pl <? 0 then
                       if Z.abs dest_count =? 1 then
                         let gs2 := set_board g1 (set_nth i 0 (board g1)) in
                         let gs3 :=
                           set_bar (opponent pl) gs2
                                   (bar_of (opponent pl) gs2 + 1) in
                         Done (set_board gs3
                                         (set_nth i (p_sign pl) (board gs3)))
                       else Raised g1
                     else
                       Done (set_board g1 (set_nth i (dest_count + p_sign pl)
                                                   (board g1)))
                 | None => Raised g1
                 end
             end = Done g2 ->
             length (board g2) = length (board g1) /\ dice g2 = dice g1 /\
             current_player g2 = current_player g1 /\ winner g2 = winner g1).
  { intros g2. destruct dst as [| |d].
    - discriminate.
    - intros [= <-]. destruct pl; proj_simpl; repeat split; congruence.
    - destruct (py_index (board g1) (d - 1)) as [i|]; [|discriminate].
      cbv zeta.
      destruct (nth i (board g1) 0 * p_sign pl <? 0).
      + destruct (Z.abs (nth i (board g1) 0) =? 1); [|discriminate].
        intros [= <-]. cbn [board set_board].
        rewrite board_set_bar. cbn [board set_board].
        rewrite !set_nth_length.
        destruct pl; proj_simpl; repeat split; congruence.
      + intros [= <-]. cbn [board set_board]. rewrite set_nth_length.
        repeat split. }
  match goal with
  | |- match ?x with Done _ => _ | Raised _ => _ end = _ -> _ =>
      destruct x as [g2|g2] eqn:E2; [|discriminate]
  end.
  destruct (Hdst g2 eq_refl) as (Hl2 & Hd2 & Hc2 & Hw2). clear Hdst.
  destruct (py_remove die (dice g2)) as [rest|] eqn:Er; [|discriminate].
  intros [= <-]. cbn [board dice current_player winner set_dice].
  repeat split; congruence.
Qed.

(** X19: the contract of [make_move] on a 24-point board, whatever move
    it is given.  When it returns [True] the result has fifteen checkers
    a side, exactly one die has left the pool, the player is the same,
    the move cache holds the legal moves of the result and the winner is
    a side with fifteen checkers off, if any; when it returns [False] the
    state is untouched or marked as in error. *)
Theorem make_move_contract (gs : BackgammonGame) (src dst : endpoint) :
  length (board gs) = 24%nat ->
  let r := make_move gs src dst in
  (fst r = true ->
   conserved (snd r) /\
   (exists die, py_remove die (dice gs) = Some (dice (snd r))) /\
   current_player (snd r) = current_player gs /\
   available_moves (snd r) = get_legal_actions (snd r) /\
   winner (snd r)
   = (if white_off (snd r) >=? 15 then Won W
      else if black_off (snd r) >=? 15 then Won B else winner gs)) /\
  (fst r = false -> snd r = gs \/ winner (snd r) = ErrorState).
Proof.
  intros Hl r. split.
  - intros Htrue.
    destruct (die_to_remove gs src dst) as [die|] eqn:Hdie;
      [|unfold r, make_move in Htrue; rewrite Hdie in Htrue; discriminate].
    destruct (make_move_try gs src dst die) as [g1|g1] eqn:Htry;
      [|unfold r, make_move in Htrue; rewrite Hdie, Htry in Htrue;
        discriminate].
    pose proof (make_move_try_shape _ _ _ _ _ Htry) as (Hl1 & Hrem & Hcp & Hw).
    assert (Hc1 : conserved g1).
    { split; [congruence|].
      unfold r, make_move in Htrue. rewrite Hdie, Htry in Htrue.
      set (g2 := set_available_moves g1 (get_legal_actions g1)) in *.
      pose proof (is_game_over_frame g2) as (Hsc & _).
      destruct (is_game_over g2) as [over g3]. cbn [snd] in Hsc.
      assert (Hcount : get_total_checker_count g3 = get_total_checker_count g1).
      { destruct Hsc as (Hb & Hwb & Hbb & Hwo & Hbo).
        unfold get_total_checker_count. rewrite Hb, Hwb, Hbb, Hwo, Hbo.
        reflexivity. }
      rewrite <- Hcount.
      destruct (get_total_checker_count g3) as [w b].
      destruct (Z.eqb_spec w 15); destruct (Z.eqb_spec b 15);
        cbn [negb orb fst] in Htrue; try discriminate.
      congruence. }
    pose proof (make_move_after_try gs g1 src dst die Hdie Htry Hc1)
      as (_ & Hsc & Hcur & Hd & _ & Hav & Hwin).
    fold r in Hsc, Hcur, Hd, Hav, Hwin.
    split; [apply (same_checkers_conserved _ _ Hsc Hc1)|].
    split; [exists die; rewrite Hd; exact Hrem|].
    split; [congruence|]. split; [exact Hav|].
    rewrite Hwin. destruct Hsc as (_ & _ & _ & -> & ->). rewrite Hw.
    reflexivity.
  - intros Hfalse. unfold r, make_move in *.
    destruct (die_to_remove gs src dst) as [die|]; [|left; reflexivity].
    destruct (make_move_try gs src dst die) as [g1|g1];
      [|right; reflexivity].
    destruct (is_game_over _) as [over g3].
    destruct (get_total_checker_count g3) as [w b].
    destruct (negb (w =? 15) || negb (b =? 15));
      [right; reflexivity | discriminate].
Qed.

Lemma make_move_contract_witness :
  let r := make_move (roll_dice initial_game 3 1) (Pt 17) (Pt 20) in
  (fst r = true ->
   conserved (snd r) /\
   (exists die, py_remove die (dice (roll_dice initial_game 3 1))
                = Some (dice (snd r))) /\
   current_player (snd r) = current_player (roll_dice initial_game 3 1) /\
   available_moves (snd r) = get_legal_actions (snd r) /\
   winner (snd r)
   = (if white_off (snd r) >=? 15 then Won W
      else if black_off (snd r) >=? 15 then Won B
           else winner (roll_dice initial_game 3 1))) /\
  (fst r = false -> snd r = roll_dice initial_game 3 1
                    \/ winner (snd r) = ErrorState).
Proof.
  apply (make_move_contract (roll_dice initial_game 3 1) (Pt 17) (Pt 20)).
  reflexivity.
Defined.

(** ** Invariants of the main loop *)

Lemma enumerated_state (gs : BackgammonGame) (dice_tuple : list Z)
      (pl : player) (s : BackgammonGame) (sq : list move) :
  conserved gs -> well_formed gs ->
  In (s, sq) (generate_possible_next_states_with_sequences gs dice_tuple pl) ->
  conserved s /\ well_formed s.
Proof.
  intros Hc Hwf Hin. apply generate_results_from in Hin.
  destruct Hin as [[= -> ->]|[k Hin]]; [split; assumption|].
  apply collect_plays in Hin. destruct Hin as (dc & dr' & _ & Hp).
  apply plays_frame in Hp. destruct Hp as (_ & Hwf' & Hc').
  assert (Hs0 : same_checkers (set_dice gs dc) gs)
    by (repeat split; reflexivity).
  split.
  - apply Hc'. apply (same_checkers_conserved _ _ Hs0 Hc).
  - apply Hwf'. apply (same_checkers_well_formed _ _ Hs0 Hwf).
Qed.

Lemma legal_actions_no_dice (gs : BackgammonGame) :
  dice gs = [] -> get_legal_actions gs = [].
Proof. intros E. unfold get_legal_actions. rewrite E. reflexivity. Qed.


(** ** The mean at a chance node *)

Lemma sample_step_num
      (recurse : BackgammonGame -> float -> float -> nat -> search_result)
      (is_max : bool) (turn : player) (st : chance_loop) (sample : Z * Z) :
  cl_num (sample_step recurse is_max turn st sample) = S (cl_num st).
Proof.
  unfold sample_step. destruct sample as [d1 d2].
  destruct is_max; [unfold max_sample_step | unfold min_sample_step];
    destruct (no_move_outcome _).
  - destruct (recurse _ _ _ _) as [[v g] k]. reflexivity.
  - destruct (branches_max _ _ _ _ _ _) as [[b a] k]. reflexivity.
  - destruct (recurse _ _ _ _) as [[v g] k]. reflexivity.
  - destruct (branches_min _ _ _ _ _ _) as [[b a] k]. reflexivity.
Qed.

Lemma chance_node_after_num
      (heuristic : BackgammonGame -> player -> phase -> float)
      (randint : nat -> Z) (i depth' : nat) (gs : BackgammonGame)
      (turn maximizing_player : player) (alpha beta : float) (drawn : nat) :
  (i <= NUM_DICE_SAMPLES)%nat ->
  cl_num (chance_node_after heuristic randint i depth' gs turn
                            maximizing_player alpha beta drawn) = i.
Proof.
  induction i as [|i IH]; intros Hi.
  - rewrite chance_node_after_zero. reflexivity.
  - rewrite chance_node_after_succ by lia. rewrite sample_step_num.
    rewrite IH by lia. reflexivity.
Qed.

(** X21: at a chance node (a call above depth 0 on a game that is not
    over) every one of the [NUM_DICE_SAMPLES] sampled rolls adds one term
    to the sum, pruned or not, and the score returned is that sum divided
    by [NUM_DICE_SAMPLES]: the fallback value for an empty sample is never
    used. *)
Theorem chance_node_mean_of_all_samples
        (heuristic : BackgammonGame -> player -> phase -> float)
        (randint : nat -> Z) (depth' : nat) (gs : BackgammonGame)
        (turn maximizing_player : player) (alpha beta : float) (drawn : nat) :
  fst (is_game_over gs) = false ->
  let st := chance_node_after heuristic randint NUM_DICE_SAMPLES depth' gs
                              turn maximizing_player alpha beta drawn in
  cl_num st = NUM_DICE_SAMPLES /\
  score_of (get_minimax_score_sampled heuristic randint (S depth') gs turn
                                      maximizing_player alpha beta drawn)
  = (cl_accumulated st / float_of_nat NUM_DICE_SAMPLES)%float.
Proof.
  intros Hover st.
  assert (Hnum : cl_num st = NUM_DICE_SAMPLES)
    by (apply chance_node_after_num; lia).
  split; [exact Hnum|].
  rewrite minimax_is_chance_node by exact Hover.
  cbv zeta. fold st. unfold score_of, avg_score. cbn [fst].
  rewrite Hnum. reflexivity.
Qed.

Lemma chance_node_mean_of_all_samples_witness :
  let st := chance_node_after (fun _ _ _ => 0%float) (fun _ => 1)
                              NUM_DICE_SAMPLES 0 initial_game W W
                              neg_infinity infinity 0 in
  cl_num st = NUM_DICE_SAMPLES /\
  score_of (get_minimax_score_sampled (fun _ _ _ => 0%float) (fun _ => 1) 1
                                      initial_game W W neg_infinity infinity 0)
  = (cl_accumulated st / float_of_nat NUM_DICE_SAMPLES)%float.
Proof.
  apply (chance_node_mean_of_all_samples
           (fun _ _ _ => 0%float) (fun _ => 1) 0 initial_game W W
           neg_infinity infinity 0).
  reflexivity.
Defined.

(** ** Dice as a multiset *)

Lemma insert_asc_perm (x : Z) (l : list Z) :
  Permutation (insert_asc x l) (x :: l).
Proof.
  induction l as [|y t IH]; cbn [insert_asc]; [reflexivity|].
  destruct (x <=? y); [reflexivity|].
  rewrite IH. apply perm_swap.
Qed.

Lemma sorted_perm_self (l : list Z) : Permutation (sorted l) l.
Proof.
  induction l as [|x t IH]; cbn [sorted fold_right]; [reflexivity|].
  fold (sorted t). rewrite insert_asc_perm. now constructor.
Qed.

Lemma sorted_le_unique (l l' : list Z) :
  StronglySorted Z.le l -> StronglySorted Z.le l' -> Permutation l l' ->
  l = l'.
Proof.
  intros Hs. revert l'. induction Hs as [|x t Ht IH Hx]; intros l' Hs' Hp.
  - apply Permutation_nil in Hp. congruence.
  - destruct Hs' as [|y u Hu Hy].
    + apply Permutation_sym, Permutation_nil in Hp. discriminate.
    + rewrite Forall_forall in Hx, Hy.
      assert (Hxy : x = y).
      { assert (H1 : In x (y :: u))
          by (apply (Permutation_in _ Hp); left; reflexivity).
        assert (H2 : In y (x :: t))
          by (apply (Permutation_in _ (Permutation_sym Hp)); left; reflexivity).
        destruct H1 as [->|H1]; [reflexivity|].
        destruct H2 as [->|H2]; [reflexivity|].
        specialize (Hx _ H2). specialize (Hy _ H1). lia. }
      subst y. f_equal. apply IH; [exact Hu|].
      eapply Permutation_cons_inv; eauto.
Qed.

Lemma sorted_perm (l l' : list Z) : Permutation l l' -> sorted l = sorted l'.
Proof.
  intros Hp. apply sorted_le_unique; try apply sorted_sorted.
  rewrite !sorted_perm_self. exact Hp.
Qed.

Lemma filter_perm (f : Z -> bool) (l l' : list Z) :
  Permutation l l' -> Permutation (filter f l) (filter f l').
Proof.
  induction 1 as [|x l l' _ IH|x y l|l l' l'' _ IH1 _ IH2]; cbn [filter].
  - reflexivity.
  - destruct (f x); [constructor|]; exact IH.
  - destruct (f x); destruct (f y); try reflexivity. apply perm_swap.
  - etransitivity; eauto.
Qed.

Lemma filter_sorted_le (f : Z -> bool) (l : list Z) :
  StronglySorted Z.le l -> StronglySorted Z.le (filter f l).
Proof.
  induction 1 as [|x t Ht IH Hx]; cbn [filter]; [constructor|].
  destruct (f x); [|exact IH].
  constructor; [exact IH|].
  apply Forall_forall. intros a Ha. apply filter_In in Ha.
  rewrite Forall_forall in Hx. apply Hx. tauto.
Qed.

Lemma sorted_filter (f : Z -> bool) (l : list Z) :
  sorted (filter f l) = filter f (sorted l).
Proof.
  apply sorted_le_unique.
  - apply sorted_sorted.
  - apply filter_sorted_le, sorted_sorted.
  - rewrite sorted_perm_self. apply filter_perm.
    symmetry. apply sorted_perm_self.
Qed.

Lemma find_hd_filter (f : Z -> bool) (l : list Z) :
  find f l = hd_error (filter f l).
Proof.
  induction l as [|x t IH]; cbn [find filter]; [reflexivity|].
  destruct (f x); [reflexivity | exact IH].
Qed.

Lemma sorted_gt_unique (l l' : list Z) :
  StronglySorted Z.gt l -> StronglySorted Z.gt l' ->
  (forall x, In x l <-> In x l') -> l = l'.
Proof.
  intros Hs. revert l'. induction Hs as [|x t Ht IH Hx]; intros l' Hs' Hin.
  - destruct l' as [|y u]; [reflexivity|].
    exfalso. apply (Hin y). left; reflexivity.
  - destruct Hs' as [|y u Hu Hy].
    + exfalso. apply (Hin x). left; reflexivity.
    + rewrite Forall_forall in Hx, Hy.
      assert (Hxy : x = y).
      { assert (H1 : In x (y :: u)) by (apply Hin; left; reflexivity).
        assert (H2 : In y (x :: t)) by (apply Hin; left; reflexivity).
        destruct H1 as [->|H1]; [reflexivity|].
        destruct H2 as [->|H2]; [reflexivity|].
        specialize (Hx _ H2). specialize (Hy _ H1). lia. }
      subst y. f_equal. apply IH; [exact Hu|].
      intros z. split; intros Hz.
      * assert (H1 : In z (x :: u)) by (apply Hin; right; exact Hz).
        destruct H1 as [<-|H1]; [|exact H1].
        specialize (Hx _ Hz). lia.
      * assert (H1 : In z (x :: t)) by (apply Hin; right; exact Hz).
        destruct H1 as [<-|H1]; [|exact H1].
        specialize (Hy _ Hz). lia.
Qed.

Lemma sorted_set_desc_perm (l l' : list Z) :
  Permutation l l' -> sorted_set_desc l = sorted_set_desc l'.
Proof.
  intros Hp. apply sorted_gt_unique; try apply sorted_set_desc_sorted.
  intros x. split; intros Hx; apply sorted_set_desc_in;
    apply in_sorted_set_desc in Hx.
  - apply (Permutation_in _ Hp Hx).
  - apply (Permutation_in _ (Permutation_sym Hp) Hx).
Qed.

Lemma mem_Z_perm (x : Z) (l l' : list Z) :
  Permutation l l' -> mem_Z x l = mem_Z x l'.
Proof.
  intros Hp.
  destruct (mem_Z x l) eqn:E; destruct (mem_Z x l') eqn:E'; try reflexivity.
  - apply mem_Z_In in E. apply (Permutation_in _ Hp) in E.
    apply mem_Z_In in E. congruence.
  - apply mem_Z_In in E'. apply (Permutation_in _ (Permutation_sym Hp)) in E'.
    apply mem_Z_In in E'. congruence.
Qed.

Lemma py_remove_perm_cons (x : Z) (l r : list Z) :
  py_remove x l = Some r -> Permutation l (x :: r).
Proof.
  revert r. induction l as [|y t IH]; intros r; cbn [py_remove];
    [discriminate|].
  destruct (Z.eqb_spec x y) as [->|Hne].
  - intros [= <-]. reflexivity.
  - destruct (py_remove x t) as [t'|]; [|discriminate].
    intros [= <-]. rewrite (IH t' eq_refl). apply perm_swap.
Qed.

Lemma py_remove_perm (x : Z) (l l' r : list Z) :
  Permutation l l' -> py_remove x l = Some r ->
  exists r', py_remove x l' = Some r' /\ Permutation r r'.
Proof.
  intros Hp Hr.
  assert (Hin : In x l')
    by (apply (Permutation_in _ Hp); eapply py_remove_some_in; eauto).
  destruct (py_remove_in x l' Hin) as [r' Hr'].
  exists r'. split; [exact Hr'|].
  apply py_remove_perm_cons in Hr. apply py_remove_perm_cons in Hr'.
  apply (Permutation_cons_inv (a := x)).
  rewrite <- Hr, <- Hr'. exact Hp.
Qed.

(** The forced-die resolver reads the roll as a multiset. *)
Lemma strictly_playable_perm (gs : BackgammonGame) (l l' : list Z)
      (pl : player) :
  Permutation l l' ->
  _get_strictly_playable_dice gs l pl = _get_strictly_playable_dice gs l' pl.
Proof.
  intros Hp. unfold _get_strictly_playable_dice.
  rewrite (sorted_set_desc_perm l l' Hp).
  pose proof (Permutation_length Hp) as Hlen.
  destruct l as [|a [|b [|c l3]]]; destruct l' as [|a' [|b' [|c' l3']]];
    cbn [length] in Hlen; try discriminate; try reflexivity.
  apply Permutation_length_2_inv in Hp.
  destruct Hp as [[= -> ->]|[= -> ->]]; [reflexivity|].
  rewrite (Z.eqb_sym b a), (Z.max_comm b a), (Z.min_comm b a).
  reflexivity.
Qed.

Lemma filter_filter_and (f g : Z -> bool) (l : list Z) :
  filter f (filter g l) = filter (fun x => g x && f x) l.
Proof.
  induction l as [|x t IH]; cbn [filter]; [reflexivity|].
  destruct (g x); cbn [filter andb]; [|exact IH].
  destruct (f x); rewrite IH; reflexivity.
Qed.

Lemma sorted_head_least (l : list Z) (h : Z) (t : list Z) (x : Z) :
  sorted l = h :: t -> In x l -> h <= x.
Proof.
  intros E Hx. pose proof (sorted_sorted l) as Hs. rewrite E in Hs.
  apply in_sorted_rev in Hx. rewrite E in Hx.
  inversion Hs as [|? ? _ Hall]; subst. rewrite Forall_forall in Hall.
  destruct Hx as [<-|Hx]; [lia | auto].
Qed.

(** The die the enumerator consumes for a move is the die [make_move]
    takes out of a pool with the same dice. *)
Lemma consumed_is_removed (s g : BackgammonGame) (dr : list Z) (die : Z)
      (src dst : endpoint) :
  1 <= die <= 6 ->
  same_checkers g s -> Permutation (dice g) dr ->
  In (src, dst) (_get_single_moves_for_die (current_player g) die s) ->
  consumed_die s (current_player g) dr die (src, dst) = Some die ->
  die_to_remove g src dst = Some die.
Proof.
  intros Hdie Hsc Hp Hgen Hcons.
  set (pl := current_player g) in *.
  pose proof (nominal_die_generated s pl die src dst Hdie Hgen) as Hnom.
  pose proof (generated_move_geometry _ _ _ _ _ Hgen) as Hgeo.
  unfold die_to_remove. fold pl. unfold consumed_die in Hcons.
  destruct dst as [| |e].
  - destruct Hgeo as [(_ & [=] & _)|(s0 & _ & _ & [[[=] _]|([=] & _)])].
  - destruct Hnom as (s0 & -> & Hnom & Hdist). rewrite Hnom in *.
    rewrite (mem_Z_perm _ _ _ Hp).
    destruct Hgeo as [([=] & _)|(s1 & [= <-] & _ & [[[=] _]|(_ & Hhome & Hcbo)])].
    destruct (Z.eqb_spec (dist_to_off pl s0) die) as [E|Hne]; cbn [andb] in Hcons.
    + destruct (mem_Z die dr) eqn:Em.
      * rewrite E, Em. reflexivity.
      * rewrite andb_false_r in Hcons. discriminate.
    + fold (dist_to_off pl s0) in Hcons |- *.
      destruct ((die >=? dist_to_off pl s0) && _can_bear_off pl s0 die s
                && mem_Z die dr) eqn:Ec; [|discriminate].
      destruct (sorted (filter (fun d => (d >=? dist_to_off pl s0)
                                         && _can_bear_off pl s0 d s) dr))
        as [|smallest rest] eqn:Ev; [discriminate|].
      destruct (Z.eqb_spec die smallest) as [->|]; [|discriminate].
      destruct (mem_Z (dist_to_off pl s0) dr) eqn:Em.
      * exfalso. apply mem_Z_In in Em.
        assert (Hin : In (dist_to_off pl s0)
                         (filter (fun d => (d >=? dist_to_off pl s0)
                                           && _can_bear_off pl s0 d s) dr)).
        { apply filter_In. split; [exact Em|].
          apply andb_true_iff. split; [rewrite Z.geb_leb; apply Z.leb_refl|].
          apply can_bear_off_spec in Hcbo. destruct Hcbo as [Hh _].
          apply can_bear_off_spec. split; [exact Hh | left; reflexivity]. }
        pose proof (sorted_head_least _ _ _ _ Ev Hin). lia.
      * rewrite (check_all_pieces_home_same pl g s Hsc), Hhome.
        rewrite (sorted_perm _ _ (filter_perm _ _ _ Hp)).
        rewrite find_hd_filter, <- sorted_filter, filter_filter_and.
        rewrite (filter_ext_all
                   (fun x => (x >=? dist_to_off pl s0)
                             && (true && _can_bear_off pl s0 x g))
                   (fun d => (d >=? dist_to_off pl s0)
                             && _can_bear_off pl s0 d s))
          by (intros x; rewrite (can_bear_off_same pl s0 x g s Hsc);
              reflexivity).
        rewrite Ev. reflexivity.
  - rewrite Hnom in *. rewrite Z.eqb_refl in Hcons. cbn [andb] in Hcons.
    rewrite (mem_Z_perm _ _ _ Hp).
    destruct (mem_Z die dr); [reflexivity|].
    destruct src; discriminate.
Qed.

(** ** Enumerated sequences on the live game *)

Lemma legal_line_snoc (g0 g g' : BackgammonGame) (sq : list move)
      (src dst : endpoint) :
  legal_line g0 sq g ->
  In (src, dst) (get_legal_actions g) ->
  make_move g src dst = (true, g') ->
  legal_line g0 (sq ++ [(src, dst)]) g'.
Proof.
  intros H Hin Hmv.
  induction H as [gs|gs src1 dst1 g1 sq g Hin1 Hmv1 _ IH]; cbn [app].
  - eapply line_cons; eauto. apply line_nil.
  - eapply line_cons; eauto.
Qed.

Lemma legal_action_intro (gs : BackgammonGame) (die : Z) (m : move) :
  In die (_get_strictly_playable_dice gs (dice gs) (current_player gs)) ->
  In m (_get_single_moves_for_die (current_player gs) die gs) ->
  In m (get_legal_actions gs).
Proof.
  intros Hd Hm. unfold get_legal_actions.
  remember (dice gs) as dl eqn:Edl. destruct dl as [|d0 dl]; [destruct Hd|].
  apply dedup_moves_in. apply in_flat_map. exists die. split; assumption.
Qed.

(** One step of the enumerator, taken on a live game that holds the same
    checkers and the same dice. *)
Lemma line_step (s g ns : BackgammonGame) (dr rest : list Z) (die c : Z)
      (src dst : endpoint) :
  conserved g -> (forall d, In d (dice g) -> 1 <= d <= 6) ->
  same_checkers g s -> Permutation (dice g) dr ->
  In die (_get_strictly_playable_dice s dr (current_player g)) ->
  In (src, dst) (_get_single_moves_for_die (current_player g) die s) ->
  consumed_die s (current_player g) dr die (src, dst) = Some c ->
  py_remove c dr = Some rest ->
  make_move_base_logic s (current_player g) src dst = (true, ns) ->
  exists g',
    In (src, dst) (get_legal_actions g) /\
    make_move g src dst = (true, g') /\
    conserved g' /\ (forall d, In d (dice g') -> 1 <= d <= 6) /\
    same_checkers g' ns /\ Permutation (dice g') (sorted rest) /\
    current_player g' = current_player g.
Proof.
  intros Hc Hdice Hsc Hp Hal Hgen Hcons Hrem Hb.
  pose proof Hc as [Hl _].
  pose proof (consumed_die_some _ _ _ _ _ _ Hcons) as ->.
  assert (Hdr : In die dr) by (eapply py_remove_some_in; eauto).
  assert (Hdg : In die (dice g))
    by (apply (Permutation_in _ (Permutation_sym Hp)); exact Hdr).
  pose proof (Hdice _ Hdg) as Hrange.
  assert (Hgen_g : In (src, dst)
                      (_get_single_moves_for_die (current_player g) die g))
    by (rewrite (single_moves_same _ _ g s Hsc); exact Hgen).
  assert (Hlegal : In (src, dst) (get_legal_actions g)).
  { apply (legal_action_intro g die); [|exact Hgen_g].
    rewrite (strictly_playable_same _ _ g s Hsc).
    rewrite (strictly_playable_perm s _ _ _ Hp). exact Hal. }
  pose proof (consumed_is_removed s g dr die src dst Hrange Hsc Hp Hgen Hcons)
    as Htake.
  destruct (py_remove_perm die dr (dice g) rest (Permutation_sym Hp) Hrem)
    as (rest' & Hrem' & Hpr).
  pose proof (make_move_try_played g die die src dst rest' Hl Hgen_g Hrem')
    as Htry.
  pose proof (played_conserved g (current_player g) die src dst Hc Hgen_g)
    as Hcp.
  assert (Hc1 : conserved (set_dice (played (current_player g) g src dst)
                                    rest')).
  { apply (same_checkers_conserved _ (played (current_player g) g src dst));
      auto. repeat split; reflexivity. }
  pose proof (make_move_after_try g _ src dst die Htake Htry Hc1)
    as (Hok & Hsc1 & Hcur & Hd & _).
  pose proof (played_dice (current_player g) g src dst) as (_ & Hpcp & _).
  destruct (make_move g src dst) as [ok g'] eqn:Emv.
  cbn [fst snd] in Hok, Hsc1, Hcur, Hd. subst ok.
  exists g'. split; [exact Hlegal|]. split; [reflexivity|].
  split; [apply (same_checkers_conserved _ _ Hsc1 Hc1)|].
  split.
  { intros d Hin. apply Hdice. rewrite Hd in Hin. cbn [dice set_dice] in Hin.
    eapply py_remove_subset; eauto. }
  split.
  { apply (same_checkers_trans _ _ _ Hsc1).
    apply (same_checkers_trans _ (played (current_player g) g src dst));
      [repeat split; reflexivity|].
    pose proof (base_logic_same (current_player g) src dst g s Hsc) as [_ Hbs].
    rewrite (base_logic_generated_played g _ die src dst Hl Hgen_g) in Hbs.
    rewrite Hb in Hbs. exact Hbs. }
  split.
  { rewrite Hd. cbn [dice set_dice]. rewrite <- Hpr.
    symmetry. apply sorted_perm_self. }
  rewrite Hcur. cbn [current_player set_dice]. exact Hpcp.
Qed.

Lemma initial_dice_perms_perm (dice_tuple dc : list Z) :
  In dc (initial_dice_perms dice_tuple) -> Permutation dice_tuple dc.
Proof.
  destruct (initial_dice_perms_cases dice_tuple) as [->|(d1 & d2 & -> & ->)].
  - intros [<-|[]]. reflexivity.
  - intros [<-|[<-|[]]]; [reflexivity | apply perm_swap].
Qed.

(** An enumerated sequence is a line of the live game. *)
Lemma enumerated_line (gs : BackgammonGame)
        (dice_tuple : list Z) (s : BackgammonGame) (sq : list move) :
  conserved gs ->
  (forall d, In d dice_tuple -> 1 <= d <= 6) ->
  In (s, sq) (generate_possible_next_states_with_sequences
                gs dice_tuple (current_player gs)) ->
  exists g, legal_line (set_dice gs dice_tuple) sq g /\ same_checkers g s.
Proof.
  intros Hc Hdice Hin.
  set (g0 := set_dice gs dice_tuple).
  set (pl := current_player gs).
  apply generate_results_from in Hin.
  destruct Hin as [[= -> ->]|[k Hin]].
  { exists g0. split; [apply line_nil | repeat split; reflexivity]. }
  set (P := fun d : outcomes_dict =>
              forall k s sq, In (k, (s, sq)) d ->
                exists g, legal_line g0 sq g /\ same_checkers g s).
  enough (HP : P (collect_final_outcomes gs dice_tuple pl))
    by (exact (HP _ _ _ Hin)).
  clear k s sq Hin. unfold collect_final_outcomes.
  apply (fold_left_invariant (fun st : search_state => P (snd st)));
    [|intros k s sq []].
  intros st dc Hdc Hst.
  apply (find_sequences_invariant
           pl
           (fun s dr sq =>
              exists g, legal_line g0 sq g /\ same_checkers g s /\
                        Permutation (dice g) dr /\ current_player g = pl /\
                        conserved g /\
                        (forall d, In d (dice g) -> 1 <= d <= 6))
           P); auto.
  - intros s dr sq die [src dst] c rest ns
           (g & Hline & Hsc & Hp & Hcur & Hcg & Hdg) Hal Hmv Hcons Hr Hb.
    cbn [fst snd] in Hb. rewrite <- Hcur in Hal, Hmv, Hcons, Hb.
    destruct (line_step s g ns dr rest die c src dst Hcg Hdg Hsc Hp Hal Hmv
                        Hcons Hr Hb)
      as (g' & Hlegal & Hmake & Hcg' & Hdg' & Hsc' & Hp' & Hcur').
    exists g'. split; [eapply legal_line_snoc; eauto|].
    split; [exact Hsc'|]. split; [exact Hp'|]. split; [congruence|].
    split; [exact Hcg' | exact Hdg'].
  - intros s dr sq d (g & Hline & Hsc & _) Hd k s' sq' Hin.
    unfold record_outcome in Hin.
    assert (Hset : In (k, (s', sq')) (dict_set (board_tuple s) (copy s, sq) d)
                   -> exists g, legal_line g0 sq' g /\ same_checkers g s').
    { intros H. apply dict_set_in in H.
      destruct H as [H|[= -> ->]]; [eauto|]. exists g. auto. }
    destruct (dict_get (board_tuple s) d) as [[s0 old_seq]|]; auto.
    destruct (length sq <? length old_seq)%nat; auto. apply (Hd _ _ _ Hin).
  - exists g0. split; [apply line_nil|].
    split; [repeat split; reflexivity|].
    split.
    { unfold g0. cbn [dice set_dice].
      rewrite sorted_perm_self. apply initial_dice_perms_perm. exact Hdc. }
    split; [reflexivity|].
    split; [apply (same_checkers_conserved _ gs); auto;
            repeat split; reflexivity|].
    exact Hdice.
Qed.

(** X22: every sequence the enumerator returns for the player to move can
    be played on the live game that holds the roll: move by move, each
    move belongs to the legal moves of the state then reached and
    [make_move] applies it and returns [True]; the game ends with the
    checkers of the state the enumerator returned with the sequence. *)
Theorem enumerated_sequence_is_playable (gs : BackgammonGame)
        (dice_tuple : list Z) (s : BackgammonGame) (sq : list move) :
  conserved gs ->
  (forall d, In d dice_tuple -> 1 <= d <= 6) ->
  In (s, sq) (generate_possible_next_states_with_sequences
                gs dice_tuple (current_player gs)) ->
  exists g, legal_line (set_dice gs dice_tuple) sq g /\ same_checkers g s.
Proof. exact (enumerated_line gs dice_tuple s sq). Qed.

Lemma enumerated_sequence_is_playable_witness :
  let gs := initial_game in
  let o := nth 0 (generate_possible_next_states_with_sequences gs [3; 1] W)
               (gs, []) in
  exists g, legal_line (set_dice gs [3; 1]) (snd o) g /\
            same_checkers g (fst o).
Proof.
  apply (enumerated_sequence_is_playable initial_game [3; 1]).
  - split; reflexivity.
  - intros d [<-|[<-|[]]]; lia.
  - vm_compute. left. reflexivity.
Defined.

(** X23: the sequence [select_ai_move_minimax] returns for the pool and
    the player to move of a conserved game is one the human could have
    played: move by move, each move belongs to the legal moves of the live
    game and [make_move] applies it and returns [True]; the game then
    holds the checkers of the state returned with the sequence. *)
Theorem selected_sequence_is_playable
        (heuristic : BackgammonGame -> player -> phase -> float)
        (randint : nat -> Z) (gs : BackgammonGame) (drawn : nat) :
  conserved gs ->
  (forall d, In d (dice gs) -> 1 <= d <= 6) ->
  let r := select_ai_move_minimax heuristic randint gs (dice gs)
                                  (current_player gs) drawn in
  exists g, legal_line gs (fst (fst r)) g /\ same_checkers g (snd (fst r)).
Proof.
  intros Hc Hdice. cbv zeta.
  destruct (no_move_outcome
              (generate_possible_next_states_with_sequences
                 gs (dice gs) (current_player gs))) eqn:Hno.
  - unfold select_ai_move_minimax. rewrite Hno. cbn [fst snd].
    exists gs. split; [apply line_nil | apply same_checkers_refl].
  - destruct (select_chosen_outcome heuristic randint gs (dice gs)
                                    (current_player gs) drawn Hno)
      as (s & g & Hin & (Hsc & _) & Hst).
    rewrite Hst.
    destruct (enumerated_line gs (dice gs) s _ Hc Hdice Hin)
      as (g' & Hline & Hsc').
    rewrite <- (set_dice_same gs) in Hline.
    exists g'. split; [exact Hline|].
    apply (same_checkers_trans _ _ _ Hsc').
    apply same_checkers_sym.
    apply (same_checkers_trans _ g); [repeat split; reflexivity | exact Hsc].
Qed.

Lemma selected_sequence_is_playable_witness :
  let gs := set_dice last_checker_position [1; 1; 1; 1] in
  let r := select_ai_move_minimax (fun _ _ _ => 0%float) (fun _ => 1) gs
                                  (dice gs) (current_player gs) 0 in
  exists g, legal_line gs (fst (fst r)) g /\ same_checkers g (snd (fst r)).
Proof.
  apply (selected_sequence_is_playable
           (fun _ _ _ => 0%float) (fun _ => 1)
           (set_dice last_checker_position [1; 1; 1; 1]) 0%nat).
  - split; reflexivity.
  - intros d Hd. vm_compute in Hd. intuition lia.
Defined.

(** ** Invariants of the main loop, continued *)

Lemma played_offs (pl : player) (gs : BackgammonGame) (src dst : endpoint) :
  white_off gs <= white_off (played pl gs src dst) /\
  black_off gs <= black_off (played pl gs src dst).
Proof.
  unfold played, lift.
  destruct src as [| |s]; destruct dst as [| |d]; try (split; lia).
  - pose proof (land_bars_offs pl (set_bar pl gs (bar_of pl gs - 1)) d)
      as (_ & _ & -> & ->).
    destruct pl; cbn; lia.
  - destruct pl; cbn; lia.
  - pose proof (land_bars_offs
                  pl (set_board gs (set_point (board gs) s
                                              (point (board gs) s - p_sign pl)))
                  d) as (_ & _ & -> & ->).
    cbn. lia.
Qed.

Lemma plays_offs (pl : player) (gs : BackgammonGame) (dr : list Z)
      (sq : list move) (s : BackgammonGame) (dr' : list Z) :
  plays pl gs dr sq s dr' -> length (board gs) = 24%nat ->
  white_off gs <= white_off s /\ black_off gs <= black_off s.
Proof.
  induction 1 as [gs dr|gs dr die src dst rest ns sq final dr' _ Hg _ Hb _ IH];
    intros Hl; [lia|].
  pose proof (base_logic_generated gs pl die src dst Hl Hg) as (_ & Hl' & _).
  rewrite Hb in Hl'. cbn [snd] in Hl'. specialize (IH Hl').
  rewrite (base_logic_generated_played gs pl die src dst Hl Hg) in Hb.
  injection Hb as <-.
  pose proof (played_offs pl gs src dst). lia.
Qed.

Lemma enumerated_offs (gs : BackgammonGame) (dice_tuple : list Z)
      (pl : player) (s : BackgammonGame) (sq : list move) :
  length (board gs) = 24%nat ->
  In (s, sq) (generate_possible_next_states_with_sequences gs dice_tuple pl) ->
  white_off gs <= white_off s /\ black_off gs <= black_off s.
Proof.
  intros Hl Hin. apply generate_results_from in Hin.
  destruct Hin as [[= -> ->]|[k Hin]]; [lia|].
  apply collect_plays in Hin. destruct Hin as (dc & dr' & _ & Hp).
  apply plays_offs in Hp; [|exact Hl]. exact Hp.
Qed.

(** X20: whatever the main loop does (rolling, determining the phase,
    applying a move picked from the move cache, taking over the state the
    move selection returns, switching the player), the game keeps fifteen
    checkers a side on 24 points with non-negative bars and offs, a pool
    of at most four dice between 1 and 6 and a move cache equal to the
    legal moves of the state; its winner field names a side exactly when
    that side has fifteen checkers off, and is never the error mark. *)
Theorem main_loop_invariants (gs : BackgammonGame) :
  live gs ->
  conserved gs /\ well_formed gs /\
  (forall d, In d (dice gs) -> 1 <= d <= 6) /\
  (length (dice gs) <= 4)%nat /\
  available_moves gs = get_legal_actions gs /\
  winner gs = (if white_off gs >=? 15 then Won W
               else if black_off gs >=? 15 then Won B else NoWinner) /\
  winner gs <> ErrorState.
Proof.
  intros H.
  enough (Hinv : conserved gs /\ well_formed gs /\
                 (forall d, In d (dice gs) -> 1 <= d <= 6) /\
                 (length (dice gs) <= 4)%nat /\
                 available_moves gs = get_legal_actions gs /\
                 winner gs = (if white_off gs >=? 15 then Won W
                              else if black_off gs >=? 15 then Won B
                                   else NoWinner)).
  { destruct Hinv as (Hc & Hwf & Hdice & Hlen & Hav & Hwin).
    split; [exact Hc|]. split; [exact Hwf|]. split; [exact Hdice|].
    split; [exact Hlen|]. split; [exact Hav|]. split; [exact Hwin|].
    rewrite Hwin. destruct (white_off gs >=? 15); [discriminate|].
    destruct (black_off gs >=? 15); discriminate. }
  induction H as [|gs d1 d2 _ IH Hd1 Hd2|gs _ IH|gs src dst _ IH Hin
                  |gs heuristic randint drawn _ IH|gs _ IH].
  - split; [split; reflexivity|]. split; [unfold well_formed; cbn; lia|].
    split; [intros d []|]. split; [cbn; lia|].
    split; reflexivity.
  - destruct IH as (Hc & Hwf & Hdice & Hlen & Hav & Hwin).
    assert (Hsc : same_checkers (roll_dice gs d1 d2) gs)
      by (repeat split; reflexivity).
    split; [apply (same_checkers_conserved _ _ Hsc Hc)|].
    split; [apply (same_checkers_well_formed _ _ Hsc Hwf)|].
    assert (Hcache : available_moves (roll_dice gs d1 d2)
                     = get_legal_actions (roll_dice gs d1 d2)).
    { unfold roll_dice.
      cbn [available_moves set_available_moves].
      apply legal_actions_same; repeat split; reflexivity. }
    split; [|split; [|split; [exact Hcache | exact Hwin]]].
    + unfold roll_dice. cbn [dice set_available_moves set_dice].
      destruct (d1 =? d2); cbn [In]; intros d Hd; intuition lia.
    + unfold roll_dice. cbn [dice set_available_moves set_dice].
      destruct (d1 =? d2); cbn [length]; lia.
  - destruct IH as (Hc & Hwf & Hdice & Hlen & Hav & Hwin).
    unfold determine_game_phase. cbv zeta. cbn [snd].
    match goal with
    | |- context [set_current_phase gs ?p] => generalize p; intros ph
    end.
    assert (Hsc : same_checkers (set_current_phase gs ph) gs)
      by (repeat split; reflexivity).
    split; [apply (same_checkers_conserved _ _ Hsc Hc)|].
    split; [apply (same_checkers_well_formed _ _ Hsc Hwf)|].
    split; [exact Hdice|]. split; [exact Hlen|]. split; [|exact Hwin].
    cbn [available_moves set_current_phase]. rewrite Hav.
    apply legal_actions_same; repeat split; reflexivity.
  - destruct IH as (Hc & Hwf & Hdice & Hlen & Hav & Hwin).
    rewrite Hav in Hin.
    destruct (make_move_legal_steps gs src dst Hc Hdice Hin)
      as (die0 & die & rest & Hpool & Hgen & Hle & Hne & Hrest & Hdie & Htry
          & Hc1).
    pose proof (played_dice (current_player gs) gs src dst)
      as (_ & _ & Hpw & _).
    pose proof (played_offs (current_player gs) gs src dst) as [Hwo Hbo].
    pose proof (make_move_after_try gs _ src dst die Hdie Htry Hc1)
      as (_ & Hsc & _ & Hd & _ & Hcache & Hw).
    cbv zeta in Hsc, Hd, Hw, Hcache.
    split; [now apply make_move_conserved|].
    split.
    { apply (same_checkers_well_formed _ _ Hsc).
      apply (same_checkers_well_formed _ (played (current_player gs) gs src dst));
        [repeat split; reflexivity|].
      eapply played_well_formed; eauto. }
    rewrite Hd. cbn [dice set_dice].
    split; [intros d Hin'; apply Hdice; eapply py_remove_subset; eauto|].
    split; [apply py_remove_length in Hrest; lia|].
    split; [exact Hcache|].
    rewrite Hw. destruct Hsc as (_ & _ & _ & -> & ->).
    cbn [white_off black_off winner set_dice] in *.
    destruct (Z.geb_spec (white_off (played (current_player gs) gs src dst)) 15);
      [reflexivity|].
    destruct (Z.geb_spec (black_off (played (current_player gs) gs src dst)) 15);
      [reflexivity|].
    rewrite Hpw, Hwin.
    destruct (Z.geb_spec (white_off gs) 15); [lia|].
    destruct (Z.geb_spec (black_off gs) 15); [lia | reflexivity].
  - destruct IH as (Hc & Hwf & Hdice & Hlen & Hav & Hwin).
    destruct (no_move_outcome
                (generate_possible_next_states_with_sequences
                   gs (dice gs) (current_player gs))) eqn:Hno.
    + unfold select_ai_move_minimax. rewrite Hno. cbn [fst snd].
      split; [exact Hc|]. split; [exact Hwf|]. auto.
    + destruct (select_chosen_outcome heuristic randint gs (dice gs)
                                      (current_player gs) drawn Hno)
        as (s & g & Hin & (Hsc & _ & _ & _ & Hw) & Hst).
      rewrite Hst.
      pose proof (enumerated_winner _ _ _ _ _ Hin) as Hws.
      destruct (enumerated_state _ _ _ _ _ Hc Hwf Hin) as [Hcs Hwfs].
      destruct (enumerated_offs _ _ _ _ _ (proj1 Hc) Hin) as [Hwo Hbo].
      assert (Hall : same_checkers (turn_done g) s)
        by (destruct Hsc as (?&?&?&?&?); repeat split; assumption).
      split; [apply (same_checkers_conserved _ _ Hall Hcs)|].
      split; [apply (same_checkers_well_formed _ _ Hall Hwfs)|].
      destruct Hsc as (_ & _ & _ & Hgwo & Hgbo).
      unfold turn_done.
      cbn [dice available_moves winner white_off black_off
                set_available_moves set_dice In length].
      split; [intros d []|]. split; [lia|].
      split; [symmetry; apply legal_actions_no_dice; reflexivity|].
      rewrite Hw, Hgwo, Hgbo. unfold winner_after_check.
      destruct (Z.geb_spec (white_off s) 15); [reflexivity|].
      destruct (Z.geb_spec (black_off s) 15); [reflexivity|].
      rewrite Hws, Hwin.
      destruct (Z.geb_spec (white_off gs) 15); [lia|].
      destruct (Z.geb_spec (black_off gs) 15); [lia | reflexivity].
  - destruct IH as (Hc & Hwf & Hdice & Hlen & Hav & Hwin).
    assert (Hsc : same_checkers (switch_player gs) gs)
      by (repeat split; reflexivity).
    split; [apply (same_checkers_conserved _ _ Hsc Hc)|].
    split; [apply (same_checkers_well_formed _ _ Hsc Hwf)|].
    unfold switch_player.
    cbn [dice winner available_moves white_off black_off set_available_moves
              set_dice set_current_player In length].
    split; [intros d []|]. split; [lia|]. split; [|exact Hwin].
    symmetry. apply legal_actions_no_dice. reflexivity.
Qed.

Lemma main_loop_invariants_witness :
  let gs := snd (make_move (roll_dice initial_game 3 1) (Pt 17) (Pt 20)) in
  conserved gs /\ well_formed gs /\
  (forall d, In d (dice gs) -> 1 <= d <= 6) /\
  (length (dice gs) <= 4)%nat /\
  available_moves gs = get_legal_actions gs /\
  winner gs = (if white_off gs >=? 15 then Won W
               else if black_off gs >=? 15 then Won B else NoWinner) /\
  winner gs <> ErrorState.
Proof.
  apply (main_loop_invariants
           (snd (make_move (roll_dice initial_game 3 1) (Pt 17) (Pt 20)))).
  apply live_move.
  - apply live_roll; [apply live_start | lia | lia].
  - vm_compute. tauto.
Defined.

(** ** A bear-off the enumerator does not find *)

Lemma sorted_set_desc_two (n m : Z) : n < m -> sorted_set_desc [n; m] = [m; n].
Proof.
  intros H. unfold sorted_set_desc. cbn [fold_right insert_desc_unique].
  destruct (Z.eqb_spec n m); [lia|].
  destruct (Z.gtb_spec n m); [lia|]. reflexivity.
Qed.

Lemma sorted_two (n m : Z) : n < m -> sorted [n; m] = [n; m].
Proof.
  intros H. unfold sorted. cbn [fold_right insert_asc].
  destruct (Z.leb_spec n m); [reflexivity | lia].
Qed.

(** When two different dice both bear off the same checker and nothing can
    be played afterwards, the resolver allows the larger die alone. *)
Lemma strictly_playable_overshoot (gs : BackgammonGame) (pl : player)
      (s0 n m : Z) :
  n < m ->
  _get_single_moves_for_die pl n gs = [(Pt s0, Off)] ->
  _get_single_moves_for_die pl m gs = [(Pt s0, Off)] ->
  (forall d, _get_single_moves_for_die
               pl d (snd (make_move_base_logic gs pl (Pt s0) Off)) = []) ->
  _get_strictly_playable_dice gs [n; m] pl = [m].
Proof.
  intros Hlt Hn Hm Hafter. unfold _get_strictly_playable_dice.
  rewrite sorted_set_desc_two by exact Hlt.
  cbn [filter]. rewrite Hn, Hm. cbn [nonempty].
  destruct (Z.eqb_spec n m); [lia|]. cbn [negb].
  rewrite Z.max_r, Z.min_l by lia.
  assert (Hmm : mem_Z m [m; n] = true)
    by (apply mem_Z_In; left; reflexivity).
  assert (Hmn : mem_Z n [m; n] = true)
    by (apply mem_Z_In; right; left; reflexivity).
  rewrite Hmm, Hmn. cbn [andb negb].
  assert (Hp : forall a b, (a = n \/ a = m) -> plays_then gs pl a b = false).
  { intros a b Ha. unfold plays_then, copy.
    assert (E : _get_single_moves_for_die pl a gs = [(Pt s0, Off)])
      by (destruct Ha as [->| ->]; assumption).
    rewrite E. cbn [existsb fst snd].
    specialize (Hafter b).
    destruct (make_move_base_logic gs pl (Pt s0) Off) as [ok temp].
    cbn [snd] in Hafter. rewrite Hafter. cbn [nonempty].
    rewrite andb_false_r. reflexivity. }
  rewrite !Hp by auto. reflexivity.
Qed.

(** X24: the enumerator can miss a forced bear-off.  Take a state in
    which two different dice of the roll each bear off the same checker
    and nothing can be played after it.  The legal moves of the live game
    then hold that bear-off, which [make_move] would apply, but the
    enumerator returns the input with the empty sequence: the forced-die
    resolver allows the larger die alone, and the die rule of the search
    takes a bear-off only for the smallest die that bears off. *)
Theorem enumerator_misses_forced_bear_off (gs : BackgammonGame) (s0 n m : Z) :
  let pl := current_player gs in
  n < m ->
  _get_single_moves_for_die pl n gs = [(Pt s0, Off)] ->
  _get_single_moves_for_die pl m gs = [(Pt s0, Off)] ->
  (forall d, _get_single_moves_for_die
               pl d (snd (make_move_base_logic gs pl (Pt s0) Off)) = []) ->
  get_legal_actions (set_dice gs [n; m]) = [(Pt s0, Off)] /\
  generate_possible_next_states_with_sequences gs [n; m] pl = [(gs, [])].
Proof.
  intros pl Hlt Hn Hm Hafter.
  pose proof (strictly_playable_overshoot gs pl s0 n m Hlt Hn Hm Hafter)
    as Hres.
  assert (Hsd : forall dc, same_checkers (set_dice gs dc) gs)
    by (intros dc; repeat split; reflexivity).
  split.
  - unfold get_legal_actions.
    cbn [dice current_player set_dice]. fold pl.
    rewrite (strictly_playable_same _ _ _ _ (Hsd [n; m])), Hres.
    cbn [flat_map]. rewrite single_moves_set_dice, Hm. reflexivity.
  - assert (Hin : In (Pt s0, Off) (_get_single_moves_for_die pl m gs))
      by (rewrite Hm; left; reflexivity).
    assert (Hin' : In (Pt s0, Off) (_get_single_moves_for_die pl n gs))
      by (rewrite Hn; left; reflexivity).
    pose proof (generated_move_geometry _ _ _ _ _ Hin) as Hgeo.
    destruct Hgeo as [([=] & _)|(s1 & [= <-] & Hs & [[[=] _]|(_ & _ & Hcm)])].
    pose proof (generated_move_geometry _ _ _ _ _ Hin') as Hgeo.
    destruct Hgeo as [([=] & _)|(s1 & [= <-] & _ & [[[=] _]|(_ & _ & Hcn)])].
    assert (Hdist : dist_to_off pl s0 <= n).
    { apply can_bear_off_spec in Hcn. destruct Hcn as [_ [->|[H _]]]; lia. }
    assert (Hcons : forall dc,
               consumed_die (set_dice gs dc) pl [n; m] m (Pt s0, Off) = None).
    { intros dc. unfold consumed_die.
      assert (Hcase1 : match _get_die_for_move (Pt s0) Off pl with
                       | Some k => (k =? m) && mem_Z m [n; m]
                       | None => false
                       end = false).
      { unfold _get_die_for_move.
        destruct (negb _); [reflexivity|].
        fold (dist_to_off pl s0).
        destruct ((1 <=? dist_to_off pl s0) && (dist_to_off pl s0 <=? 6));
          [|reflexivity].
        destruct (Z.eqb_spec (dist_to_off pl s0) m); [lia | reflexivity]. }
      rewrite Hcase1. fold (dist_to_off pl s0).
      cbn [filter].
      rewrite !(can_bear_off_same pl s0 _ _ _ (Hsd dc)), Hcm, Hcn.
      assert (Hge : (m >=? dist_to_off pl s0) = true)
        by (rewrite Z.geb_leb; apply Z.leb_le; lia).
      assert (Hgn : (n >=? dist_to_off pl s0) = true)
        by (rewrite Z.geb_leb; apply Z.leb_le; lia).
      assert (Hmem : mem_Z m [n; m] = true)
        by (apply mem_Z_In; right; left; reflexivity).
      rewrite Hge, Hgn, Hmem. cbn [andb]. rewrite sorted_two by exact Hlt.
      destruct (Z.eqb_spec m n); [lia | reflexivity]. }
    assert (Hroot : forall fuel dc memo,
               memo_mem (board_tuple (set_dice gs dc), [n; m]) memo = false ->
               find_sequences_recursive (S fuel) pl (set_dice gs dc) [n; m] []
                                        (memo, [])
               = ((board_tuple (set_dice gs dc), [n; m]) :: memo, [])).
    { intros fuel dc memo Hmemo. cbn [find_sequences_recursive].
      rewrite Hmemo.
      rewrite (strictly_playable_same _ _ _ _ (Hsd dc)), Hres.
      cbn [fold_left]. rewrite single_moves_set_dice, Hm.
      cbn [fold_left snd]. rewrite Hcons. reflexivity. }
    unfold generate_possible_next_states_with_sequences.
    assert (Hcollect : collect_final_outcomes gs [n; m] pl = []).
    { unfold collect_final_outcomes, initial_dice_perms, copy.
      destruct (Z.eqb_spec n m); [lia|]. cbn [negb fold_left].
      rewrite (sorted_pair_swap n m), !(sorted_two n m Hlt).
      rewrite Hroot by reflexivity.
      rewrite find_sequences_memo_hit; [reflexivity|].
      cbn [fst]. unfold memo_mem. cbn [existsb].
      replace (board_tuple (set_dice gs [m; n]))
        with (board_tuple (set_dice gs [n; m])) by reflexivity.
      rewrite memo_key_eqb_refl. reflexivity. }
    rewrite Hcollect. reflexivity.
Qed.

Lemma enumerator_misses_forced_bear_off_witness :
  get_legal_actions (set_dice last_checker_position [1; 2]) = [(Pt 24, Off)] /\
  generate_possible_next_states_with_sequences
    last_checker_position [1; 2] (current_player last_checker_position)
  = [(last_checker_position, [])].
Proof.
  apply (enumerator_misses_forced_bear_off last_checker_position 24 1 2).
  - lia.
  - reflexivity.
  - reflexivity.
  - intros d. unfold _get_single_moves_for_die. vm_compute. reflexivity.
Defined.
